(** * ChipStack: dispatching Python callables onto the Matter (CHIP) thread

    A shallow embedding of [src/controller/python/chip/ChipStack.py]:
    the two callable handles ([AsyncCallableHandle], [AsyncioCallableHandle]),
    the [_singleton] decorator, the [ChipStack] constructor and its methods
    [Shutdown], [Call], [CallAsync], [CallAsyncWithCompleteCallback],
    [PostTaskOnChipThread], [setLogFunct], [LocateChipDLL], [ErrorToException]
    and [_AllDirsToRoot], and the logging helpers [LogCategory] and
    [ChipLogFormatter].

    Methods are computations in a state-and-exception monad over a [World]
    that holds the Python objects, the foreign runtime and its task queue.
    What the other threads do while the calling thread is suspended is given
    by an explicit schedule (a list of [move]s) carried in the [World]. *)

From stdpp Require Import gmap list strings.
From Stdlib Require Import QArith Ascii DecimalString.
Close Scope Q_scope.

Set Default Proof Using "Type".

(** ** Python values and exceptions *)

(** Instances of [Exception], the class caught by [except Exception]. *)
Inductive exn : Type :=
  | ChipStackException (msg : string)
  | ChipStackError (code : Z)
  | DeviceError (profileId statusCode : Z)
  | TimeoutError (msg : string)
  | AttributeError (msg : string)
  | TypeError (msg : string)
  | ZeroDivisionError
  | UserError (name : string).

(** Instances of [BaseException] that are not instances of [Exception];
    [asyncio.CancelledError] is one of them since Python 3.8. *)
Inductive base_exn : Type :=
  | KeyboardInterrupt
  | SystemExit (code : Z)
  | CancelledError.

Inductive thrown : Type :=
  | Exc (e : exn)
  | Base (b : base_exn).

Coercion Exc : exn >-> thrown.

Inductive value : Type :=
  | VNone
  | VBool (b : bool)
  | VInt (z : Z)
  | VStr (s : string)
  | PyChipError (code : Z)
  | VExc (e : exn).

(** A Python callable without arguments, given by what invoking it does:
    it returns a value or raises.  Invoking it is one step of the thread that
    runs the trampoline: a callable that runs for long, or for ever, while
    others wait for the lock that the trampoline holds is not described. *)
Inductive callable : Type :=
  | Returns (v : value)
  | Raises (t : thrown).

(** The type [PyChipError] of [chip.native] is not part of the sources.
    Modelled from the spec: the foreign calls return a status, and a
    "non-success return" is a non-zero code; [to_exception] builds the
    [ChipStackError] that carries it. *)
Definition is_success (code : Z) : bool := (code =? 0)%Z.

Definition to_exception (code : Z) : exn := ChipStackError code.

(** Modelled from the spec: the class hierarchy of [chip.exceptions] is not
    part of the sources.  A stored value "represents a carried failure" when it
    is an instance of [ChipStackException]; [ChipStackError] and [DeviceError]
    are its subclasses. *)
Definition isinstance_ChipStackException (v : value) : bool :=
  match v with
  | VExc (ChipStackException _) | VExc (ChipStackError _) | VExc (DeviceError _ _) => true
  | _ => false
  end.

(** ** The objects *)

Module AsyncCallableHandle.
(** [_cv_waiting] is the waiter list of the condition variable [_cv] (a
    thread is blocked in [_cv.wait]); [refs] counts the references taken with
    [Py_IncRef] and not yet given back with [Py_DecRef]. *)
Record t : Type := mk {
  _callback : callable;
  _res : value;
  _exc : option exn;
  _finish : bool;
  _cv_waiting : bool;
  refs : nat
}.

Definition __init__ (callback : callable) : t :=
  {| _callback := callback; _res := VNone; _exc := None; _finish := false;
     _cv_waiting := false; refs := 0 |}.

Definition set_res (x : value) (a : t) : t :=
  mk (_callback a) x (_exc a) (_finish a) (_cv_waiting a) (refs a).

Definition set_exc (x : option exn) (a : t) : t :=
  mk (_callback a) (_res a) x (_finish a) (_cv_waiting a) (refs a).

Definition set_finish (x : bool) (a : t) : t :=
  mk (_callback a) (_res a) (_exc a) x (_cv_waiting a) (refs a).

Definition set_cv_waiting (x : bool) (a : t) : t :=
  mk (_callback a) (_res a) (_exc a) (_finish a) x (refs a).

Definition set_refs (x : nat) (a : t) : t :=
  mk (_callback a) (_res a) (_exc a) (_finish a) (_cv_waiting a) x.
End AsyncCallableHandle.

Inductive future : Type :=
  | FPending
  | FResult (v : value)
  | FException (e : exn)
  | FCancelled.

Module AsyncioCallableHandle.
(** [_loop_closed] is the state of the loop [self._loop]: the loop that runs
    the coroutine when the handle is built, and that may be closed later. *)
Record t : Type := mk {
  _callback : callable;
  _future : future;
  _result : value;
  _exception : option exn;
  refs : nat;
  _loop_closed : bool
}.

Definition __init__ (callback : callable) : t :=
  {| _callback := callback; _future := FPending; _result := VNone;
     _exception := None; refs := 0; _loop_closed := false |}.

Definition set_future (x : future) (a : t) : t :=
  mk (_callback a) x (_result a) (_exception a) (refs a) (_loop_closed a).

Definition set_result (x : value) (a : t) : t :=
  mk (_callback a) (_future a) x (_exception a) (refs a) (_loop_closed a).

Definition set_exception (x : option exn) (a : t) : t :=
  mk (_callback a) (_future a) (_result a) x (refs a) (_loop_closed a).

Definition set_refs (x : nat) (a : t) : t :=
  mk (_callback a) (_future a) (_result a) (_exception a) x (_loop_closed a).

Definition set_loop_closed (x : bool) (a : t) : t :=
  mk (_callback a) (_future a) (_result a) (_exception a) (refs a) x.
End AsyncioCallableHandle.

(** What a [py_object] handed to the foreign runtime points to. *)
Inductive handle : Type :=
  | Blocking (a : AsyncCallableHandle.t)
  | Asyncio (a : AsyncioCallableHandle.t).

Inductive lib_handle : Type := LibraryHandle.

Module ChipStack.
(** A [Lock] is [Some held], an [Event] is [Some flag]; [None] is Python's
    [None], which [Shutdown] stores in the fields it clears. *)
Record t : Type := mk {
  ident : nat;
  networkLock : option bool;
  completeEvent : option bool;
  commissioningCompleteEvent : option bool;
  _ChipStackLib : option lib_handle;
  _chipDLLPath : option string;
  devMgr : value;
  callbackRes : value;
  commissioningEventRes : value;
  _activeLogFunct : bool;
  addModulePrefixToLogMessage : bool;
  _enableServerInteractions : bool;
  blockingCB : option callable;
  _persistentStorage : option string
}.

Definition set_networkLock (x : option bool) (s : t) : t :=
  mk (ident s) x (completeEvent s) (commissioningCompleteEvent s) (_ChipStackLib s)
     (_chipDLLPath s) (devMgr s) (callbackRes s) (commissioningEventRes s)
     (_activeLogFunct s) (addModulePrefixToLogMessage s) (_enableServerInteractions s)
     (blockingCB s) (_persistentStorage s).

Definition set_completeEvent (x : option bool) (s : t) : t :=
  mk (ident s) (networkLock s) x (commissioningCompleteEvent s) (_ChipStackLib s)
     (_chipDLLPath s) (devMgr s) (callbackRes s) (commissioningEventRes s)
     (_activeLogFunct s) (addModulePrefixToLogMessage s) (_enableServerInteractions s)
     (blockingCB s) (_persistentStorage s).

Definition set_callbackRes (x : value) (s : t) : t :=
  mk (ident s) (networkLock s) (completeEvent s) (commissioningCompleteEvent s)
     (_ChipStackLib s) (_chipDLLPath s) (devMgr s) x (commissioningEventRes s)
     (_activeLogFunct s) (addModulePrefixToLogMessage s) (_enableServerInteractions s)
     (blockingCB s) (_persistentStorage s).

Definition set_blockingCB (x : option callable) (s : t) : t :=
  mk (ident s) (networkLock s) (completeEvent s) (commissioningCompleteEvent s)
     (_ChipStackLib s) (_chipDLLPath s) (devMgr s) (callbackRes s)
     (commissioningEventRes s) (_activeLogFunct s) (addModulePrefixToLogMessage s)
     (_enableServerInteractions s) x (_persistentStorage s).
End ChipStack.

(** ** The foreign runtime

    Modelled from the spec: the runtime library ([_ChipDeviceCtrl.so]) is not
    part of the sources.  [Init], [Shutdown] and [PostTask] return a status;
    a posted task is queued for the single runtime thread, which runs queued
    tasks in order while the stack is running; a non-success return of
    [PostTask] means the trampoline will never run. *)
Record Native : Type := mkNative {
  stack_running : bool;
  init_status : Z;
  post_script : list Z;
  queue : list nat;
  log_funct_set : bool
}.

Definition set_queue (q : list nat) (n : Native) : Native :=
  mkNative (stack_running n) (init_status n) (post_script n) q (log_funct_set n).

Definition set_post_script (p : list Z) (n : Native) : Native :=
  mkNative (stack_running n) (init_status n) p (queue n) (log_funct_set n).

Definition set_stack_running (b : bool) (n : Native) : Native :=
  mkNative b (init_status n) (post_script n) (queue n) (log_funct_set n).

Definition set_log_funct_set (b : bool) (n : Native) : Native :=
  mkNative (stack_running n) (init_status n) (post_script n) (queue n) b.

(** Module-level and interpreter-level state touched by the constructor. *)
Record Globals : Type := mkGlobals {
  enableDebugMode : option bool;
  builtins_chipStack : option nat;
  logger_handlers : nat;
  logger_level_debug : bool;
  storage_open : bool
}.

(** ** Schedules and observations *)

(** What happens around the calling thread, in order.
    - [RunTask]: the runtime thread takes the next queued task and runs its
      trampoline;
    - [LoopRun]: the caller's asyncio loop runs its next ready callback;
    - [Complete v]: a runtime-side completion callback stores [v] in
      [callbackRes] and sets [completeEvent];
    - [TimerExpires]: the timeout of the wait the caller is blocked in elapses;
    - [Resume]: a runnable caller (one that waits for a lock to be free, not
      for a notification) gets to run. *)
Inductive move : Type :=
  | RunTask
  | LoopRun
  | Complete (v : value)
  | TimerExpires
  | Resume.

(** [LoopThread] stands for the callbacks that the caller's asyncio loop runs
    while the calling coroutine is suspended. *)
Inductive thread : Type := CallerThread | RuntimeThread | LoopThread.

Inductive action : Type :=
  | ExecCallback (h : nat)
  | WriteRes (h : nat) (v : value)
  | WriteExc (h : nat) (e : exn)
  | SetFinish (h : nat)
  | NotifyAll (h : nat)
  | ScheduleDone (h : nat)
  | ResolveFuture (h : nat)
  | IncRef (h : nat)
  | DecRef (h : nat)
  | CvWait (h : nat) (timeout : option Q)
  | EventWait (timeout : Q)
  | AwaitFuture (h : nat) (timeout : option Q)
  | BlockingCB.

Definition obs : Type := thread * action.

(** ** The world *)

Record World : Type := mkWorld {
  instance : option ChipStack.t;   (* the cell [instance[0]] of [_singleton] *)
  heap : gmap nat handle;          (* the callable handles, by object identity *)
  next_id : nat;                   (* next fresh object identity *)
  native : Native;
  loop_ready : list nat;           (* [_done] callbacks posted to the asyncio loop *)
  globals : Globals;
  sched : list move;
  trace : list obs
}.

Definition set_instance (x : option ChipStack.t) (w : World) : World :=
  mkWorld x (heap w) (next_id w) (native w) (loop_ready w) (globals w) (sched w) (trace w).

Definition set_heap (x : gmap nat handle) (w : World) : World :=
  mkWorld (instance w) x (next_id w) (native w) (loop_ready w) (globals w) (sched w) (trace w).

Definition set_next_id (x : nat) (w : World) : World :=
  mkWorld (instance w) (heap w) x (native w) (loop_ready w) (globals w) (sched w) (trace w).

Definition set_native (x : Native) (w : World) : World :=
  mkWorld (instance w) (heap w) (next_id w) x (loop_ready w) (globals w) (sched w) (trace w).

Definition set_loop_ready (x : list nat) (w : World) : World :=
  mkWorld (instance w) (heap w) (next_id w) (native w) x (globals w) (sched w) (trace w).

Definition set_globals (x : Globals) (w : World) : World :=
  mkWorld (instance w) (heap w) (next_id w) (native w) (loop_ready w) x (sched w) (trace w).

Definition set_sched (x : list move) (w : World) : World :=
  mkWorld (instance w) (heap w) (next_id w) (native w) (loop_ready w) (globals w) x (trace w).

Definition log (th : thread) (a : action) (w : World) : World :=
  mkWorld (instance w) (heap w) (next_id w) (native w) (loop_ready w) (globals w) (sched w)
          (trace w ++ [(th, a)]).

Definition put_handle (h : nat) (x : handle) (w : World) : World :=
  set_heap (<[h := x]> (heap w)) w.

(** ** The monad of the calling thread

    A method returns, raises, or is still suspended when the schedule ends
    ([Pending]). *)

Inductive result (A : Type) : Type :=
  | Ret (a : A)
  | Raise (t : thrown)
  | Pending.

Arguments Ret {A} a.
Arguments Raise {A} t.
Arguments Pending {A}.

Definition M (A : Type) : Type := World -> result A * World.

Definition ret {A} (a : A) : M A := fun w => (Ret a, w).

Definition raise {A} (t : thrown) : M A := fun w => (Raise t, w).

Definition bind {A B} (c : M A) (k : A -> M B) : M B :=
  fun w =>
    match c w with
    | (Ret a, w') => k a w'
    | (Raise t, w') => (Raise t, w')
    | (Pending, w') => (Pending, w')
    end.

Notation "x <- c1 ;; c2" := (bind c1 (fun x => c2))
  (at level 100, c1 at next level, right associativity).
Notation "c1 ;; c2" := (bind c1 (fun _ => c2))
  (at level 100, right associativity).

Definition modify (f : World -> World) : M unit := fun w => (Ret tt, f w).

Definition gets {A} (f : World -> A) : M A := fun w => (Ret (f w), w).

(** ** Reference counts *)

Definition incref (x : handle) : handle :=
  match x with
  | Blocking a => Blocking (AsyncCallableHandle.set_refs (S (AsyncCallableHandle.refs a)) a)
  | Asyncio a => Asyncio (AsyncioCallableHandle.set_refs (S (AsyncioCallableHandle.refs a)) a)
  end.

Definition decref (x : handle) : handle :=
  match x with
  | Blocking a => Blocking (AsyncCallableHandle.set_refs (pred (AsyncCallableHandle.refs a)) a)
  | Asyncio a => Asyncio (AsyncioCallableHandle.set_refs (pred (AsyncioCallableHandle.refs a)) a)
  end.

Definition handle_refs (x : handle) : nat :=
  match x with
  | Blocking a => AsyncCallableHandle.refs a
  | Asyncio a => AsyncioCallableHandle.refs a
  end.

(** [pythonapi.Py_IncRef(py_object(o))] and [pythonapi.Py_DecRef(py_object(o))]
    on the thread [th]. *)
Definition Py_IncRef (th : thread) (o : nat) (w : World) : World :=
  match heap w !! o with
  | Some x => log th (IncRef o) (put_handle o (incref x) w)
  | None => w
  end.

Definition Py_DecRef (th : thread) (o : nat) (w : World) : World :=
  match heap w !! o with
  | Some x => log th (DecRef o) (put_handle o (decref x) w)
  | None => w
  end.

(** ** The completion trampolines, run by the thread [th] *)

(** [AsyncCallableHandle.__call__].  An exception that is not an [Exception]
    is not caught: it leaves the [with] block and the method before [_finish]
    is set, and the ctypes callback that called the handle drops it. *)
Definition AsyncCallableHandle__call__ (th : thread) (self : nat) (w : World) : World :=
  match heap w !! self with
  | Some (Blocking a) =>
      (* with self._cv_lock: *)
      let w := log th (ExecCallback self) w in
      match AsyncCallableHandle._callback a with
      | Returns v =>
          let a := AsyncCallableHandle.set_res v a in
          let w := log th (WriteRes self v) w in
          let a := AsyncCallableHandle.set_finish true a in
          let w := log th (SetFinish self) w in
          let a := AsyncCallableHandle.set_cv_waiting false a in
          let w := log th (NotifyAll self) w in
          Py_DecRef th self (put_handle self (Blocking a) w)
      | Raises (Exc ex) =>
          let a := AsyncCallableHandle.set_exc (Some ex) a in
          let w := log th (WriteExc self ex) w in
          let a := AsyncCallableHandle.set_finish true a in
          let w := log th (SetFinish self) w in
          let a := AsyncCallableHandle.set_cv_waiting false a in
          let w := log th (NotifyAll self) w in
          Py_DecRef th self (put_handle self (Blocking a) w)
      | Raises (Base _) => w
      end
  | _ => w
  end.

(** [AsyncioCallableHandle._done], run by the asyncio loop.  Resolving a future
    that is no longer pending raises [InvalidStateError] inside the loop
    callback, which the loop reports and drops: the future is unchanged. *)
Definition _done (self : nat) (w : World) : World :=
  match heap w !! self with
  | Some (Asyncio a) =>
      match AsyncioCallableHandle._future a with
      | FPending =>
          let fut := match AsyncioCallableHandle._exception a with
                     | Some ex => FException ex
                     | None => FResult (AsyncioCallableHandle._result a)
                     end in
          log LoopThread (ResolveFuture self)
              (put_handle self (Asyncio (AsyncioCallableHandle.set_future fut a)) w)
      | _ => w
      end
  | _ => w
  end.

(** [AsyncioCallableHandle.__call__]; [call_soon_threadsafe] appends [_done]
    to the ready queue of the loop.  On a loop that has been closed it raises
    [RuntimeError] instead, which ends [__call__] before [Py_DecRef]. *)
Definition AsyncioCallableHandle__call__ (th : thread) (self : nat) (w : World) : World :=
  match heap w !! self with
  | Some (Asyncio a) =>
      let w := log th (ExecCallback self) w in
      match AsyncioCallableHandle._callback a with
      | Returns v =>
          let a := AsyncioCallableHandle.set_result v a in
          let w := log th (WriteRes self v) w in
          if AsyncioCallableHandle._loop_closed a then put_handle self (Asyncio a) w
          else
            let w := log th (ScheduleDone self) (set_loop_ready (loop_ready w ++ [self]) w) in
            Py_DecRef th self (put_handle self (Asyncio a) w)
      | Raises (Exc ex) =>
          let a := AsyncioCallableHandle.set_exception (Some ex) a in
          let w := log th (WriteExc self ex) w in
          if AsyncioCallableHandle._loop_closed a then put_handle self (Asyncio a) w
          else
            let w := log th (ScheduleDone self) (set_loop_ready (loop_ready w ++ [self]) w) in
            Py_DecRef th self (put_handle self (Asyncio a) w)
      | Raises (Base _) => w
      end
  | _ => w
  end.

(** [HandleChipThreadRun(callback)]: [callback()], dispatched on the class of
    the object. *)
Definition HandleChipThreadRun (th : thread) (callback : nat) (w : World) : World :=
  match heap w !! callback with
  | Some (Blocking _) => AsyncCallableHandle__call__ th callback w
  | Some (Asyncio _) => AsyncioCallableHandle__call__ th callback w
  | None => w
  end.

(** ** The moves of the environment *)

Definition runtime_step (w : World) : World :=
  if stack_running (native w) then
    match queue (native w) with
    | callback :: q =>
        HandleChipThreadRun RuntimeThread callback (set_native (set_queue q (native w)) w)
    | [] => w
    end
  else w.

Definition loop_step (w : World) : World :=
  match loop_ready w with
  | h :: r => _done h (set_loop_ready r w)
  | [] => w
  end.

(** Modelled from the spec: the runtime-side completion callbacks live in
    other modules.  [Complete(resultOrFailure)] "writes the result slot and
    sets the event"; on an event cleared to [None] the call fails inside the
    runtime callback and nothing is set. *)
Definition complete (v : value) (w : World) : World :=
  match instance w with
  | Some s =>
      let s := ChipStack.set_callbackRes v s in
      let s := match ChipStack.completeEvent s with
               | Some _ => ChipStack.set_completeEvent (Some true) s
               | None => s
               end in
      set_instance (Some s) w
  | None => w
  end.

Definition env_step (m : move) (w : World) : World :=
  match m with
  | RunTask => runtime_step w
  | LoopRun => loop_step w
  | Complete v => complete v w
  | TimerExpires => w
  | Resume => w
  end.

(** [loop.close()], as it happens when [asyncio.run] ends: the callbacks
    that the loop has not run yet are dropped, and every
    [AsyncioCallableHandle] built so far holds a loop that is closed. *)
Definition close_loop (w : World) : World :=
  set_loop_ready []
    (set_heap ((fun x => match x with
                         | Asyncio a =>
                             Asyncio (AsyncioCallableHandle.set_loop_closed true a)
                         | Blocking a => Blocking a
                         end) <$> heap w) w).

(** A runnable caller waits for a lock: the environment moves until the
    caller is resumed (or has nothing more to do). *)
Fixpoint preempt (s : list move) (w : World) : World :=
  match s with
  | [] => set_sched [] w
  | Resume :: s' => set_sched s' w
  | m :: s' => preempt s' (env_step m w)
  end.

Definition yield : M unit := fun w => (Ret tt, preempt (sched w) w).

(** ** Blocking primitives of the calling thread *)

Definition get_blocking (self : nat) : M AsyncCallableHandle.t :=
  fun w =>
    match heap w !! self with
    | Some (Blocking a) => (Ret a, w)
    | _ => (Raise (Exc (AttributeError "not an AsyncCallableHandle")), w)
    end.

Definition cv_woken (self : nat) (w : World) : bool :=
  match heap w !! self with
  | Some (Blocking a) => negb (AsyncCallableHandle._cv_waiting a)
  | _ => false
  end.

Definition cv_set_waiting (b : bool) (self : nat) (w : World) : World :=
  match heap w !! self with
  | Some (Blocking a) => put_handle self (Blocking (AsyncCallableHandle.set_cv_waiting b a)) w
  | _ => w
  end.

(** The body of [Condition.wait(timeout)] once the lock is released: the
    caller sleeps until [notify_all] takes it off the waiter list ([True]) or,
    with a timeout, until the timer expires ([False]).  In both cases it
    re-acquires the lock before it returns, and the runtime thread may hold the
    lock at that time; after a timeout the caller then leaves the waiter
    list. *)
Fixpoint cv_block (self : nat) (timeout : option Q) (s : list move) (w : World)
  : result bool * World :=
  match s with
  | [] => (Pending, set_sched [] w)
  | TimerExpires :: s' =>
      match timeout with
      | Some _ => (Ret false, cv_set_waiting false self (preempt s' w))
      | None => cv_block self timeout s' w
      end
  | m :: s' =>
      let w' := env_step m w in
      if cv_woken self w' then (Ret true, preempt s' w')
      else cv_block self timeout s' w'
  end.

(** [self._cv.wait(timeout)], called with the lock held. *)
Definition cv_wait (self : nat) (timeout : option Q) : M bool :=
  fun w =>
    let w := log CallerThread (CvWait self timeout) w in
    let w := cv_set_waiting true self w in
    match timeout with
    | Some t =>
        if Qle_bool t 0 then
          (* a timeout that is not positive does not sleep: [gotit] is [False] *)
          (Ret false, cv_set_waiting false self (preempt (sched w) w))
        else cv_block self timeout (sched w) w
    | None => cv_block self timeout (sched w) w
    end.

(** The body of [Event.wait(timeout)] when the flag is not set. *)
Definition event_is_set (w : World) : bool :=
  match instance w with
  | Some s => match ChipStack.completeEvent s with Some b => b | None => false end
  | None => false
  end.

Fixpoint event_block (s : list move) (w : World) : result bool * World :=
  match s with
  | [] => (Pending, set_sched [] w)
  | TimerExpires :: s' => (Ret false, preempt s' w)
  | m :: s' =>
      let w' := env_step m w in
      if event_is_set w' then (Ret true, preempt s' w')
      else event_block s' w'
  end.

(** The future of an [AsyncioCallableHandle]. *)
Definition get_future (self : nat) (w : World) : future :=
  match heap w !! self with
  | Some (Asyncio a) => AsyncioCallableHandle._future a
  | _ => FPending
  end.

Definition cancel_future (self : nat) (w : World) : World :=
  match heap w !! self with
  | Some (Asyncio a) =>
      match AsyncioCallableHandle._future a with
      | FPending => put_handle self (Asyncio (AsyncioCallableHandle.set_future FCancelled a)) w
      | _ => w
      end
  | _ => w
  end.

(** [await fut], with the timer of [asyncio.wait_for] when there is a
    timeout: the coroutine is suspended until the future is resolved or the
    timer fires, in which case the future is cancelled and [TimeoutError] is
    raised. *)
Fixpoint await_block (fut : nat) (timeout : option Q) (s : list move) (w : World)
  : result value * World :=
  match get_future fut w with
  | FResult v => (Ret v, set_sched s w)
  | FException e => (Raise (Exc e), set_sched s w)
  | FCancelled => (Raise (Base CancelledError), set_sched s w)
  | FPending =>
      match s with
      | [] => (Pending, set_sched [] w)
      | TimerExpires :: s' =>
          match timeout with
          | Some _ => (Raise (Exc (TimeoutError "")), set_sched s' (cancel_future fut w))
          | None => await_block fut timeout s' w
          end
      | m :: s' => await_block fut timeout s' (env_step m w)
      end
  end.

(** [asyncio.wait_for(fut, timeout)]: without a timeout it is [await fut];
    with a timeout that is not positive it does not wait for the future: a
    future that is not done is cancelled, and the coroutine is suspended only
    until the cancellation is processed. *)
Definition wait_for (fut : nat) (timeout : option Q) : M value :=
  fun w =>
    let w := log CallerThread (AwaitFuture fut timeout) w in
    match timeout with
    | Some t =>
        if Qle_bool t 0 then
          match get_future fut w with
          | FResult v => (Ret v, w)
          | FException e => (Raise (Exc e), w)
          | FCancelled => (Raise (Base CancelledError), w)
          | FPending =>
              (* [fut.cancel()], then [await _cancel_and_wait(fut)]: the runtime
                 and the loop move until the coroutine is resumed *)
              let w := cancel_future fut w in
              (Raise (Exc (TimeoutError "")), preempt (sched w) w)
          end
        else await_block fut timeout (sched w) w
    | None => await_block fut timeout (sched w) w
    end.

(** ** AsyncCallableHandle.Wait *)

Definition timeout_message : string :=
  "Timed out waiting for task to finish executing on the Matter thread".

(** The [while self._finish is False] loop; every pass that does not leave
    the loop consumes a move of the schedule, so [fuel] beyond the length of
    the schedule is never used up. *)
Fixpoint Wait_loop (fuel : nat) (self : nat) (timeout : option Q) : M unit :=
  match fuel with
  | 0 => fun w => (Pending, w)
  | S fuel =>
      a <- get_blocking self ;;
      if AsyncCallableHandle._finish a then ret tt
      else
        res <- cv_wait self timeout ;;
        if res then Wait_loop fuel self timeout
        else raise (Exc (TimeoutError timeout_message))
  end.

Definition Wait (self : nat) (timeoutMs : option Z) : M value :=
  let timeout := match timeoutMs with
                 | Some ms => Some (inject_Z ms / 1000)%Q
                 | None => None
                 end in
  (* with self._cv: *)
  yield ;;
  n <- gets (fun w => length (sched w)) ;;
  Wait_loop (S n) self timeout ;;
  a <- get_blocking self ;;
  match AsyncCallableHandle._exc a with
  | Some e => raise (Exc e)
  | None => ret (AsyncCallableHandle._res a)
  end.

(** ** ChipStack *)

Definition none_has_no_attribute (attr : string) : exn :=
  AttributeError ("'NoneType' object has no attribute '" ++ attr ++ "'").

(** [with None:] raises [TypeError] (Python 3.11 and later; earlier versions
    raise [AttributeError: __enter__]). *)
Definition none_is_no_context_manager : exn :=
  TypeError "'NoneType' object does not support the context manager protocol".

(** [self]: the methods are those of the instance held by [_singleton]; the
    class cannot be instantiated in another way. *)
Definition self_ : M ChipStack.t :=
  fun w =>
    match instance w with
    | Some s => (Ret s, w)
    | None => (Raise (Exc (AttributeError "no ChipStack instance")), w)
    end.

Definition set_self (f : ChipStack.t -> ChipStack.t) : M unit :=
  fun w =>
    match instance w with
    | Some s => (Ret tt, set_instance (Some (f s)) w)
    | None => (Raise (Exc (AttributeError "no ChipStack instance")), w)
    end.

(** [with self.networkLock: body].  The lock is released when the body
    returns or raises; a caller suspended inside the body still holds it.
    One calling thread is followed: at a lock that is held, a call is
    [Pending] at once, which describes the state in which it waits and not
    what happens when the holder goes on. *)
Definition release_networkLock (w : World) : World :=
  match instance w with
  | Some s =>
      match ChipStack.networkLock s with
      | Some _ => set_instance (Some (ChipStack.set_networkLock (Some false) s)) w
      | None => w
      end
  | None => w
  end.

Definition with_networkLock {A} (body : M A) : M A :=
  fun w =>
    match self_ w with
    | (Ret s, _) =>
        match ChipStack.networkLock s with
        | None => (Raise (Exc none_is_no_context_manager), w)
        | Some true => (Pending, w)
        | Some false =>
            match body (set_instance (Some (ChipStack.set_networkLock (Some true) s)) w) with
            | (Pending, w') => (Pending, w')
            | (r, w') => (r, release_networkLock w')
            end
        end
    | (Raise t, w') => (Raise t, w')
    | (Pending, w') => (Pending, w')
    end.

(** The foreign [pychip_DeviceController_PostTaskOnChipThread], reached
    through [self._ChipStackLib]. *)
Definition pychip_DeviceController_PostTaskOnChipThread (callObj : nat) : M Z :=
  s <- self_ ;;
  match ChipStack._ChipStackLib s with
  | None => raise (Exc (none_has_no_attribute "pychip_DeviceController_PostTaskOnChipThread"))
  | Some LibraryHandle =>
      fun w =>
        let n := native w in
        if stack_running n then
          let res := hd 0%Z (post_script n) in
          let n := set_post_script (tl (post_script n)) n in
          if is_success res then (Ret res, set_native (set_queue (queue n ++ [callObj]) n) w)
          else (Ret res, set_native n w)
        else (Ret 3%Z, w)
  end.

Definition new_object (x : handle) : M nat :=
  fun w => (Ret (next_id w), set_next_id (S (next_id w)) (put_handle (next_id w) x w)).

Definition PostTaskOnChipThread (callFunct : callable) : M nat :=
  callObj <- new_object (Blocking (AsyncCallableHandle.__init__ callFunct)) ;;
  modify (Py_IncRef CallerThread callObj) ;;
  res <- pychip_DeviceController_PostTaskOnChipThread callObj ;;
  if negb (is_success res) then
    modify (Py_DecRef CallerThread callObj) ;;
    raise (Exc (to_exception res))
  else ret callObj.

Definition Call (callFunct : callable) (timeoutMs : option Z) : M value :=
  res <- with_networkLock (callObj <- PostTaskOnChipThread callFunct ;;
                           Wait callObj timeoutMs) ;;
  ret res.

(** [timeoutMs / 1000 if timeoutMs else None]: [None] and [0] are false. *)
Definition CallAsync_timeout (timeoutMs : option Z) : option Q :=
  match timeoutMs with
  | None => None
  | Some ms => if (ms =? 0)%Z then None else Some (inject_Z ms / 1000)%Q
  end.

Definition CallAsync (callFunct : callable) (timeoutMs : option Z) : M value :=
  callObj <- new_object (Asyncio (AsyncioCallableHandle.__init__ callFunct)) ;;
  modify (Py_IncRef CallerThread callObj) ;;
  res <- pychip_DeviceController_PostTaskOnChipThread callObj ;;
  if negb (is_success res) then
    modify (Py_DecRef CallerThread callObj) ;;
    raise (Exc (to_exception res))
  else wait_for callObj (CallAsync_timeout timeoutMs).

(** [self.completeEvent.clear()], [.set()], [.isSet()] and [.wait(timeout)]. *)
Definition completeEvent_put (b : bool) (attr : string) : M unit :=
  s <- self_ ;;
  match ChipStack.completeEvent s with
  | Some _ => set_self (ChipStack.set_completeEvent (Some b))
  | None => raise (Exc (none_has_no_attribute attr))
  end.

Definition completeEvent_clear : M unit := completeEvent_put false "clear".

Definition completeEvent_set : M unit := completeEvent_put true "set".

Definition completeEvent_isSet : M bool :=
  s <- self_ ;;
  match ChipStack.completeEvent s with
  | Some b => ret b
  | None => raise (Exc (none_has_no_attribute "isSet"))
  end.

Definition completeEvent_wait (timeout : Q) : M bool :=
  s <- self_ ;;
  match ChipStack.completeEvent s with
  | Some true => modify (log CallerThread (EventWait timeout)) ;; ret true
  | Some false =>
      modify (log CallerThread (EventWait timeout)) ;;
      fun w => event_block (sched w) w
  | None => raise (Exc (none_has_no_attribute "wait"))
  end.

(** [if self.blockingCB: self.blockingCB()] *)
Definition call_blockingCB : M unit :=
  s <- self_ ;;
  match ChipStack.blockingCB s with
  | Some cb =>
      modify (log CallerThread BlockingCB) ;;
      match cb with
      | Returns _ => ret tt
      | Raises t => raise t
      end
  | None => ret tt
  end.

Definition pollInterval : Q := (5 # 100)%Q.

(** The [while not self.completeEvent.isSet()] loop; a pass that does not
    leave the loop consumes a move of the schedule. *)
Fixpoint poll_loop (fuel : nat) : M unit :=
  match fuel with
  | 0 => fun w => (Pending, w)
  | S fuel =>
      b <- completeEvent_isSet ;;
      if b then ret tt
      else
        call_blockingCB ;;
        completeEvent_wait pollInterval ;;
        poll_loop fuel
  end.

(** The part of [CallAsyncWithCompleteCallback] after the submission: the
    poll loop and the inspection of the stored value. *)
Definition AwaitCompletion : M value :=
  n <- gets (fun w => length (sched w)) ;;
  poll_loop (S n) ;;
  s <- self_ ;;
  if isinstance_ChipStackException (ChipStack.callbackRes s) then
    match ChipStack.callbackRes s with
    | VExc e => raise (Exc e)
    | _ => raise (Exc (TypeError "exceptions must derive from BaseException"))
    end
  else ret (ChipStack.callbackRes s).

(** [res.is_success] and [res.to_exception()] for the value a task returned. *)
Definition value_is_success (res : value) : M bool :=
  match res with
  | PyChipError code => ret (is_success code)
  | _ => raise (Exc (AttributeError "object has no attribute 'is_success'"))
  end.

Definition value_to_exception (res : value) : exn :=
  match res with
  | PyChipError code => to_exception code
  | _ => AttributeError "object has no attribute 'to_exception'"
  end.

Definition CallAsyncWithCompleteCallback (callFunct : callable) : M value :=
  (* throw error if op in progress *)
  set_self (ChipStack.set_callbackRes VNone) ;;
  completeEvent_clear ;;
  res <- with_networkLock (callObj <- PostTaskOnChipThread callFunct ;;
                           Wait callObj None) ;;
  ok <- value_is_success res ;;
  if negb ok then
    completeEvent_set ;;
    raise (Exc (value_to_exception res))
  else AwaitCompletion.

(** [ChipStack.Shutdown] *)
Definition Shutdown : M unit :=
  s <- self_ ;;
  (* self._ChipStackLib.pychip_DeviceController_StackShutdown() *)
  match ChipStack._ChipStackLib s with
  | None => raise (Exc (none_has_no_attribute "pychip_DeviceController_StackShutdown"))
  | Some LibraryHandle => modify (fun w => set_native (set_stack_running false (native w)) w)
  end ;;
  (* self._persistentStorage.Shutdown(); self._persistentStorage = None *)
  match ChipStack._persistentStorage s with
  | None => raise (Exc (none_has_no_attribute "Shutdown"))
  | Some _ =>
      modify (fun w =>
        let g := globals w in
        set_globals (mkGlobals (enableDebugMode g) (builtins_chipStack g) (logger_handlers g)
                               (logger_level_debug g) false) w)
  end ;;
  (* self._ChipStackLib.pychip_CommonStackShutdown(), then the fields *)
  set_self (fun s =>
    ChipStack.mk (ChipStack.ident s) None None (ChipStack.commissioningCompleteEvent s)
      None None VNone VNone (ChipStack.commissioningEventRes s)
      (ChipStack._activeLogFunct s) (ChipStack.addModulePrefixToLogMessage s)
      (ChipStack._enableServerInteractions s) (ChipStack.blockingCB s) None) ;;
  (* delattr(builtins, "chipStack") *)
  g <- gets globals ;;
  match builtins_chipStack g with
  | Some _ =>
      modify (set_globals (mkGlobals (enableDebugMode g) None (logger_handlers g)
                                     (logger_level_debug g) (storage_open g)))
  | None => raise (Exc (AttributeError "chipStack"))
  end.

(** The arguments of the constructor. *)
Record Args : Type := mkArgs {
  persistentStoragePath : string;
  installDefaultLogHandler : bool;
  bluetoothAdapter : option Z;
  enableServerInteractions : bool
}.

Definition ChipStackDLLBaseName : string := "_ChipDeviceCtrl.so".

(** [ChipStack.__init__]: builds the object, loads the library, installs the
    log function and (when asked for and no handler exists) the default log
    handler, opens the storage and initialises the stack; [raise_on_error]
    raises when [StackInit] did not succeed. *)
Definition ChipStack__init__ (args : Args) : M ChipStack.t :=
  fun w =>
    let g := globals w in
    let id := next_id w in
    let w := set_next_id (S id) w in
    (* setLogFunct(self.defaultLogFunct) *)
    let w := set_native (set_log_funct_set true (native w)) w in
    let hasHandlers := negb (logger_handlers g =? 0) in
    let install := installDefaultLogHandler args && negb hasHandlers in
    let g := mkGlobals (Some false) (builtins_chipStack g)
                       (if install then S (logger_handlers g) else logger_handlers g)
                       (if install then true else logger_level_debug g)
                       true in
    let self :=
      ChipStack.mk id (Some false) (Some false) (Some false) (Some LibraryHandle)
        (Some ChipStackDLLBaseName) VNone VNone VNone true true
        (enableServerInteractions args) None (Some (persistentStoragePath args)) in
    (* res = pychip_DeviceController_StackInit(...); res.raise_on_error() *)
    let res := init_status (native w) in
    if is_success res then
      let w := set_native (set_stack_running true (native w)) w in
      let g := mkGlobals (enableDebugMode g) (Some id) (logger_handlers g)
                         (logger_level_debug g) (storage_open g) in
      (Ret self, set_globals g w)
    else (Raise (Exc (to_exception res)), set_globals g w).

(** ** The [_singleton] decorator *)

Section singleton.
Context {A : Type}.
Variable cls : A -> M ChipStack.t.

(** The [wrapper] closure; the reference it returns is the identity of
    the object. *)
Definition wrapper (args : A) : M nat :=
  fun w =>
    match instance w with
    | None =>
        match cls args w with
        | (Ret o, w') => (Ret (ChipStack.ident o), set_instance (Some o) w')
        | (Raise t, w') => (Raise t, w')
        | (Pending, w') => (Pending, w')
        end
    | Some o => (Ret (ChipStack.ident o), w)
    end.
End singleton.

Definition _singleton {A} (cls : A -> M ChipStack.t) : A -> M nat := wrapper cls.

(** [@_singleton class ChipStack]: the name [ChipStack] of the module. *)
Definition ChipStack_ : Args -> M nat := _singleton ChipStack__init__.

(** ** Initial world and running a method against a schedule *)

Definition initial_native (init : Z) (posts : list Z) : Native :=
  mkNative false init posts [] false.

Definition initial_world (init : Z) (posts : list Z) : World :=
  mkWorld None ∅ 0 (initial_native init posts) []
          (mkGlobals None None 0 false false) [] [].

Definition run {A} (c : M A) (s : list move) (w : World) : result A * World :=
  c (set_sched s w).

(** ** Observations about one handle, and the effect of a trampoline *)

#[global] Instance thread_eq_dec : EqDecision thread.
Proof. solve_decision. Defined.

(** The handle an action is about, if any. *)
Definition about (a : action) : option nat :=
  match a with
  | ExecCallback h | WriteRes h _ | WriteExc h _ | SetFinish h | NotifyAll h
  | ScheduleDone h | ResolveFuture h | IncRef h | DecRef h | CvWait h _
  | AwaitFuture h _ => Some h
  | EventWait _ | BlockingCB => None
  end.

(** The observation is one of the thread [th] about the handle [h]. *)
Definition concerns (th : thread) (h : nat) (o : obs) : bool :=
  bool_decide (fst o = th) && bool_decide (about (snd o) = Some h).

(** What the thread [th] did with the handle [h], in order. *)
Definition hevs (th : thread) (h : nat) (tr : list obs) : list action :=
  map snd (List.filter (concerns th h) tr).

(** The fields that [AsyncCallableHandle.__call__] leaves in the handle [a],
    and what it logs. *)
Definition after_call (a : AsyncCallableHandle.t) : AsyncCallableHandle.t :=
  match AsyncCallableHandle._callback a with
  | Returns v =>
      AsyncCallableHandle.mk (AsyncCallableHandle._callback a) v (AsyncCallableHandle._exc a)
        true false (pred (AsyncCallableHandle.refs a))
  | Raises (Exc e) =>
      AsyncCallableHandle.mk (AsyncCallableHandle._callback a) (AsyncCallableHandle._res a)
        (Some e) true false (pred (AsyncCallableHandle.refs a))
  | Raises (Base _) => a
  end.

Definition tramp (h : nat) (f : callable) : list action :=
  match f with
  | Returns v => [ExecCallback h; WriteRes h v; SetFinish h; NotifyAll h; DecRef h]
  | Raises (Exc e) => [ExecCallback h; WriteExc h e; SetFinish h; NotifyAll h; DecRef h]
  | Raises (Base _) => [ExecCallback h]
  end.

(** The same for [AsyncioCallableHandle.__call__], on a loop that is open. *)
Definition after_call_asyncio (a : AsyncioCallableHandle.t) : AsyncioCallableHandle.t :=
  match AsyncioCallableHandle._callback a with
  | Returns v =>
      AsyncioCallableHandle.mk (AsyncioCallableHandle._callback a)
        (AsyncioCallableHandle._future a) v (AsyncioCallableHandle._exception a)
        (pred (AsyncioCallableHandle.refs a)) (AsyncioCallableHandle._loop_closed a)
  | Raises (Exc e) =>
      AsyncioCallableHandle.mk (AsyncioCallableHandle._callback a)
        (AsyncioCallableHandle._future a) (AsyncioCallableHandle._result a) (Some e)
        (pred (AsyncioCallableHandle.refs a)) (AsyncioCallableHandle._loop_closed a)
  | Raises (Base _) => a
  end.

Definition tramp_asyncio (h : nat) (f : callable) : list action :=
  match f with
  | Returns v => [ExecCallback h; WriteRes h v; ScheduleDone h; DecRef h]
  | Raises (Exc e) => [ExecCallback h; WriteExc h e; ScheduleDone h; DecRef h]
  | Raises (Base _) => [ExecCallback h]
  end.

(** The same on a loop that has been closed: the slot is written, but
    [_done] is not handed to the loop and the reference is kept. *)
Definition after_call_closed (a : AsyncioCallableHandle.t) : AsyncioCallableHandle.t :=
  match AsyncioCallableHandle._callback a with
  | Returns v => AsyncioCallableHandle.set_result v a
  | Raises (Exc e) => AsyncioCallableHandle.set_exception (Some e) a
  | Raises (Base _) => a
  end.

Definition tramp_closed (h : nat) (f : callable) : list action :=
  match f with
  | Returns v => [ExecCallback h; WriteRes h v]
  | Raises (Exc e) => [ExecCallback h; WriteExc h e]
  | Raises (Base _) => [ExecCallback h]
  end.

(** The callable raises a [BaseException] that [except Exception] lets through. *)
Definition is_base (f : callable) : bool :=
  match f with Raises (Base _) => true | _ => false end.

(** The number of [RunTask] moves of a schedule. *)
Fixpoint runs (s : list move) : nat :=
  match s with
  | [] => 0
  | RunTask :: s' => S (runs s')
  | _ :: s' => runs s'
  end.

(** [h] is queued once, behind [i] other tasks. *)
Definition queued_at (h i : nat) (q : list nat) : Prop :=
  exists q1 q2, q = q1 ++ h :: q2 /\ length q1 = i /\ (h ∉ q1) /\ (h ∉ q2).

(** The future that [_done] stores. *)
Definition resolution (a : AsyncioCallableHandle.t) : future :=
  match AsyncioCallableHandle._exception a with
  | Some ex => FException ex
  | None => FResult (AsyncioCallableHandle._result a)
  end.

(** ** The life of a submitted [AsyncCallableHandle]

    [submitted f wt n] is the handle built by [__init__] for [f], with the
    waiter flag [wt] and [n] extra references.  A submitted handle [h] is
    either still queued, behind [i] other tasks ([BQ]), or its trampoline has
    run ([BR]).  [T] and [L] are what the runtime thread and the asyncio loop
    had logged about [h] when it was submitted. *)

Definition submitted (f : callable) (wt : bool) (n : nat) : AsyncCallableHandle.t :=
  AsyncCallableHandle.mk f VNone None false wt n.

Definition BQ (h : nat) (f : callable) (n : nat) (T L : list action)
    (i : nat) (wt : bool) (w : World) : Prop :=
  heap w !! h = Some (Blocking (submitted f wt n)) /\
  stack_running (native w) = true /\
  queued_at h i (queue (native w)) /\
  hevs RuntimeThread h (trace w) = T /\
  hevs LoopThread h (trace w) = L.

Definition BR (h : nat) (f : callable) (n : nat) (T L : list action)
    (wt : bool) (w : World) : Prop :=
  heap w !! h = Some (Blocking (after_call (submitted f wt n))) /\
  (h ∉ queue (native w)) /\
  hevs RuntimeThread h (trace w) = T ++ tramp h f /\
  hevs LoopThread h (trace w) = L.

(** [timeout] as [Wait] computes it. *)
Definition Wait_timeout (timeoutMs : option Z) : option Q :=
  match timeoutMs with
  | Some ms => Some (inject_Z ms / 1000)%Q
  | None => None
  end.

(** What a caller that waited long enough gets from the callable [f]. *)
Definition answer (f : callable) : result value :=
  match f with
  | Returns v => Ret v
  | Raises (Exc e) => Raise (Exc e)
  | Raises (Base _) => Pending
  end.

(** A timeout that does not let [Condition.wait] sleep at all. *)
Definition expired_at_once (timeout : option Q) : bool :=
  match timeout with
  | Some t => Qle_bool t 0
  | None => false
  end.

(** ** Worlds in which a task can be submitted

    An instance exists, its lock is free and its library handle is set, the
    runtime thread runs, and the queued objects are older than the next one. *)
Definition ready (w : World) : Prop :=
  exists s, instance w = Some s /\
    ChipStack.networkLock s = Some false /\
    ChipStack._ChipStackLib s = Some LibraryHandle /\
    stack_running (native w) = true /\
    Forall (fun x => x < next_id w) (queue (native w)) /\
    Forall (fun x => x < next_id w) (loop_ready w).

(** The status that the next [PostTask] returns. *)
Definition next_post_status (w : World) : Z := hd 0%Z (post_script (native w)).

(** Equal up to the fields of the [ChipStack] instance. *)
Definition same_but_instance (w w' : World) : Prop :=
  heap w' = heap w /\ next_id w' = next_id w /\ native w' = native w /\
  loop_ready w' = loop_ready w /\ globals w' = globals w /\ sched w' = sched w /\
  trace w' = trace w.

(** ** A started stack, for the examples *)

Definition default_args : Args := mkArgs "/tmp/chip-storage" true None true.

(** The world after [ChipStack(persistentStoragePath)] on a fresh process
    whose runtime accepts every submission. *)
Definition started : World := snd (ChipStack_ default_args (initial_world 0 [])).

(** The world after [PostTaskOnChipThread(lambda: 4)] on the started stack:
    the handle [1] is queued and nobody waits for it yet. *)
Definition posted : World := snd (PostTaskOnChipThread (Returns (VInt 4)) started).

(** The completion flag [_finish] of the handle [h]. *)
Definition finished (h : nat) (w : World) : bool :=
  match heap w !! h with
  | Some (Blocking a) => AsyncCallableHandle._finish a
  | _ => false
  end.

(** ** The two slots of a handle *)

Definition submitted_asyncio (f : callable) (n : nat) : AsyncioCallableHandle.t :=
  AsyncioCallableHandle.mk f FPending VNone None n false.

(** The handle is as [__init__] built it (whatever its reference count). *)
Definition fresh_handle (f : callable) (x : handle) : Prop :=
  (exists wt n, x = Blocking (submitted f wt n)) \/
  (exists n, x = Asyncio (submitted_asyncio f n)).

Definition result_slot (x : handle) : value :=
  match x with
  | Blocking a => AsyncCallableHandle._res a
  | Asyncio a => AsyncioCallableHandle._result a
  end.

Definition failure_slot (x : handle) : option exn :=
  match x with
  | Blocking a => AsyncCallableHandle._exc a
  | Asyncio a => AsyncioCallableHandle._exception a
  end.

(** Completion is signalled by [_finish] for an [AsyncCallableHandle] and by
    [_done] being handed to the loop for an [AsyncioCallableHandle]. *)
Definition completion_signalled (h : nat) (w : World) : bool :=
  match heap w !! h with
  | Some (Blocking a) => AsyncCallableHandle._finish a
  | Some (Asyncio _) => bool_decide (h ∈ loop_ready w)
  | None => false
  end.

Definition is_slot_write (a : action) : bool :=
  match a with
  | WriteRes _ _ | WriteExc _ _ => true
  | _ => false
  end.

(** The assignments to [_res]/[_result] and [_exc]/[_exception] among the
    observations [d]. *)
Definition slot_writes (d : list obs) : list action :=
  List.filter is_slot_write (map snd d).

(** ** After [Shutdown] *)

(** The fields that [Shutdown] clears are [None] and the runtime thread is
    stopped. *)
Definition is_shut_down (w : World) : Prop :=
  exists s, instance w = Some s /\
    ChipStack.networkLock s = None /\
    ChipStack.completeEvent s = None /\
    ChipStack._ChipStackLib s = None /\
    ChipStack.callbackRes s = VNone /\
    stack_running (native w) = false.

(** The errors with which the code refuses a submission are built by
    [res.to_exception()]: a "SubmissionFailed" or "NotInitialized" failure is a
    [ChipStackError] carrying the status of the runtime. *)
Definition is_submission_error {A} (r : result A) : Prop :=
  exists code, r = Raise (Exc (ChipStackError code)).

(** All executions of callbacks, by any thread. *)
Definition executions (tr : list obs) : list obs :=
  List.filter (fun o => match snd o with ExecCallback _ => true | _ => false end) tr.

(** The started stack after [Shutdown()]. *)
Definition shut_down : World := snd (Shutdown started).

(** ** The poll loop *)

(** Everything the calling thread did, in order. *)
Definition caller_log (tr : list obs) : list action :=
  map snd (List.filter (fun o => bool_decide (fst o = CallerThread)) tr).

(** One pass of the poll loop, with the blocking callback [cbo]. *)
Definition poll_iteration (cbo : option callable) : list action :=
  match cbo with
  | Some _ => [BlockingCB; EventWait pollInterval]
  | None => [EventWait pollInterval]
  end.

(** What the caller does with the stored value. *)
Definition stored_outcome (v : value) : result value :=
  match v with
  | VExc e => if isinstance_ChipStackException v then Raise (Exc e) else Ret v
  | _ => Ret v
  end.

(** [self.callbackRes]. *)
Definition stored_value (w : World) : value :=
  match instance w with
  | Some s => ChipStack.callbackRes s
  | None => VNone
  end.

(** The instance has its event, and its blocking callback (if one is
    registered) returns. *)
Definition poll_ready (cbo : option callable) (w : World) : Prop :=
  exists s, instance w = Some s /\
    ChipStack.blockingCB s = cbo /\
    ChipStack.completeEvent s ≠ None /\
    (cbo = None \/ exists x, cbo = Some (Returns x)).

(** [n] poll intervals that elapse, then the completion with [v]. *)
Definition elapse_then_complete (n : nat) (v : value) : list move :=
  concat (replicate n [TimerExpires; Resume]) ++ [Complete v].

(** The log entry of [if self.blockingCB: self.blockingCB()]. *)
Definition log_blockingCB (cbo : option callable) (w : World) : World :=
  match cbo with
  | Some _ => log CallerThread BlockingCB w
  | None => w
  end.

(** [chipStack.blockingCB = cb], as the modules that need service while the
    caller polls do. *)
Definition with_blockingCB (cb : callable) (w : World) : World :=
  match instance w with
  | Some s => set_instance (Some (ChipStack.set_blockingCB (Some cb) s)) w
  | None => w
  end.

(** ** The life of a submitted [AsyncioCallableHandle]

    The handle is queued behind [i] tasks, then its trampoline has run and
    its [_done] is behind [j] callbacks of the loop, then [_done] has run.  The
    future is pending until [_done] resolves it, unless the caller's
    [wait_for] cancelled it. *)
Inductive stage : Type :=
  | Queued (i : nat)
  | Ran (j : nat)
  | Resolved.

Definition ran_handle (f : callable) : AsyncioCallableHandle.t :=
  after_call_asyncio (submitted_asyncio f 1).

Definition stage_handle (f : callable) (st : stage) (cancelled : bool)
  : AsyncioCallableHandle.t :=
  AsyncioCallableHandle.set_future
    (if cancelled then FCancelled
     else match st with Resolved => resolution (ran_handle f) | _ => FPending end)
    (match st with Queued _ => submitted_asyncio f 1 | _ => ran_handle f end).

Definition AP (h : nat) (f : callable) (T L : list action)
    (st : stage) (cancelled : bool) (w : World) : Prop :=
  heap w !! h = Some (Asyncio (stage_handle f st cancelled)) /\
  hevs RuntimeThread h (trace w) =
    T ++ match st with Queued _ => [] | _ => tramp_asyncio h f end /\
  hevs LoopThread h (trace w) =
    L ++ match st with
         | Resolved => if cancelled then [] else [ResolveFuture h]
         | _ => []
         end /\
  match st with
  | Queued i =>
      stack_running (native w) = true /\ queued_at h i (queue (native w)) /\
      (h ∉ loop_ready w)
  | Ran j =>
      (h ∉ queue (native w)) /\
      if is_base f then h ∉ loop_ready w else queued_at h j (loop_ready w)
  | Resolved =>
      is_base f = false /\ (h ∉ queue (native w)) /\ (h ∉ loop_ready w)
  end.

Definition next_stage (f : callable) (m : move) (st : stage) (w : World) : stage :=
  match m with
  | RunTask =>
      match st with
      | Queued 0 => Ran (length (loop_ready w))
      | Queued (S i) => Queued i
      | _ => st
      end
  | LoopRun =>
      match st with
      | Ran 0 => if is_base f then Ran 0 else Resolved
      | Ran (S j) => Ran j
      | _ => st
      end
  | _ => st
  end.

(** Worlds in which a task can be submitted (the lock aside). *)
Definition submittable (w : World) : Prop :=
  exists s, instance w = Some s /\
    ChipStack._ChipStackLib s = Some LibraryHandle /\
    stack_running (native w) = true /\
    Forall (fun x => x < next_id w) (queue (native w)) /\
    Forall (fun x => x < next_id w) (loop_ready w).

(** The extra references held on the object [h]. *)
Definition refs_of (h : nat) (w : World) : nat :=
  match heap w !! h with
  | Some x => handle_refs x
  | None => 0
  end.

(** [n1] timer expiries, the trampoline, [n2] timer expiries, [_done]. *)
Definition late_completion (n1 n2 : nat) : list move :=
  replicate n1 TimerExpires ++ RunTask :: replicate n2 TimerExpires ++ [LoopRun].

(** A started stack whose runtime refuses the next submission with the
    status [5]. *)
Definition refusing : World := snd (ChipStack_ default_args (initial_world 0 [5%Z])).

(** ** A handle whose loop was closed before its trampoline ran

    The handle [h] is still queued, behind [i] tasks ([CQ]), or its
    trampoline has run on the closed loop ([CR]). *)

Definition closed_handle (f : callable) (cancelled : bool) : AsyncioCallableHandle.t :=
  AsyncioCallableHandle.set_loop_closed true (stage_handle f (Queued 0) cancelled).

Definition CQ (h : nat) (f : callable) (T L : list action) (i : nat) (cancelled : bool)
    (w : World) : Prop :=
  heap w !! h = Some (Asyncio (closed_handle f cancelled)) /\
  stack_running (native w) = true /\
  queued_at h i (queue (native w)) /\
  (h ∉ loop_ready w) /\
  hevs RuntimeThread h (trace w) = T /\
  hevs LoopThread h (trace w) = L.

Definition CR (h : nat) (f : callable) (T L : list action) (cancelled : bool)
    (w : World) : Prop :=
  heap w !! h = Some (Asyncio (after_call_closed (closed_handle f cancelled))) /\
  (h ∉ queue (native w)) /\
  (h ∉ loop_ready w) /\
  hevs RuntimeThread h (trace w) = T ++ tramp_closed h f /\
  hevs LoopThread h (trace w) = L.

(** * More of the module *)

(** ** What the environment leaves alone *)

(** The lock and the library handle of the instance. *)
Definition lock_state (w : World) : option (option bool) :=
  option_map ChipStack.networkLock (instance w).

Definition lib_state (w : World) : option (option lib_handle) :=
  option_map ChipStack._ChipStackLib (instance w).

(** The objects known to the runtime and to the loop are older than the next
    object. *)
Definition wf (w : World) : Prop :=
  Forall (fun x => x < next_id w) (queue (native w)) /\
  Forall (fun x => x < next_id w) (loop_ready w).

Definition keeps (w w' : World) : Prop :=
  lock_state w' = lock_state w /\ lib_state w' = lib_state w /\
  next_id w' = next_id w /\
  stack_running (native w') = stack_running (native w) /\
  (wf w -> wf w').

(** ** Stages of an asyncio handle *)

(** The trampoline of the handle has not run yet. *)
Definition is_queued (st : stage) : bool :=
  match st with Queued _ => true | _ => false end.

(** ** The library handle, the storage and the log function *)

Definition set_library (lib : option lib_handle) (path : option string) (s : ChipStack.t)
  : ChipStack.t :=
  ChipStack.mk (ChipStack.ident s) (ChipStack.networkLock s) (ChipStack.completeEvent s)
    (ChipStack.commissioningCompleteEvent s) lib path (ChipStack.devMgr s)
    (ChipStack.callbackRes s) (ChipStack.commissioningEventRes s)
    (ChipStack._activeLogFunct s) (ChipStack.addModulePrefixToLogMessage s)
    (ChipStack._enableServerInteractions s) (ChipStack.blockingCB s)
    (ChipStack._persistentStorage s).

Definition set_activeLogFunct (x : bool) (s : ChipStack.t) : ChipStack.t :=
  ChipStack.mk (ChipStack.ident s) (ChipStack.networkLock s) (ChipStack.completeEvent s)
    (ChipStack.commissioningCompleteEvent s) (ChipStack._ChipStackLib s)
    (ChipStack._chipDLLPath s) (ChipStack.devMgr s)
    (ChipStack.callbackRes s) (ChipStack.commissioningEventRes s)
    x (ChipStack.addModulePrefixToLogMessage s)
    (ChipStack._enableServerInteractions s) (ChipStack.blockingCB s)
    (ChipStack._persistentStorage s).

(** [ChipStack._loadLib]: the library is loaded only when the field is
    [None].  The module [chip.native] is not among the sources; as in
    [ChipStack__init__], the handle it gives is [LibraryHandle] and the path it
    finds is [ChipStackDLLBaseName]. *)
Definition _loadLib : M unit :=
  s <- self_ ;;
  match ChipStack._ChipStackLib s with
  | None => set_self (set_library (Some LibraryHandle) (Some ChipStackDLLBaseName))
  | Some _ => ret tt
  end.

(** [ChipStack.LocateChipDLL] *)
Definition LocateChipDLL : M (option string) :=
  _loadLib ;;
  s <- self_ ;;
  ret (ChipStack._chipDLLPath s).

(** [ChipStack.GetStorageManager] *)
Definition GetStorageManager : M (option string) :=
  s <- self_ ;;
  ret (ChipStack._persistentStorage s).

(** The property [ChipStack.enableServerInteractions]. *)
Definition ChipStack_enableServerInteractions : M bool :=
  s <- self_ ;;
  ret (ChipStack._enableServerInteractions s).

(** [ChipStack.setLogFunct(logFunct)]; [given] is false for [None], which is
    wrapped as the null function pointer: the object kept in
    [_activeLogFunct] is not [None] either way, and the library logs to the
    function only if one was given. *)
Definition setLogFunct (given : bool) : M unit :=
  with_networkLock (
    set_self (set_activeLogFunct true) ;;
    s <- self_ ;;
    match ChipStack._ChipStackLib s with
    | None => raise (Exc (none_has_no_attribute "pychip_Stack_SetLogFunct"))
    | Some LibraryHandle =>
        modify (fun w => set_native (set_log_funct_set given (native w)) w)
    end).

(** A stack as the constructor leaves it, up to the state of its lock and
    event: the fields that [Shutdown] uses are set. *)
Definition live (w : World) : Prop :=
  exists s p, instance w = Some s /\
    ChipStack._ChipStackLib s = Some LibraryHandle /\
    ChipStack._persistentStorage s = Some p /\
    builtins_chipStack (globals w) = Some (ChipStack.ident s).

(** Constructions one after the other, whatever each of them gives. *)
Fixpoint constructions (l : list Args) (w : World) : World :=
  match l with
  | [] => w
  | args :: l' => constructions l' (snd (ChipStack_ args w))
  end.

(** The globals when the constructor reaches [StackInit]: the debug flag is
    set, the default log handler is installed if it was asked for and no
    handler existed, and the storage is open. *)
Definition globals_before_StackInit (args : Args) (g : Globals) : Globals :=
  let install := installDefaultLogHandler args && (logger_handlers g =? 0) in
  mkGlobals (Some false) (builtins_chipStack g)
            (if install then S (logger_handlers g) else logger_handlers g)
            (if install then true else logger_level_debug g)
            true.

(** The object that the constructor builds. *)
Definition constructed (args : Args) (id : nat) : ChipStack.t :=
  ChipStack.mk id (Some false) (Some false) (Some false) (Some LibraryHandle)
    (Some ChipStackDLLBaseName) VNone VNone VNone true true
    (enableServerInteractions args) None (Some (persistentStoragePath args)).

(** ** Logging

    The levels of Python's [logging], the part of [Logger.log] that decides
    whether a record is made, and the log function that the constructor
    installs. *)

Module logging.
Definition ERROR : Z := 40.

Definition WARNING : Z := 30.

Definition INFO : Z := 20.

Definition DEBUG : Z := 10.

Definition NOTSET : Z := 0.

(** [logging.getLevelName(level)] for a number. *)
Definition getLevelName (level : Z) : string :=
  if (level =? 50)%Z then "CRITICAL"
  else if (level =? ERROR)%Z then "ERROR"
  else if (level =? WARNING)%Z then "WARNING"
  else if (level =? INFO)%Z then "INFO"
  else if (level =? DEBUG)%Z then "DEBUG"
  else if (level =? NOTSET)%Z then "NOTSET"
  else ("Level " ++ NilZero.string_of_int (Z.to_int level))%string.
End logging.

(** The attributes of a [LogRecord] that the module sets or formats: the
    level, the message, and the three entries of [extra]. *)
Record LogRecord : Type := mkLogRecord {
  levelno : Z;
  msg : string;
  chip_module : string;
  timestamp : Z;
  timestamp_usec : option Z
}.

(** [Logger.log(level, msg, extra=...)]: a record is made and handled only
    if the logger is enabled for the level, that is if the level is not below
    the effective level of the logger. *)
Definition Logger_log (effectiveLevel : Z) (r : LogRecord) : option LogRecord :=
  if (effectiveLevel <=? levelno r)%Z then Some r else None.

Section LogCategory.
(** The categories of [chip.logging], which is not among the sources. *)
Variables LOG_CATEGORY_ERROR LOG_CATEGORY_PROGRESS : Z.
Variables LOG_CATEGORY_DETAIL LOG_CATEGORY_AUTOMATION : Z.

(** [LogCategory.categoryToLogLevel] *)
Definition categoryToLogLevel (cat : Z) : Z :=
  if (cat =? LOG_CATEGORY_ERROR)%Z then logging.ERROR
  else if (cat =? LOG_CATEGORY_PROGRESS)%Z then logging.INFO
  else if bool_decide (cat ∈ [LOG_CATEGORY_DETAIL; LOG_CATEGORY_AUTOMATION]) then logging.DEBUG
  else logging.NOTSET.

(** The function [logFunct] that the property [defaultLogFunct] returns, for
    the instance [self] as it is when the library calls the function.
    [CStringToString] decodes the two byte strings; they are given decoded. *)
Definition defaultLogFunct (self : ChipStack.t) (effectiveLevel : Z)
    (timestamp timestampUSec : Z) (moduleName : string) (logCat : Z) (message : string)
  : option LogRecord :=
  let message : string :=
    if ChipStack.addModulePrefixToLogMessage self
    then ("CHIP:" ++ moduleName ++ ": " ++ message)%string
    else message in
  let logLevel := categoryToLogLevel logCat in
  Logger_log effectiveLevel
    (mkLogRecord logLevel message moduleName timestamp (Some timestampUSec)).
End LogCategory.

(** ** ChipLogFormatter *)

Record ChipLogFormatter : Type := mkChipLogFormatter {
  _fmt : string;
  datefmt : option string;
  logMSecs : bool
}.

(** [ChipLogFormatter.__init__] *)
Definition ChipLogFormatter__init__ (datefmt : option string)
    (logModulePrefix logLevel logTimestamp logMSecs : bool) : ChipLogFormatter :=
  let fmt : string := "%(message)s" in
  let fmt : string := if logModulePrefix then ("CHIP:%(chip-module)s: " ++ fmt)%string else fmt in
  let fmt : string := if logLevel then ("%(levelname)s:" ++ fmt)%string else fmt in
  let fmt : string := if bool_decide (datefmt <> None) || logTimestamp
                      then ("%(asctime)s " ++ fmt)%string else fmt in
  mkChipLogFormatter fmt datefmt logMSecs.

(** The formatter of the default log handler, [ChipLogFormatter()]. *)
Definition default_formatter : ChipLogFormatter :=
  ChipLogFormatter__init__ None false false false true.

(** What formatting gives: the text, the [UnboundLocalError] for a local
    variable read before it was assigned, or the [KeyError] of a field of the
    format that the record does not have. *)
Inductive formatted : Type :=
  | Text (s : string)
  | UnboundLocalError (name : string)
  | KeyError (key : string)
  | FormatError.

Fixpoint zeros (n : nat) : string :=
  match n with
  | 0 => ""
  | S n' => ("0" ++ zeros n')%string
  end.

(** ["%03ld" % x] for a float [x] whose integer part is [z]: the decimal
    digits, padded with zeros to three characters, the sign included. *)
Definition format_03ld (z : Z) : string :=
  let digits := NilZero.string_of_uint (N.to_uint (Z.abs_N z)) in
  if (z <? 0)%Z then ("-" ++ zeros (2 - String.length digits) ++ digits)%string
  else (zeros (3 - String.length digits) ++ digits)%string.

(** [ChipLogFormatter.formatTime(record, datefmt)].  [now] is what
    [time.strftime("%Y-%m-%d %H:%M:%S%z")] gives when it is called.  The local
    [timestampStr] is assigned only when [datefmt] is [None].
    [timestampUS / 1000] is a float, of which [%03ld] prints the integer part:
    that is the truncated quotient as long as the float division is exact
    enough, which it is for counts below [2^53]. *)
Definition formatTime (self : ChipLogFormatter) (now : string) (record : LogRecord)
    (datefmt : option string) : formatted :=
  let timestampStr := match datefmt with None => Some now | Some _ => None end in
  if logMSecs self then
    let timestampUS := default 0%Z (timestamp_usec record) in
    match timestampStr with
    | Some t => Text (t ++ "." ++ format_03ld (Z.quot timestampUS 1000))%string
    | None => UnboundLocalError "timestampStr"
    end
  else
    match timestampStr with
    | Some t => Text t
    | None => UnboundLocalError "timestampStr"
    end.

(** [Formatter.usesTime()]: the format mentions [%(asctime)]. *)
Definition usesTime (self : ChipLogFormatter) : bool :=
  match String.index 0 "%(asctime)" (_fmt self) with
  | Some _ => true
  | None => false
  end.

(** [fmt % record.__dict__] for formats whose conversions are [%(key)s] (and
    [%%]); the state is where the reader is in a conversion. *)
Inductive percent_state : Type :=
  | Literal
  | Percent
  | Key (k : string)
  | Conversion (k : string).

Fixpoint percent_format (st : percent_state) (fmt : string) (dict : string -> option string)
  : formatted :=
  match fmt with
  | EmptyString => match st with Literal => Text "" | _ => FormatError end
  | String c fmt' =>
      match st with
      | Literal =>
          if Ascii.eqb c "%"%char then percent_format Percent fmt' dict
          else match percent_format Literal fmt' dict with
               | Text s => Text (String c s)
               | e => e
               end
      | Percent =>
          if Ascii.eqb c "("%char then percent_format (Key "") fmt' dict
          else if Ascii.eqb c "%"%char then
            match percent_format Literal fmt' dict with
            | Text s => Text (String "%"%char s)
            | e => e
            end
          else FormatError
      | Key k =>
          if Ascii.eqb c ")"%char then percent_format (Conversion k) fmt' dict
          else percent_format (Key (k ++ String c "")%string) fmt' dict
      | Conversion k =>
          if Ascii.eqb c "s"%char then
            match dict k with
            | Some v =>
                match percent_format Literal fmt' dict with
                | Text s => Text (v ++ s)%string
                | e => e
                end
            | None => KeyError k
            end
          else FormatError
      end
  end.

(** The entries of [record.__dict__] that a format can name. *)
Definition record_dict (r : LogRecord) (asctime : option string) (key : string)
  : option string :=
  if String.eqb key "message" then Some (msg r)
  else if String.eqb key "levelname" then Some (logging.getLevelName (levelno r))
  else if String.eqb key "chip-module" then Some (chip_module r)
  else if String.eqb key "asctime" then asctime
  else None.

(** [Formatter.format(record)], inherited from [logging.Formatter], for a
    record without arguments and exception: the time is formatted, with the
    [datefmt] of the formatter, only if the format uses it. *)
Definition ChipLogFormatter_format (self : ChipLogFormatter) (now : string) (r : LogRecord)
  : formatted :=
  if usesTime self then
    match formatTime self now r (datefmt self) with
    | Text asctime => percent_format Literal (_fmt self) (record_dict r (Some asctime))
    | e => e
    end
  else percent_format Literal (_fmt self) (record_dict r None).

(** ** Errors of the library as exceptions *)

(** [DeviceStatusStruct] *)
Record DeviceStatusStruct : Type := mkDeviceStatusStruct {
  ProfileId : Z;
  StatusCode : Z;
  SysErrorCode : Z
}.

(** The exception objects that [ErrorToException] builds, with the arguments
    that it passes to the two constructors. *)
Inductive exception_object : Type :=
  | DeviceError_object (profileId statusCode : Z) (systemErrorCode : option Z) (msg : string)
  | ChipStackError_object (err : Z) (msg : string).

Section ErrorToException.
(** The two functions of the library that give the text of a status report
    and of an error. *)
Variable pychip_Stack_StatusReportToString : Z -> Z -> string.
Variable pychip_Stack_ErrorToString : Z -> string.

(** [ChipStack.ErrorToException(err, devStatusPtr)]; a [devStatusPtr] that is
    [None] or a null pointer is false. *)
Definition ErrorToException (err : Z) (devStatusPtr : option DeviceStatusStruct)
  : M exception_object :=
  s <- self_ ;;
  match devStatusPtr with
  | Some devStatus =>
      if (err =? 44)%Z then
        match ChipStack._ChipStackLib s with
        | None => raise (Exc (none_has_no_attribute "pychip_Stack_StatusReportToString"))
        | Some LibraryHandle =>
            let msg := pychip_Stack_StatusReportToString (ProfileId devStatus)
                         (StatusCode devStatus) in
            let sysErrorCode :=
              if negb (SysErrorCode devStatus =? 0)%Z then Some (SysErrorCode devStatus)
              else None in
            let msg :=
              match sysErrorCode with
              | Some c =>
                  (msg ++ " (system err " ++ NilZero.string_of_int (Z.to_int c) ++ ")")%string
              | None => msg
              end in
            ret (DeviceError_object (ProfileId devStatus) (StatusCode devStatus)
                   sysErrorCode msg)
        end
      else
        match ChipStack._ChipStackLib s with
        | None => raise (Exc (none_has_no_attribute "pychip_Stack_ErrorToString"))
        | Some LibraryHandle => ret (ChipStackError_object err (pychip_Stack_ErrorToString err))
        end
  | None =>
      match ChipStack._ChipStackLib s with
      | None => raise (Exc (none_has_no_attribute "pychip_Stack_ErrorToString"))
      | Some LibraryHandle => ret (ChipStackError_object err (pychip_Stack_ErrorToString err))
      end
  end.
End ErrorToException.

Definition is_DeviceError (e : exception_object) : bool :=
  match e with DeviceError_object _ _ _ _ => true | ChipStackError_object _ _ => false end.

Definition exception_message (e : exception_object) : string :=
  match e with DeviceError_object _ _ _ m => m | ChipStackError_object _ m => m end.

(** ** Directories up to the root

    Paths are POSIX paths (the library is a shared object), as lists of
    characters. *)

Definition path : Type := list ascii.

Definition is_sep (c : ascii) : bool := Ascii.eqb c "/"%char.

(** [p.rfind("/") + 1]: the position after the last separator, [0] when
    there is none. *)
Fixpoint after_last_sep (p : path) : nat :=
  match p with
  | [] => 0
  | c :: p' =>
      match after_last_sep p' with
      | 0 => if is_sep c then 1 else 0
      | S i => S (S i)
      end
  end.

(** [head.rstrip("/")] *)
Fixpoint rstrip_sep (p : path) : path :=
  match p with
  | [] => []
  | c :: p' =>
      match rstrip_sep p' with
      | [] => if is_sep c then [] else [c]
      | q => c :: q
      end
  end.

(** [os.path.dirname] of [posixpath]: the part up to the last separator,
    without its trailing separators unless it consists of separators only. *)
Definition dirname (p : path) : path :=
  let head := take (after_last_sep p) p in
  if negb (bool_decide (head = [])) && negb (forallb is_sep head)
  then rstrip_sep head
  else head.

(** The loop of the generator [ChipStack._AllDirsToRoot], as the list of
    the directories it yields; a pass that does not leave the loop continues
    with a shorter path. *)
Fixpoint _AllDirsToRoot_loop (fuel : nat) (dir : path) : option (list path) :=
  match fuel with
  | 0 => None
  | S fuel =>
      let parent := dirname dir in
      if bool_decide (parent = []) || bool_decide (parent = dir) then Some [dir]
      else option_map (cons dir) (_AllDirsToRoot_loop fuel parent)
  end.

(** [ChipStack._AllDirsToRoot(dir)]; [abspath] is [os.path.abspath] for the
    current directory of the process. *)
Definition _AllDirsToRoot (abspath : path -> path) (dir : path) : option (list path) :=
  let dir := abspath dir in
  _AllDirsToRoot_loop (S (length dir)) dir.

(** The absolute normalised path with the components [cs]. *)
Definition absolute (cs : list path) : path :=
  match cs with
  | [] => ["/"%char]
  | _ => concat (map (cons "/"%char) cs)
  end.

(** A component of a normalised path: not empty and without separator. *)
Definition component (c : path) : Prop :=
  c <> [] /\ Forall (fun x => is_sep x = false) c.

(** The path with the components [cs] and its ancestors, the root last. *)
Definition ancestors (cs : list path) : list path :=
  map (fun k => absolute (take k cs)) (rev (seq 0 (S (length cs)))).

(** * Properties *)

(** ** The trace projections and the trampolines *)

Lemma hevs_app th h t1 t2 : hevs th h (t1 ++ t2) = hevs th h t1 ++ hevs th h t2.
Proof. unfold hevs. by rewrite List.filter_app, map_app. Qed.

Lemma hevs_other_handle th h x d :
  x ≠ h -> Forall (fun o => about (snd o) = Some x) d -> hevs th h d = [].
Proof.
  intros Hne Hd. induction Hd as [|o d Ho _ IH]; [done|].
  unfold hevs in *. simpl. unfold concerns at 1. rewrite Ho.
  rewrite (bool_decide_eq_false_2 (Some x = Some h)); [|congruence].
  by rewrite andb_false_r.
Qed.

Lemma hevs_other_thread th th' h d :
  th' ≠ th -> Forall (fun o => fst o = th') d -> hevs th h d = [].
Proof.
  intros Hne Hd. induction Hd as [|o d Ho _ IH]; [done|].
  unfold hevs in *. simpl. unfold concerns at 1. rewrite Ho.
  by rewrite (bool_decide_eq_false_2 (th' = th)).
Qed.

Lemma hevs_same th h a :
  about a = Some h -> hevs th h [(th, a)] = [a].
Proof.
  intros Ha. unfold hevs, concerns. simpl. rewrite Ha.
  by rewrite !bool_decide_eq_true_2.
Qed.

Lemma AsyncCallableHandle__call__eq th h w a :
  heap w !! h = Some (Blocking a) ->
  AsyncCallableHandle__call__ th h w =
    mkWorld (instance w) (<[h := Blocking (after_call a)]> (heap w)) (next_id w) (native w)
            (loop_ready w) (globals w) (sched w)
            (trace w ++ map (pair th) (tramp h (AsyncCallableHandle._callback a))).
Proof.
  intros Hh. unfold AsyncCallableHandle__call__, after_call, tramp. rewrite Hh.
  destruct a as [[v|[e|b]] res exc fin wt rf]; simpl.
  - unfold Py_DecRef, put_handle, set_heap, log; simpl.
    rewrite lookup_insert_eq. simpl. rewrite insert_insert_eq.
    by rewrite <- !app_assoc.
  - unfold Py_DecRef, put_handle, set_heap, log; simpl.
    rewrite lookup_insert_eq. simpl. rewrite insert_insert_eq.
    by rewrite <- !app_assoc.
  - unfold log; simpl. by rewrite insert_id.
Qed.

Lemma AsyncioCallableHandle__call__eq th h w a :
  heap w !! h = Some (Asyncio a) ->
  AsyncioCallableHandle._loop_closed a = false ->
  AsyncioCallableHandle__call__ th h w =
    mkWorld (instance w) (<[h := Asyncio (after_call_asyncio a)]> (heap w)) (next_id w)
            (native w)
            (if is_base (AsyncioCallableHandle._callback a) then loop_ready w
             else loop_ready w ++ [h])
            (globals w) (sched w)
            (trace w ++ map (pair th) (tramp_asyncio h (AsyncioCallableHandle._callback a))).
Proof.
  intros Hh Hopen. unfold AsyncioCallableHandle__call__, after_call_asyncio, tramp_asyncio.
  rewrite Hh.
  destruct a as [[v|[e|b]] fut res exc rf cl]; simpl in Hopen; subst cl; simpl.
  - unfold Py_DecRef, put_handle, set_heap, set_loop_ready, log; simpl.
    rewrite lookup_insert_eq. simpl. rewrite insert_insert_eq.
    by rewrite <- !app_assoc.
  - unfold Py_DecRef, put_handle, set_heap, set_loop_ready, log; simpl.
    rewrite lookup_insert_eq. simpl. rewrite insert_insert_eq.
    by rewrite <- !app_assoc.
  - unfold log; simpl. by rewrite insert_id.
Qed.

Lemma AsyncioCallableHandle__call__closed th h w a :
  heap w !! h = Some (Asyncio a) ->
  AsyncioCallableHandle._loop_closed a = true ->
  AsyncioCallableHandle__call__ th h w =
    mkWorld (instance w) (<[h := Asyncio (after_call_closed a)]> (heap w)) (next_id w)
            (native w) (loop_ready w) (globals w) (sched w)
            (trace w ++ map (pair th) (tramp_closed h (AsyncioCallableHandle._callback a))).
Proof.
  intros Hh Hclosed. unfold AsyncioCallableHandle__call__, after_call_closed, tramp_closed.
  rewrite Hh.
  destruct a as [[v|[e|b]] fut res exc rf cl]; simpl in Hclosed; subst cl; simpl.
  - unfold put_handle, set_heap, log; simpl. by rewrite <- !app_assoc.
  - unfold put_handle, set_heap, log; simpl. by rewrite <- !app_assoc.
  - unfold log; simpl. by rewrite insert_id.
Qed.

(** A trampoline touches only its own handle, and logs only about it. *)
Lemma HandleChipThreadRun_frame th x w :
  let w' := HandleChipThreadRun th x w in
  instance w' = instance w /\ native w' = native w /\ next_id w' = next_id w /\
  globals w' = globals w /\ sched w' = sched w /\
  (forall h, h ≠ x -> heap w' !! h = heap w !! h) /\
  (exists d, trace w' = trace w ++ d /\
             Forall (fun o => about (snd o) = Some x) d /\ Forall (fun o => fst o = th) d) /\
  (loop_ready w' = loop_ready w \/ loop_ready w' = loop_ready w ++ [x]).
Proof.
  unfold HandleChipThreadRun. destruct (heap w !! x) as [[a|a]|] eqn:Hx; simpl.
  - rewrite (AsyncCallableHandle__call__eq _ _ _ _ Hx). simpl.
    repeat split; try done.
    + intros h Hne. by rewrite lookup_insert_ne.
    + eexists. split; [done|]. split.
      * destruct (AsyncCallableHandle._callback a) as [?|[?|?]]; simpl; repeat constructor.
      * apply Forall_map. simpl. by apply Forall_true.
    + by left.
  - destruct (AsyncioCallableHandle._loop_closed a) eqn:Hcl.
    + rewrite (AsyncioCallableHandle__call__closed _ _ _ _ Hx Hcl). simpl.
      split; [done|]. split; [done|]. split; [done|]. split; [done|]. split; [done|].
      split; [intros h Hne; by rewrite lookup_insert_ne|].
      split; [|by left].
      eexists. split; [done|]. split.
      * destruct (AsyncioCallableHandle._callback a) as [?|[?|?]]; simpl; repeat constructor.
      * apply Forall_map. simpl. by apply Forall_true.
    + rewrite (AsyncioCallableHandle__call__eq _ _ _ _ Hx Hcl). simpl.
      split; [done|]. split; [done|]. split; [done|]. split; [done|]. split; [done|].
      split; [intros h Hne; by rewrite lookup_insert_ne|].
      split; [|destruct (is_base _); auto].
      eexists. split; [done|]. split.
      * destruct (AsyncioCallableHandle._callback a) as [?|[?|?]]; simpl; repeat constructor.
      * apply Forall_map. simpl. by apply Forall_true.
  - repeat split; try done.
    + exists []. by rewrite app_nil_r.
    + by left.
Qed.


Lemma _done_eq h w a :
  heap w !! h = Some (Asyncio a) ->
  AsyncioCallableHandle._future a = FPending ->
  _done h w =
    mkWorld (instance w)
            (<[h := Asyncio (AsyncioCallableHandle.set_future (resolution a) a)]> (heap w))
            (next_id w) (native w) (loop_ready w) (globals w) (sched w)
            (trace w ++ [(LoopThread, ResolveFuture h)]).
Proof.
  intros Hh Hf. unfold _done. rewrite Hh, Hf. done.
Qed.

Lemma _done_frame x w :
  let w' := _done x w in
  instance w' = instance w /\ native w' = native w /\ next_id w' = next_id w /\
  globals w' = globals w /\ sched w' = sched w /\ loop_ready w' = loop_ready w /\
  (forall h, h ≠ x -> heap w' !! h = heap w !! h) /\
  (forall h a, heap w !! h = Some (Blocking a) -> heap w' !! h = Some (Blocking a)) /\
  (exists d, trace w' = trace w ++ d /\
             Forall (fun o => about (snd o) = Some x) d /\
             Forall (fun o => fst o = LoopThread) d /\
             (forall a, heap w !! x = Some (Blocking a) -> d = [])).
Proof.
  assert (Hsame : instance w = instance w /\ native w = native w /\ next_id w = next_id w /\
    globals w = globals w /\ sched w = sched w /\ loop_ready w = loop_ready w /\
    (forall h, h ≠ x -> heap w !! h = heap w !! h) /\
    (forall h a, heap w !! h = Some (Blocking a) -> heap w !! h = Some (Blocking a)) /\
    (exists d, trace w = trace w ++ d /\
             Forall (fun o => about (snd o) = Some x) d /\
             Forall (fun o => fst o = LoopThread) d /\
             (forall a, heap w !! x = Some (Blocking a) -> d = []))).
  { repeat split; try done. exists []. rewrite app_nil_r. repeat split; done. }
  unfold _done. destruct (heap w !! x) as [[a|a]|] eqn:Hx; simpl; try done.
  destruct (AsyncioCallableHandle._future a); simpl; try done.
  repeat split; try done.
  - intros h Hne. by rewrite lookup_insert_ne.
  - intros h b Hb. destruct (decide (h = x)) as [->|Hne]; [congruence|].
    by rewrite lookup_insert_ne.
  - eexists. split; [done|]. repeat split; try (by repeat constructor).
Qed.

Lemma env_step_frame m w h :
  let w' := env_step m w in
  next_id w' = next_id w /\ sched w' = sched w /\ globals w' = globals w /\
  stack_running (native w') = stack_running (native w) /\
  post_script (native w') = post_script (native w) /\
  queue (native w') =
    match m with
    | RunTask => if stack_running (native w) then tl (queue (native w)) else queue (native w)
    | _ => queue (native w)
    end /\
  hevs CallerThread h (trace w') = hevs CallerThread h (trace w) /\
  ( (m = RunTask /\ stack_running (native w) = true /\
     exists q, queue (native w) = h :: q /\
       w' = HandleChipThreadRun RuntimeThread h (set_native (set_queue q (native w)) w))
  \/ (m = LoopRun /\ exists r, loop_ready w = h :: r /\ w' = _done h (set_loop_ready r w))
  \/ (heap w' !! h = heap w !! h /\
      (forall th, hevs th h (trace w') = hevs th h (trace w)) /\
      (m = RunTask -> stack_running (native w) = true -> head (queue (native w)) ≠ Some h) /\
      match m with
      | LoopRun => loop_ready w' = tl (loop_ready w) /\ head (loop_ready w) ≠ Some h
      | RunTask => loop_ready w' = loop_ready w \/
                   exists x, x ≠ h /\ loop_ready w' = loop_ready w ++ [x]
      | _ => loop_ready w' = loop_ready w
      end) ).
Proof.
  destruct m; simpl.
  - (* RunTask *)
    unfold runtime_step.
    destruct (stack_running (native w)) eqn:Hrun; [|by repeat split; auto 10].
    destruct (queue (native w)) as [|x q] eqn:Hq; [by rewrite Hrun; repeat split; auto 10|].
    pose proof (HandleChipThreadRun_frame RuntimeThread x
                  (set_native (set_queue q (native w)) w)) as
      (Hi & Hn & Hid & Hg & Hs & Hheap & (d & Hd & Hab & Hth) & Hl).
    simpl in *. rewrite Hn. simpl. rewrite Hrun.
    repeat split; try done.
    + rewrite Hd, hevs_app, (hevs_other_thread CallerThread RuntimeThread h d); [|done|done].
      by rewrite app_nil_r.
    + destruct (decide (x = h)) as [->|Hne].
      * left. repeat split; try done. by exists q.
      * right. right. repeat split.
        -- by apply Hheap.
        -- intros th. rewrite Hd, hevs_app, (hevs_other_handle th h x d); [|done|done].
           by rewrite app_nil_r.
        -- intros _ _. congruence.
        -- destruct Hl as [->| ->]; [by left|]. right. by exists x.
  - (* LoopRun *)
    unfold loop_step. destruct (loop_ready w) as [|x r] eqn:Hr; [by repeat split; auto 10|].
    pose proof (_done_frame x (set_loop_ready r w)) as
      (Hi & Hn & Hid & Hg & Hs & Hl & Hheap & _ & (d & Hd & Hab & Hth & _)).
    simpl in *. rewrite Hn.
    repeat split; try done.
    + rewrite Hd, hevs_app, (hevs_other_thread CallerThread LoopThread h d); [|done|done].
      by rewrite app_nil_r.
    + destruct (decide (x = h)) as [->|Hne].
      * right. left. split; [done|]. by exists r.
      * right. right. repeat split; try done.
        -- by apply Hheap.
        -- intros th. rewrite Hd, hevs_app, (hevs_other_handle th h x d); [|done|done].
           by rewrite app_nil_r.
        -- congruence.
  - (* Complete *)
    unfold complete. destruct (instance w); simpl; repeat split; auto 10.
  - repeat split; auto 10.
  - repeat split; auto 10.
Qed.

Lemma hevs_map_pair th h l :
  Forall (fun a => about a = Some h) l -> hevs th h (map (pair th) l) = l.
Proof.
  induction 1 as [|a l Ha _ IH]; [done|].
  change (map (pair th) (a :: l)) with ([(th, a)] ++ map (pair th) l).
  by rewrite hevs_app, hevs_same, IH.
Qed.

Lemma tramp_about h f : Forall (fun a => about a = Some h) (tramp h f).
Proof. destruct f as [?|[?|?]]; simpl; repeat constructor. Qed.

Lemma tramp_asyncio_about h f : Forall (fun a => about a = Some h) (tramp_asyncio h f).
Proof. destruct f as [?|[?|?]]; simpl; repeat constructor. Qed.

Section blocking.
Variables (h : nat) (f : callable) (n : nat) (T L : list action).

Lemma env_step_BQ m i wt w :
  BQ h f n T L i wt w ->
  (m = RunTask /\ i = 0 /\ BR h f n T L wt (env_step m w)) \/
  (BQ h f n T L (match m with RunTask => pred i | _ => i end) wt (env_step m w) /\
   (m = RunTask -> 0 < i)).
Proof.
  intros (Hh & Hrun & (q1 & q2 & Hq & Hlen & Hq1 & Hq2) & HT & HL).
  destruct (env_step_frame m w h) as (_ & _ & _ & Hrun' & _ & Hq' & _ & Hcase).
  destruct Hcase as [(-> & _ & q & Hqh & Hw')|[(-> & r & Hr & Hw')|(Hheap & Hev & Hhd & _)]].
  - (* the trampoline of [h] runs *)
    left. rewrite Hq in Hqh. destruct q1 as [|x q1]; simpl in *.
    2:{ injection Hqh as -> _. exfalso. apply Hq1. by left. }
    injection Hqh as <-. split; [done|]. split; [by subst|].
    unfold HandleChipThreadRun in Hw'. simpl in Hw'. rewrite Hh in Hw'.
    rewrite (AsyncCallableHandle__call__eq _ _ _ (submitted f wt n)) in Hw' by done.
    simpl in Hw'. unfold BR. rewrite Hw'. simpl. rewrite lookup_insert_eq.
    split; [done|]. split; [done|]. split.
    + rewrite hevs_app, hevs_map_pair by apply tramp_about. by rewrite HT.
    + rewrite hevs_app, (hevs_other_thread LoopThread RuntimeThread h (map _ _));
        [by rewrite app_nil_r|done|].
      apply Forall_map. by apply Forall_true.
  - (* [_done h] on a blocking handle does nothing *)
    right. split; [|done].
    pose proof (_done_frame h (set_loop_ready r w)) as
      (_ & Hn & _ & _ & _ & _ & _ & Hb & (d & Hd & _ & _ & Hnil)).
    simpl in *. unfold BQ. rewrite Hw', Hn, Hd, (Hnil _ Hh), app_nil_r.
    repeat split; try done.
    + by apply Hb.
    + by exists q1, q2.
  - right. unfold BQ. rewrite Hheap, !Hev, Hrun', Hq'.
    destruct m; try (split; [repeat split; try done; by exists q1, q2|done]).
    rewrite Hrun. specialize (Hhd eq_refl Hrun).
    destruct q1 as [|y q1]; simpl in *; [by rewrite Hq in Hhd|].
    split; [|lia]. repeat split; try done.
    exists q1, q2. rewrite Hq. simpl. repeat split; try done; [lia|].
    intros Hin. apply Hq1. by right.
Qed.

Lemma env_step_BR m wt w :
  BR h f n T L wt w -> BR h f n T L wt (env_step m w).
Proof.
  intros (Hh & Hq & HT & HL).
  destruct (env_step_frame m w h) as (_ & _ & _ & _ & _ & Hq' & _ & Hcase).
  assert (h ∉ queue (native (env_step m w))) as Hnq.
  { rewrite Hq'. destruct m; try done. destruct (stack_running (native w)); [|done].
    destruct (queue (native w)); [done|]. simpl. intros Hin. apply Hq. by right. }
  destruct Hcase as [(-> & _ & q & Hqh & Hw')|[(-> & r & Hr & Hw')|(Hheap & Hev & _ & _)]].
  - rewrite Hqh in Hq. exfalso. apply Hq. by left.
  - pose proof (_done_frame h (set_loop_ready r w)) as
      (_ & Hn & _ & _ & _ & _ & _ & Hb & (d & Hd & _ & _ & Hnil)).
    simpl in *. unfold BR. split; [rewrite Hw'; by apply Hb|]. split; [done|].
    rewrite Hw', Hd, (Hnil _ Hh), app_nil_r. done.
  - unfold BR. by rewrite Hheap, !Hev.
Qed.
End blocking.

Lemma preempt_frame s w h :
  let w' := preempt s w in
  next_id w' = next_id w /\ globals w' = globals w /\
  stack_running (native w') = stack_running (native w) /\
  post_script (native w') = post_script (native w) /\
  hevs CallerThread h (trace w') = hevs CallerThread h (trace w).
Proof.
  revert w. induction s as [|m s IH]; intros w; simpl; [done|].
  destruct (env_step_frame m w h) as (H1 & _ & H2 & H3 & H4 & _ & H5 & _).
  destruct (IH (env_step m w)) as (I1 & I2 & I3 & I4 & I5).
  destruct m; simpl in *; try done; repeat split; congruence.
Qed.

Section blocking_wait.
Variables (h : nat) (f : callable) (n : nat) (T L : list action).

Lemma BQ_set_sched s i wt w : BQ h f n T L i wt (set_sched s w) <-> BQ h f n T L i wt w.
Proof. done. Qed.

Lemma BR_set_sched s wt w : BR h f n T L wt (set_sched s w) <-> BR h f n T L wt w.
Proof. done. Qed.

Lemma preempt_BR s wt w : BR h f n T L wt w -> BR h f n T L wt (preempt s w).
Proof.
  revert w. induction s as [|m s IH]; intros w Hw; simpl; [done|].
  destruct m; try done; apply IH; by apply env_step_BR.
Qed.

Lemma preempt_BQ s i wt w :
  BQ h f n T L i wt w ->
  BR h f n T L wt (preempt s w) \/
  exists i', BQ h f n T L i' wt (preempt s w) /\ i' + runs s = i + runs (sched (preempt s w)).
Proof.
  revert i w. induction s as [|m s IH]; intros i w Hw; simpl.
  - right. exists i. done.
  - assert (Hgen : m ≠ Resume ->
      BR h f n T L wt (preempt s (env_step m w)) \/
      exists i', BQ h f n T L i' wt (preempt s (env_step m w)) /\
        i' + runs (m :: s) = i + runs (sched (preempt s (env_step m w)))).
    { intros Hm. destruct (env_step_BQ h f n T L m i wt w Hw) as [(-> & -> & Hr)|(Hq & Hpos)].
      - left. by apply preempt_BR.
      - destruct (IH _ _ Hq) as [Hr|(i' & Hq' & Hi')]; [by left|].
        right. exists i'. split; [done|].
        destruct m; simpl in *; try lia. specialize (Hpos eq_refl). lia. }
    destruct m; try (by apply Hgen).
    right. exists i. done.
Qed.

Lemma cv_set_waiting_BQ b i wt w :
  BQ h f n T L i wt w -> BQ h f n T L i b (cv_set_waiting b h w).
Proof.
  intros (Hh & Hrest). unfold BQ, cv_set_waiting. rewrite Hh. simpl.
  by rewrite lookup_insert_eq.
Qed.

Lemma cv_set_waiting_BR b wt w :
  BR h f n T L wt w -> b = false \/ is_base f = true ->
  BR h f n T L b (cv_set_waiting b h w).
Proof.
  intros (Hh & Hrest) Hb. unfold BR, cv_set_waiting. rewrite Hh. simpl.
  rewrite lookup_insert_eq. split; [|done]. do 2 f_equal.
  unfold after_call, submitted. simpl.
  destruct f as [v|[e|x]]; simpl in *; try done; by destruct Hb as [->|?].
Qed.

Lemma cv_woken_BQ i w : BQ h f n T L i true w -> cv_woken h w = false.
Proof. intros (Hh & _). unfold cv_woken. by rewrite Hh. Qed.

Lemma cv_woken_BR wt w :
  BR h f n T L wt w -> cv_woken h w = if is_base f then negb wt else true.
Proof.
  intros (Hh & _). unfold cv_woken. rewrite Hh. unfold after_call, submitted. simpl.
  by destruct f as [v|[e|x]].
Qed.

(** Waiting on a handle whose callback escaped with a [BaseException]. *)
Lemma cv_block_BR_base tmo s w r w' :
  BR h f n T L true w -> is_base f = true ->
  cv_block h tmo s w = (r, w') ->
  (r = Ret false /\ tmo ≠ None /\ TimerExpires ∈ s /\ BR h f n T L false w') \/
  (r = Pending /\ sched w' = [] /\ BR h f n T L true w').
Proof.
  intros Hw Hb. revert w Hw. induction s as [|m s IH]; intros w Hw; simpl.
  - intros [= <- <-]. by right.
  - assert (Hgen : m ≠ TimerExpires ->
      (let w1 := env_step m w in
       if cv_woken h w1 then (Ret true, preempt s w1) else cv_block h tmo s w1) = (r, w') ->
      (r = Ret false /\ tmo ≠ None /\ TimerExpires ∈ m :: s /\ BR h f n T L false w') \/
      (r = Pending /\ sched w' = [] /\ BR h f n T L true w')).
    { intros Hm. simpl. pose proof (env_step_BR h f n T L m true w Hw) as Hw1.
      rewrite (cv_woken_BR _ _ Hw1), Hb. simpl. intros Heq.
      destruct (IH _ Hw1 Heq) as [(? & ? & ? & ?)|?]; [left|by right].
      split; [done|]. split; [done|]. split; [by right|done]. }
    destruct m; try (by apply Hgen).
    destruct tmo as [t|].
    + intros [= <- <-]. left. split; [done|]. split; [done|]. split; [by left|].
      apply (cv_set_waiting_BR false true); [|by left]. by apply preempt_BR.
    + intros Heq. destruct (IH _ Hw Heq) as [(? & ? & ? & ?)|?]; [done|by right].
Qed.

Lemma cv_block_BQ tmo s i w r w' :
  BQ h f n T L i true w ->
  cv_block h tmo s w = (r, w') ->
  (r = Ret true /\ is_base f = false /\ BR h f n T L true w') \/
  (r = Ret false /\ tmo ≠ None /\ TimerExpires ∈ s /\
     ((exists i', BQ h f n T L i' false w') \/ BR h f n T L false w')) \/
  (r = Pending /\ sched w' = [] /\
     ((exists i', BQ h f n T L i' true w' /\ i' + runs s = i) \/
      (is_base f = true /\ BR h f n T L true w'))).
Proof.
  revert i w. induction s as [|m s IH]; intros i w Hw; simpl.
  - intros [= <- <-]. right. right. split; [done|]. split; [done|]. left. exists i.
    split; [done|simpl; lia].
  - assert (Hgen : m ≠ TimerExpires ->
      (let w1 := env_step m w in
       if cv_woken h w1 then (Ret true, preempt s w1) else cv_block h tmo s w1) = (r, w') ->
      (r = Ret true /\ is_base f = false /\ BR h f n T L true w') \/
      (r = Ret false /\ tmo ≠ None /\ TimerExpires ∈ m :: s /\
         ((exists i', BQ h f n T L i' false w') \/ BR h f n T L false w')) \/
      (r = Pending /\ sched w' = [] /\
         ((exists i', BQ h f n T L i' true w' /\ i' + runs (m :: s) = i) \/
          (is_base f = true /\ BR h f n T L true w')))).
    { intros Hm. simpl.
      destruct (env_step_BQ h f n T L m i true w Hw) as [(-> & -> & Hr)|(Hq & Hpos)].
      - rewrite (cv_woken_BR _ _ Hr). simpl. destruct (is_base f) eqn:Hb; simpl.
        + intros Heq. destruct (cv_block_BR_base _ _ _ _ _ Hr Hb Heq) as [(?&?&?&?)|(?&?&?)].
          * right. left. split; [done|]. split; [done|]. split; [by right|by right].
          * right. right. split; [done|]. split; [done|]. by right.
        + intros [= <- <-]. left. split; [done|]. split; [done|]. by apply preempt_BR.
      - rewrite (cv_woken_BQ _ _ Hq). intros Heq.
        destruct (IH _ _ Hq Heq) as [?|[(?&?&?&?)|(?&?&[(i' & ? & Hi')|?])]].
        + by left.
        + right. left. split; [done|]. split; [done|]. split; [by right|done].
        + right. right. split; [done|]. split; [done|]. left. exists i'. split; [done|].
          destruct m; simpl in *; try lia. specialize (Hpos eq_refl). lia.
        + right. right. split; [done|]. split; [done|]. by right. }
    destruct m; try (by apply Hgen).
    destruct tmo as [t|].
    + intros [= <- <-]. right. left. split; [done|]. split; [done|]. split; [by left|].
      destruct (preempt_BQ s i true w Hw) as [Hr|(i' & Hq & _)].
      * right. apply (cv_set_waiting_BR false true); [done|by left].
      * left. exists i'. by apply (cv_set_waiting_BQ false i' true).
    + intros Heq.
      destruct (IH _ _ Hw Heq) as [?|[(?&?&?&?)|(?&?&[(i' & ? & Hi')|?])]].
      * by left.
      * done.
      * right. right. split; [done|]. split; [done|]. left. exists i'. done.
      * right. right. split; [done|]. split; [done|]. by right.
Qed.
End blocking_wait.

Lemma cv_set_waiting_frame b h w x :
  let w' := cv_set_waiting b h w in
  trace w' = trace w /\ sched w' = sched w /\ native w' = native w /\
  next_id w' = next_id w /\ instance w' = instance w /\ globals w' = globals w /\
  loop_ready w' = loop_ready w /\ (x ≠ h -> heap w' !! x = heap w !! x).
Proof.
  unfold cv_set_waiting. destruct (heap w !! h) as [[a|a]|]; simpl; repeat split; try done.
  intros Hne. by rewrite lookup_insert_ne.
Qed.

Lemma cv_block_frame h tmo s w r w' x :
  cv_block h tmo s w = (r, w') ->
  hevs CallerThread x (trace w') = hevs CallerThread x (trace w) /\
  next_id w' = next_id w /\ globals w' = globals w /\
  stack_running (native w') = stack_running (native w) /\
  post_script (native w') = post_script (native w).
Proof.
  revert w. induction s as [|m s IH]; intros w; simpl.
  - by intros [= <- <-].
  - assert (Hgen :
      (let w1 := env_step m w in
       if cv_woken h w1 then (Ret true, preempt s w1) else cv_block h tmo s w1) = (r, w') ->
      hevs CallerThread x (trace w') = hevs CallerThread x (trace w) /\
      next_id w' = next_id w /\ globals w' = globals w /\
      stack_running (native w') = stack_running (native w) /\
      post_script (native w') = post_script (native w)).
    { simpl. destruct (env_step_frame m w x) as (H1 & _ & H2 & H3 & H4 & _ & H5 & _).
      destruct (cv_woken h (env_step m w)).
      - intros [= <- <-].
        destruct (preempt_frame s (env_step m w) x) as (I1 & I2 & I3 & I4 & I5).
        simpl in *. repeat split; congruence.
      - intros Heq. destruct (IH _ Heq) as (I1 & I2 & I3 & I4 & I5).
        repeat split; congruence. }
    destruct m; try (by apply Hgen).
    destruct tmo as [t|]; [|by apply IH].
    intros [= <- <-].
    destruct (cv_set_waiting_frame false h (preempt s w) x) as (E1 & _ & E2 & E3 & _ & E4 & _).
    rewrite E1, E2, E3, E4.
    by destruct (preempt_frame s w x) as (I1 & I2 & I3 & I4 & I5).
Qed.

Section blocking_Wait.
Variables (h : nat) (f : callable) (n : nat) (T L : list action).

Lemma log_caller_BQ a i wt w :
  BQ h f n T L i wt w -> BQ h f n T L i wt (log CallerThread a w).
Proof.
  intros (Hh & Hrun & Hq & HT & HL). unfold BQ. simpl.
  rewrite !hevs_app, !(hevs_other_thread _ CallerThread h [_]), !app_nil_r;
    try done; by repeat constructor.
Qed.

Lemma log_caller_BR a wt w :
  BR h f n T L wt w -> BR h f n T L wt (log CallerThread a w).
Proof.
  intros (Hh & Hq & HT & HL). unfold BR. simpl.
  rewrite !hevs_app, !(hevs_other_thread _ CallerThread h [_]), !app_nil_r;
    try done; by repeat constructor.
Qed.

Lemma BR_wt wt wt' w :
  is_base f = false -> BR h f n T L wt w -> BR h f n T L wt' w.
Proof.
  intros Hb (Hh & Hrest). split; [|done]. rewrite Hh. do 2 f_equal.
  unfold after_call, submitted. simpl. by destruct f as [v|[e|x]].
Qed.

(** [cv_wait] on a handle that is still queued. *)
Lemma cv_wait_BQ tmo i w r w' :
  BQ h f n T L i false w ->
  cv_wait h tmo w = (r, w') ->
  hevs CallerThread h (trace w') = hevs CallerThread h (trace w) ++ [CvWait h tmo] /\
  ((r = Ret true /\ is_base f = false /\ BR h f n T L false w' /\ sched w ≠ []) \/
   (r = Ret false /\ tmo ≠ None /\
      (TimerExpires ∈ sched w \/ expired_at_once tmo = true) /\
      ((exists i', BQ h f n T L i' false w') \/ BR h f n T L false w')) \/
   (r = Pending /\ sched w' = [] /\
      ((exists i', BQ h f n T L i' true w' /\ i' + runs (sched w) = i) \/
       (is_base f = true /\ BR h f n T L true w')))).
Proof.
  intros Hw. unfold cv_wait.
  set (w1 := log CallerThread (CvWait h tmo) w).
  set (w2 := cv_set_waiting true h w1).
  assert (BQ h f n T L i true w2) as Hw2.
  { apply (cv_set_waiting_BQ h f n T L true i false). by apply log_caller_BQ. }
  assert (sched w2 = sched w) as Hs.
  { unfold w2. destruct (cv_set_waiting_frame true h w1 h) as (_ & Hx & _). by rewrite Hx. }
  assert (hevs CallerThread h (trace w2) = hevs CallerThread h (trace w) ++ [CvWait h tmo]) as Ht.
  { unfold w2. destruct (cv_set_waiting_frame true h w1 h) as (Hx & _). rewrite Hx.
    unfold w1. simpl. by rewrite hevs_app, hevs_same. }
  assert (Hblock : cv_block h tmo (sched w2) w2 = (r, w') ->
    hevs CallerThread h (trace w') = hevs CallerThread h (trace w) ++ [CvWait h tmo] /\
    ((r = Ret true /\ is_base f = false /\ BR h f n T L false w' /\ sched w ≠ []) \/
     (r = Ret false /\ tmo ≠ None /\
        (TimerExpires ∈ sched w \/ expired_at_once tmo = true) /\
        ((exists i', BQ h f n T L i' false w') \/ BR h f n T L false w')) \/
     (r = Pending /\ sched w' = [] /\
        ((exists i', BQ h f n T L i' true w' /\ i' + runs (sched w) = i) \/
         (is_base f = true /\ BR h f n T L true w'))))).
  { intros Heq. destruct (cv_block_frame _ _ _ _ _ _ h Heq) as (Hc & _).
    split; [by rewrite Hc|].
    destruct (cv_block_BQ h f n T L _ _ _ _ _ _ Hw2 Heq)
      as [(-> & Hb & Hr)|[(-> & Hn & Hin & Hst)|(-> & Hsw & Hst)]].
    - left. split; [done|]. split; [done|]. split; [by apply (BR_wt true)|].
      rewrite <- Hs. intros Hnil. rewrite Hnil in Heq. by simpl in Heq.
    - right. left. rewrite Hs in Hin. split; [done|]. split; [done|]. split; [by left|done].
    - right. right. rewrite Hs in Hst. done. }
  destruct tmo as [t|]; [|exact Hblock].
  destruct (Qle_bool t 0) eqn:Ht0; [|exact Hblock].
  intros [= <- <-]. split.
  - destruct (cv_set_waiting_frame false h (preempt (sched w2) w2) h) as (Hx & _).
    rewrite Hx. destruct (preempt_frame (sched w2) w2 h) as (_ & _ & _ & _ & Hy).
    by rewrite Hy.
  - right. left. split; [done|]. split; [done|]. split; [by right|].
    destruct (preempt_BQ h f n T L (sched w2) i true w2 Hw2) as [Hr|(i' & Hq & _)].
    + right. apply (cv_set_waiting_BR h f n T L false true); [done|by left].
    + left. exists i'. by apply (cv_set_waiting_BQ h f n T L false i' true).
Qed.

(** [cv_wait] on a handle whose callback escaped with a [BaseException]. *)
Lemma cv_wait_BR_base tmo w r w' :
  BR h f n T L false w -> is_base f = true ->
  cv_wait h tmo w = (r, w') ->
  hevs CallerThread h (trace w') = hevs CallerThread h (trace w) ++ [CvWait h tmo] /\
  ((r = Ret false /\ tmo ≠ None /\
      (TimerExpires ∈ sched w \/ expired_at_once tmo = true) /\ BR h f n T L false w') \/
   (r = Pending /\ sched w' = [] /\ BR h f n T L true w')).
Proof.
  intros Hw Hb. unfold cv_wait.
  set (w1 := log CallerThread (CvWait h tmo) w).
  set (w2 := cv_set_waiting true h w1).
  assert (BR h f n T L true w2) as Hw2.
  { apply (cv_set_waiting_BR h f n T L true false); [|by right]. by apply log_caller_BR. }
  assert (sched w2 = sched w) as Hs.
  { unfold w2. destruct (cv_set_waiting_frame true h w1 h) as (_ & Hx & _). by rewrite Hx. }
  assert (hevs CallerThread h (trace w2) = hevs CallerThread h (trace w) ++ [CvWait h tmo]) as Ht.
  { unfold w2. destruct (cv_set_waiting_frame true h w1 h) as (Hx & _). rewrite Hx.
    unfold w1. simpl. by rewrite hevs_app, hevs_same. }
  assert (Hblock : cv_block h tmo (sched w2) w2 = (r, w') ->
    hevs CallerThread h (trace w') = hevs CallerThread h (trace w) ++ [CvWait h tmo] /\
    ((r = Ret false /\ tmo ≠ None /\
        (TimerExpires ∈ sched w \/ expired_at_once tmo = true) /\ BR h f n T L false w') \/
     (r = Pending /\ sched w' = [] /\ BR h f n T L true w'))).
  { intros Heq. destruct (cv_block_frame _ _ _ _ _ _ h Heq) as (Hc & _).
    split; [by rewrite Hc|].
    destruct (cv_block_BR_base h f n T L _ _ _ _ _ Hw2 Hb Heq)
      as [(-> & Hn & Hin & Hst)|(-> & Hsw & Hst)].
    - left. rewrite Hs in Hin. split; [done|]. split; [done|]. split; [by left|done].
    - by right. }
  destruct tmo as [t|]; [|exact Hblock].
  destruct (Qle_bool t 0) eqn:Ht0; [|exact Hblock].
  intros [= <- <-]. split.
  - destruct (cv_set_waiting_frame false h (preempt (sched w2) w2) h) as (Hx & _).
    rewrite Hx. destruct (preempt_frame (sched w2) w2 h) as (_ & _ & _ & _ & Hy).
    by rewrite Hy.
  - left. split; [done|]. split; [done|]. split; [by right|].
    apply (cv_set_waiting_BR h f n T L false true); [|by left]. by apply preempt_BR.
Qed.

Lemma get_blocking_eq w a : heap w !! h = Some (Blocking a) -> get_blocking h w = (Ret a, w).
Proof. intros Hh. unfold get_blocking. by rewrite Hh. Qed.

Lemma Wait_loop_finished k tmo wt w :
  BR h f n T L wt w -> is_base f = false -> Wait_loop (S k) h tmo w = (Ret tt, w).
Proof.
  intros (Hh & _) Hb. simpl. unfold bind. rewrite (get_blocking_eq _ _ Hh).
  unfold after_call, submitted. simpl. by destruct f as [v|[e|x]].
Qed.

Lemma Wait_loop_BR tmo k w r w' :
  BR h f n T L false w ->
  Wait_loop (S k) h tmo w = (r, w') ->
  (r = Ret tt /\ is_base f = false /\ w' = w) \/
  (is_base f = true /\
   hevs CallerThread h (trace w') = hevs CallerThread h (trace w) ++ [CvWait h tmo] /\
   ((r = Raise (Exc (TimeoutError timeout_message)) /\ tmo ≠ None /\
       (TimerExpires ∈ sched w \/ expired_at_once tmo = true) /\ BR h f n T L false w') \/
    (r = Pending /\ sched w' = [] /\ BR h f n T L true w'))).
Proof.
  intros Hw. destruct (is_base f) eqn:Hb.
  - destruct Hw as (Hh & Hrest). simpl. unfold bind. rewrite (get_blocking_eq _ _ Hh).
    assert (AsyncCallableHandle._finish (after_call (submitted f false n)) = false) as ->.
    { unfold after_call, submitted. simpl. by destruct f as [v|[e|x]]. }
    destruct (cv_wait h tmo w) as [rb w1] eqn:Hcv.
    destruct (cv_wait_BR_base tmo w rb w1 (conj Hh Hrest) Hb Hcv)
      as (Hc & [(-> & Hn & Hin & Hst)|(-> & Hsw & Hst)]).
    + intros [= <- <-]. right. split; [done|]. split; [done|]. by left.
    + intros [= <- <-]. right. split; [done|]. split; [done|]. by right.
  - rewrite (Wait_loop_finished k tmo false w Hw Hb). intros [= <- <-]. by left.
Qed.

Lemma Wait_loop_BQ tmo i w r w' :
  BQ h f n T L i false w ->
  Wait_loop (S (length (sched w))) h tmo w = (r, w') ->
  hevs CallerThread h (trace w') = hevs CallerThread h (trace w) ++ [CvWait h tmo] /\
  ((r = Ret tt /\ is_base f = false /\ BR h f n T L false w') \/
   (r = Raise (Exc (TimeoutError timeout_message)) /\ tmo ≠ None /\
      (TimerExpires ∈ sched w \/ expired_at_once tmo = true) /\
      ((exists i', BQ h f n T L i' false w') \/ BR h f n T L false w')) \/
   (r = Pending /\ sched w' = [] /\
      ((exists i', BQ h f n T L i' true w' /\ i' + runs (sched w) = i) \/
       (is_base f = true /\ BR h f n T L true w')))).
Proof.
  intros Hw. pose proof Hw as (Hh & _). simpl. unfold bind.
  rewrite (get_blocking_eq _ _ Hh). simpl.
  destruct (cv_wait h tmo w) as [rb w1] eqn:Hcv.
  destruct (cv_wait_BQ tmo i w rb w1 Hw Hcv)
    as (Hc & [(-> & Hb & Hr & Hne)|[(-> & Hn & Hin & Hst)|(-> & Hsw & Hst)]]).
  - destruct (sched w) as [|m s] eqn:Hs; [done|]. simpl length.
    rewrite (Wait_loop_finished _ tmo false w1 Hr Hb). intros [= <- <-].
    split; [done|]. by left.
  - intros [= <- <-]. split; [done|]. right. by left.
  - intros [= <- <-]. split; [done|]. right. by right.
Qed.
End blocking_Wait.

Lemma preempt_sched_in s w m : m ∈ sched (preempt s w) -> m ∈ s.
Proof.
  revert w. induction s as [|x s IH]; intros w; simpl; [done|].
  destruct x; simpl; intros Hin; right; eauto.
Qed.

Section blocking_Wait_top.
Variables (h : nat) (f : callable) (n : nat) (T L : list action).

Lemma Wait_result w :
  BR h f n T L false w -> is_base f = false ->
  (a <- get_blocking h ;;
   match AsyncCallableHandle._exc a with
   | Some e => raise (Exc e)
   | None => ret (AsyncCallableHandle._res a)
   end) w = (answer f, w).
Proof.
  intros (Hh & _) Hb. unfold bind. rewrite (get_blocking_eq h _ _ Hh).
  unfold after_call, submitted, answer. simpl. by destruct f as [v|[e|x]].
Qed.

Lemma Wait_BR tmoMs w r w' :
  BR h f n T L false w ->
  Wait h tmoMs w = (r, w') ->
  (r = answer f /\ is_base f = false /\ BR h f n T L false w' /\
   hevs CallerThread h (trace w') = hevs CallerThread h (trace w)) \/
  (is_base f = true /\
   hevs CallerThread h (trace w') =
     hevs CallerThread h (trace w) ++ [CvWait h (Wait_timeout tmoMs)] /\
   ((r = Raise (Exc (TimeoutError timeout_message)) /\ tmoMs ≠ None /\
       (TimerExpires ∈ sched w \/ expired_at_once (Wait_timeout tmoMs) = true) /\
       BR h f n T L false w') \/
    (r = Pending /\ sched w' = [] /\ BR h f n T L true w'))).
Proof.
  intros Hw. unfold Wait. fold (Wait_timeout tmoMs). unfold bind at 1. unfold yield.
  unfold bind at 1. unfold gets.
  pose proof (preempt_BR h f n T L (sched w) false w Hw) as Hw1.
  destruct (preempt_frame (sched w) w h) as (_ & _ & _ & _ & Hc1).
  set (w1 := preempt (sched w) w) in *.
  unfold bind at 1.
  destruct (Wait_loop (S (length (sched w1))) h (Wait_timeout tmoMs) w1) as [r1 w2] eqn:Hloop.
  destruct (Wait_loop_BR h f n T L _ _ _ _ _ Hw1 Hloop)
    as [(-> & Hb & ->)|(Hb & Hc & [(-> & Hn & Hin & Hst)|(-> & Hsw & Hst)])].
  - rewrite (Wait_result w1 Hw1 Hb). intros [= <- <-]. left. by rewrite Hc1.
  - intros [= <- <-]. right. split; [done|]. rewrite Hc, Hc1. split; [done|]. left.
    split; [done|]. split; [by destruct tmoMs|]. split; [|done].
    destruct Hin as [Hin|?]; [left|by right]. by apply (preempt_sched_in _ w).
  - intros [= <- <-]. right. split; [done|]. rewrite Hc, Hc1. split; [done|]. by right.
Qed.

Lemma Wait_unfold tmoMs w :
  Wait h tmoMs w =
    let w1 := preempt (sched w) w in
    match Wait_loop (S (length (sched w1))) h (Wait_timeout tmoMs) w1 with
    | (Ret _, w2) =>
        (a <- get_blocking h ;;
         match AsyncCallableHandle._exc a with
         | Some e => raise (Exc e)
         | None => ret (AsyncCallableHandle._res a)
         end) w2
    | (Raise t, w2) => (Raise t, w2)
    | (Pending, w2) => (Pending, w2)
    end.
Proof. reflexivity. Qed.

Lemma Wait_BQ i tmoMs w r w' :
  BQ h f n T L i false w ->
  Wait h tmoMs w = (r, w') ->
  (r = answer f /\ is_base f = false /\ BR h f n T L false w' /\
   (hevs CallerThread h (trace w') = hevs CallerThread h (trace w) \/
    hevs CallerThread h (trace w') =
      hevs CallerThread h (trace w) ++ [CvWait h (Wait_timeout tmoMs)])) \/
  (hevs CallerThread h (trace w') =
     hevs CallerThread h (trace w) ++ [CvWait h (Wait_timeout tmoMs)] /\
   ((r = Raise (Exc (TimeoutError timeout_message)) /\ tmoMs ≠ None /\
       (TimerExpires ∈ sched w \/ expired_at_once (Wait_timeout tmoMs) = true) /\
       ((exists i', BQ h f n T L i' false w') \/ BR h f n T L false w')) \/
    (r = Pending /\ sched w' = [] /\
       ((exists i', BQ h f n T L i' true w' /\ i' + runs (sched w) = i) \/
        (is_base f = true /\ BR h f n T L true w'))))).
Proof.
  intros Hw. rewrite Wait_unfold. cbv zeta.
  destruct (preempt_frame (sched w) w h) as (_ & _ & _ & _ & Hc1).
  destruct (preempt_BQ h f n T L (sched w) i false w Hw) as [Hw1|(i1 & Hw1 & Hi1)];
    set (w1 := preempt (sched w) w) in *;
    destruct (Wait_loop (S (length (sched w1))) h (Wait_timeout tmoMs) w1) as [r1 w2] eqn:Hloop.
  - (* the trampoline ran before the caller got the lock *)
    destruct (Wait_loop_BR h f n T L _ _ _ _ _ Hw1 Hloop)
      as [(-> & Hb & ->)|(Hb & Hc & [(-> & Hn & Hin & Hst)|(-> & Hsw & Hst)])].
    + rewrite (Wait_result w1 Hw1 Hb). intros [= <- <-]. left.
      split; [done|]. split; [done|]. split; [done|]. by left.
    + intros [= <- <-]. right. rewrite Hc, Hc1. split; [done|]. left.
      split; [done|]. split; [by destruct tmoMs|]. split; [|by right].
      destruct Hin as [Hin|?]; [left|by right]. by apply (preempt_sched_in _ w).
    + intros [= <- <-]. right. rewrite Hc, Hc1. split; [done|]. right.
      split; [done|]. split; [done|]. by right.
  - destruct (Wait_loop_BQ h f n T L _ _ _ _ _ Hw1 Hloop)
      as (Hc & [(-> & Hb & Hr)|[(-> & Hn & Hin & Hst)|(-> & Hsw & Hst)]]).
    + rewrite (Wait_result w2 Hr Hb). intros [= <- <-]. left.
      split; [done|]. split; [done|]. split; [done|]. right. by rewrite Hc, Hc1.
    + intros [= <- <-]. right. rewrite Hc, Hc1. split; [done|]. left.
      split; [done|]. split; [by destruct tmoMs|]. split; [|done].
      destruct Hin as [Hin|?]; [left|by right]. by apply (preempt_sched_in _ w).
    + intros [= <- <-]. right. rewrite Hc, Hc1. split; [done|]. right.
      split; [done|]. split; [done|].
      destruct Hst as [(i' & Hq' & Hi')|?]; [left|by right].
      exists i'. split; [done|]. lia.
Qed.
End blocking_Wait_top.

Lemma release_networkLock_same w : same_but_instance w (release_networkLock w).
Proof.
  unfold release_networkLock. destruct (instance w) as [s|]; [|done].
  by destruct (ChipStack.networkLock s).
Qed.

Lemma PostTaskOnChipThread_eq f w s :
  instance w = Some s ->
  ChipStack._ChipStackLib s = Some LibraryHandle ->
  stack_running (native w) = true ->
  let h := next_id w in
  let c := next_post_status w in
  PostTaskOnChipThread f w =
    if is_success c then
      (Ret h,
       mkWorld (instance w) (<[h := Blocking (submitted f false 1)]> (heap w)) (S h)
         (set_queue (queue (native w) ++ [h])
            (set_post_script (tl (post_script (native w))) (native w)))
         (loop_ready w) (globals w) (sched w) (trace w ++ [(CallerThread, IncRef h)]))
    else
      (Raise (Exc (ChipStackError c)),
       mkWorld (instance w) (<[h := Blocking (submitted f false 0)]> (heap w)) (S h)
         (set_post_script (tl (post_script (native w))) (native w))
         (loop_ready w) (globals w) (sched w)
         (trace w ++ [(CallerThread, IncRef h); (CallerThread, DecRef h)])).
Proof.
  intros Hi Hlib Hrun. cbv zeta. unfold next_post_status.
  unfold PostTaskOnChipThread, bind, new_object, modify,
    pychip_DeviceController_PostTaskOnChipThread, self_, bind.
  unfold Py_IncRef. simpl. rewrite lookup_insert_eq. simpl.
  rewrite Hi, Hlib. simpl. rewrite Hrun.
  destruct (is_success (hd 0%Z (post_script (native w)))) eqn:Hc; simpl; rewrite Hc; simpl.
  - unfold ret, set_native, log, put_handle, set_heap, set_next_id; simpl.
    rewrite insert_insert_eq. by rewrite Hi.
  - unfold raise, Py_DecRef, set_native, log, put_handle, set_heap, set_next_id; simpl.
    rewrite insert_insert_eq, lookup_insert_eq. simpl.
    rewrite !insert_insert_eq, <- app_assoc. by rewrite Hi.
Qed.

Lemma BQ_same h f n T L i wt w w' :
  same_but_instance w w' -> BQ h f n T L i wt w -> BQ h f n T L i wt w'.
Proof.
  intros (Hh & _ & Hn & _ & _ & _ & Ht). unfold BQ. by rewrite Hh, Hn, Ht.
Qed.

Lemma BR_same h f n T L wt w w' :
  same_but_instance w w' -> BR h f n T L wt w -> BR h f n T L wt w'.
Proof.
  intros (Hh & _ & Hn & _ & _ & _ & Ht). unfold BR. by rewrite Hh, Hn, Ht.
Qed.

Lemma with_networkLock_eq {A} (body : M A) w s :
  instance w = Some s ->
  ChipStack.networkLock s = Some false ->
  with_networkLock body w =
    match body (set_instance (Some (ChipStack.set_networkLock (Some true) s)) w) with
    | (Pending, w') => (Pending, w')
    | (r, w') => (r, release_networkLock w')
    end.
Proof. intros Hi Hl. unfold with_networkLock, self_. by rewrite Hi, Hl. Qed.

(** A submitted handle is queued behind the tasks already in the queue. *)
Lemma submitted_BQ f w s :
  instance w = Some s ->
  ChipStack._ChipStackLib s = Some LibraryHandle ->
  stack_running (native w) = true ->
  Forall (fun x => x < next_id w) (queue (native w)) ->
  is_success (next_post_status w) = true ->
  let h := next_id w in
  exists w1, PostTaskOnChipThread f w = (Ret h, w1) /\
    BQ h f 1 (hevs RuntimeThread h (trace w)) (hevs LoopThread h (trace w))
       (length (queue (native w))) false w1 /\
    hevs CallerThread h (trace w1) = hevs CallerThread h (trace w) ++ [IncRef h] /\
    sched w1 = sched w.
Proof.
  intros Hi Hlib Hrun Hq Hc. cbv zeta.
  rewrite (PostTaskOnChipThread_eq f w s Hi Hlib Hrun). cbv zeta. rewrite Hc.
  eexists. split; [done|]. split; [|split; [|done]].
  - unfold BQ. simpl. rewrite lookup_insert_eq. split; [done|]. split; [done|]. split.
    + exists (queue (native w)), []. split; [done|]. split; [done|]. split; [|by apply not_elem_of_nil].
      intros Hin. rewrite Forall_forall in Hq. specialize (Hq _ Hin). lia.
    + rewrite !hevs_app, !(hevs_other_thread _ CallerThread _ [_]), !app_nil_r;
        try done; by repeat constructor.
  - simpl. by rewrite hevs_app, hevs_same.
Qed.

Lemma Call_spec f tmoMs w r w' :
  ready w ->
  is_success (next_post_status w) = true ->
  Call f tmoMs w = (r, w') ->
  let h := next_id w in
  let T := hevs RuntimeThread h (trace w) in
  let L := hevs LoopThread h (trace w) in
  let tmo := Wait_timeout tmoMs in
  (r = answer f /\ is_base f = false /\ BR h f 1 T L false w' /\
   (hevs CallerThread h (trace w') = hevs CallerThread h (trace w) ++ [IncRef h] \/
    hevs CallerThread h (trace w') =
      hevs CallerThread h (trace w) ++ [IncRef h; CvWait h tmo])) \/
  (hevs CallerThread h (trace w') = hevs CallerThread h (trace w) ++ [IncRef h; CvWait h tmo] /\
   ((r = Raise (Exc (TimeoutError timeout_message)) /\ tmoMs ≠ None /\
       (TimerExpires ∈ sched w \/ expired_at_once tmo = true) /\
       ((exists i', BQ h f 1 T L i' false w') \/ BR h f 1 T L false w')) \/
    (r = Pending /\ sched w' = [] /\
       ((exists i', BQ h f 1 T L i' true w' /\
                    i' + runs (sched w) = length (queue (native w))) \/
        (is_base f = true /\ BR h f 1 T L true w'))))).
Proof.
  intros (s & Hi & Hlock & Hlib & Hrun & Hq & _) Hc. cbv zeta.
  unfold Call. unfold bind at 1. rewrite (with_networkLock_eq _ w s Hi Hlock).
  set (wl := set_instance (Some (ChipStack.set_networkLock (Some true) s)) w).
  unfold bind at 1.
  destruct (submitted_BQ f wl (ChipStack.set_networkLock (Some true) s))
    as (w1 & Hpost & Hw1 & Hc1 & Hs1); try done.
  rewrite Hpost. change (next_id wl) with (next_id w) in *.
  change (trace wl) with (trace w) in *. change (queue (native wl)) with (queue (native w)) in *.
  change (sched wl) with (sched w) in *.
  destruct (Wait (next_id w) tmoMs w1) as [r2 w2] eqn:Hwait.
  pose proof (release_networkLock_same w2) as Hsame.
  assert (Ht : trace (release_networkLock w2) = trace w2) by apply Hsame.
  assert (Hsc : sched (release_networkLock w2) = sched w2) by apply Hsame.
  destruct (Wait_BQ _ _ _ _ _ _ _ _ _ _ Hw1 Hwait)
    as [(-> & Hb & Hr & Hcw)|(Hcw & [(-> & Hn & Hin & Hst)|(-> & Hsw & Hst)])].
  - assert ((r, w') = (answer f, release_networkLock w2) ->
            r = answer f /\ w' = release_networkLock w2) as Hinv by (by intros [= -> ->]).
    intros Heq. destruct Hinv as (-> & ->).
    { rewrite <- Heq. by destruct f as [v|[e|b]]. }
    left. split; [done|]. split; [done|]. split; [by apply (BR_same _ _ _ _ _ _ w2)|].
    rewrite Ht. destruct Hcw as [Hcw|Hcw]; rewrite Hcw, Hc1; [by left|right].
    by rewrite <- app_assoc.
  - simpl. intros [= <- <-]. rewrite Hs1 in Hin.
    right. rewrite Ht, Hcw, Hc1, <- app_assoc. split; [done|]. left.
    split; [done|]. split; [done|]. split; [done|].
    destruct Hst as [(i' & Hq')|Hr]; [left; exists i'|right].
    + by apply (BQ_same _ _ _ _ _ _ _ w2).
    + by apply (BR_same _ _ _ _ _ _ w2).
  - simpl. intros [= <- <-]. rewrite Hs1 in Hst.
    right. rewrite Hcw, Hc1, <- app_assoc. split; [done|]. right.
    split; [done|]. split; [done|]. done.
Qed.

Lemma ready_set_sched s w : ready w -> ready (set_sched s w).
Proof. done. Qed.

Lemma ready_started : ready started.
Proof.
  eexists. split; [reflexivity|]. repeat split; try reflexivity; apply Forall_nil_2.
Qed.

(** C1.  For every callback that returns [v], [Call] on a ready stack whose
    runtime accepts the submission: the caller gets [v], or is still waiting
    when the schedule ends, or (only with a timeout) gets the timeout error;
    when [v] is returned the callback was executed exactly once, by the runtime
    thread, which stored [v] in [_res]; the caller and the asyncio loop never
    execute it; and with no timer expiry and more [RunTask] moves than tasks
    queued before it, [Call] does return [v]. *)
Theorem Call_returns_value w v timeoutMs s r w' :
  ready w ->
  is_success (next_post_status w) = true ->
  run (Call (Returns v) timeoutMs) s w = (r, w') ->
  let h := next_id w in
  let trampoline := [ExecCallback h; WriteRes h v; SetFinish h; NotifyAll h; DecRef h] in
  (r = Ret v \/ r = Pending \/
   (r = Raise (Exc (TimeoutError timeout_message)) /\ timeoutMs ≠ None)) /\
  (r = Ret v ->
     hevs RuntimeThread h (trace w') = hevs RuntimeThread h (trace w) ++ trampoline /\
     heap w' !! h = Some (Blocking (AsyncCallableHandle.mk (Returns v) v None true false 0))) /\
  (hevs RuntimeThread h (trace w') = hevs RuntimeThread h (trace w) \/
   hevs RuntimeThread h (trace w') = hevs RuntimeThread h (trace w) ++ trampoline) /\
  (exists cw, hevs CallerThread h (trace w') = hevs CallerThread h (trace w) ++ IncRef h :: cw /\
              (cw = [] \/ cw = [CvWait h (Wait_timeout timeoutMs)])) /\
  hevs LoopThread h (trace w') = hevs LoopThread h (trace w) /\
  ((timeoutMs = None \/
    ((TimerExpires ∉ s) /\ expired_at_once (Wait_timeout timeoutMs) = false)) ->
   length (queue (native w)) < runs s -> r = Ret v).
Proof.
  intros Hready Hc Hrun. cbv zeta. unfold run in Hrun.
  destruct (Call_spec _ _ _ _ _ (ready_set_sched s w Hready) Hc Hrun)
    as [(-> & _ & (Hh & _ & HT & HL) & Hcw)|
        (Hcw & [(-> & Hn & Hin & Hst)|(-> & Hsw & Hst)])]; simpl in *.
  - split; [by left|]. split; [done|]. split; [by right|]. split; [|done].
    destruct Hcw as [Hcw|Hcw]; eexists; (split; [exact Hcw|]); auto.
  - split; [by right; right|]. split; [done|]. split.
    { destruct Hst as [(i' & _ & _ & _ & HT & _)|(_ & _ & HT & _)]; auto. }
    split; [eexists; split; [exact Hcw|by right]|]. split.
    { by destruct Hst as [(i' & _ & _ & _ & _ & HL)|(_ & _ & _ & HL)]. }
    intros [->|(Hnin & Hex)] _; [done|]. destruct Hin as [?|Hin]; [done|]. congruence.
  - split; [by right; left|]. split; [done|].
    destruct Hst as [(i' & (_ & _ & _ & HT & HL) & Hi')|([=] & _)].
    split; [by left|]. split; [eexists; split; [exact Hcw|by right]|]. split; [done|].
    intros _ Hlt. lia.
Qed.

Lemma Call_returns_value_witness :
  ready started /\
  fst (run (Call (Returns (VInt (2 + 2))) None) [RunTask] started) = Ret (VInt 4).
Proof.
  split; [exact ready_started|].
  destruct (run (Call (Returns (VInt (2 + 2))) None) [RunTask] started) as [r w'] eqn:Hrun.
  apply (Call_returns_value started (VInt (2 + 2)) None [RunTask] r w' ready_started
           eq_refl Hrun).
  - by left.
  - simpl. lia.
Defined.

(** C2 does not hold as stated: a callback may raise an exception that is
    not an instance of [Exception].  [KeyboardInterrupt] is not caught by the
    trampoline: once the trampoline has run, the failure slot is still empty
    and the completion flag unset, and [Call] does not re-raise the exception:
    the caller is still waiting when the schedule ends. *)
Lemma Call_BaseException_not_captured :
  let out := run (Call (Raises (Base KeyboardInterrupt)) None)
                 [RunTask; Resume; RunTask; TimerExpires] started in
  fst out = Pending /\
  hevs RuntimeThread 1 (trace (snd out)) = [ExecCallback 1] /\
  option_map failure_slot (heap (snd out) !! 1) = Some None /\
  finished 1 (snd out) = false.
Proof. by vm_compute. Qed.

(** C2, as the code has it.  For every callback that raises an instance [e]
    of [Exception], the class that the trampoline catches, [Call] never
    returns a value: the caller gets [e] re-raised, or is still waiting when
    the schedule ends, or (only with a timeout) gets the timeout error.  The
    trampoline, once it has run, has stored [e] in [_exc] (and nothing in
    [_res]) and set [_finish]; and with no timer expiry and more [RunTask]
    moves than tasks queued before it, [Call] does raise [e]. *)
Theorem Call_reraises_exception w e timeoutMs s r w' :
  ready w ->
  is_success (next_post_status w) = true ->
  run (Call (Raises (Exc e)) timeoutMs) s w = (r, w') ->
  let h := next_id w in
  let trampoline := [ExecCallback h; WriteExc h e; SetFinish h; NotifyAll h; DecRef h] in
  let captured := AsyncCallableHandle.mk (Raises (Exc e)) VNone (Some e) true false 0 in
  (r = Raise (Exc e) \/ r = Pending \/
   (r = Raise (Exc (TimeoutError timeout_message)) /\ timeoutMs ≠ None)) /\
  ((hevs RuntimeThread h (trace w') = hevs RuntimeThread h (trace w) /\
    exists wt, heap w' !! h = Some (Blocking (submitted (Raises (Exc e)) wt 1))) \/
   (hevs RuntimeThread h (trace w') = hevs RuntimeThread h (trace w) ++ trampoline /\
    heap w' !! h = Some (Blocking captured))) /\
  ((timeoutMs = None \/
    ((TimerExpires ∉ s) /\ expired_at_once (Wait_timeout timeoutMs) = false)) ->
   length (queue (native w)) < runs s ->
   r = Raise (Exc e) /\ heap w' !! h = Some (Blocking captured) /\
   hevs RuntimeThread h (trace w') = hevs RuntimeThread h (trace w) ++ trampoline).
Proof.
  intros Hready Hc Hrun. cbv zeta. unfold run in Hrun.
  destruct (Call_spec _ _ _ _ _ (ready_set_sched s w Hready) Hc Hrun)
    as [(-> & _ & (Hh & _ & HT & HL) & Hcw)|
        (Hcw & [(-> & Hn & Hin & Hst)|(-> & Hsw & Hst)])]; simpl in *.
  - split; [by left|]. split; [by right|]. done.
  - split; [by right; right|]. split.
    { destruct Hst as [(i' & Hh & _ & _ & HT & _)|(Hh & _ & HT & _)]; [left|right]; eauto. }
    intros [->|(Hnin & Hex)] _; [done|]. destruct Hin as [?|Hin]; [done|]. congruence.
  - split; [by right; left|].
    destruct Hst as [(i' & (Hh & _ & _ & HT & HL) & Hi')|([=] & _)].
    split; [left; eauto|]. intros _ Hlt. lia.
Qed.

Lemma Call_reraises_exception_witness :
  ready started /\
  fst (run (Call (Raises (Exc ZeroDivisionError)) None) [Resume; RunTask] started) =
    Raise (Exc ZeroDivisionError).
Proof.
  split; [exact ready_started|].
  destruct (run (Call (Raises (Exc ZeroDivisionError)) None) [Resume; RunTask] started)
    as [r w'] eqn:Hrun.
  apply (Call_reraises_exception started ZeroDivisionError None [Resume; RunTask] r w'
           ready_started eq_refl Hrun).
  - by left.
  - simpl. lia.
Defined.

Section blocking_prefix.
Variables (h : nat) (f : callable) (n : nat) (T L : list action).

End blocking_prefix.





(** C3.  Run the completion trampoline of a handle that is as [__init__]
    built it.  Completion is signalled unless the callback escaped with a
    [BaseException]; and when it is signalled exactly one slot was written:
    the result slot holds [v] and the failure slot is empty if the callback
    returned [v], the failure slot holds [e] and the result slot was left
    alone if it raised [e].  So the failure slot is non-empty if and only if
    the callback raised. *)
Theorem completion_writes_exactly_one_slot th h w f x :
  heap w !! h = Some x ->
  fresh_handle f x ->
  completion_signalled h w = false ->
  let w' := HandleChipThreadRun th h w in
  exists x' d,
    heap w' !! h = Some x' /\ trace w' = trace w ++ d /\
    completion_signalled h w' = negb (is_base f) /\
    (completion_signalled h w' = true ->
       length (slot_writes d) = 1 /\
       ((exists v, f = Returns v /\ slot_writes d = [WriteRes h v] /\
                   result_slot x' = v /\ failure_slot x' = None) \/
        (exists e, f = Raises (Exc e) /\ slot_writes d = [WriteExc h e] /\
                   failure_slot x' = Some e /\ result_slot x' = VNone)) /\
       (failure_slot x' ≠ None <-> exists t, f = Raises t)).
Proof.
  intros Hh Hfresh Hsig. cbv zeta. unfold HandleChipThreadRun. rewrite Hh.
  destruct Hfresh as [(wt & n & ->)|(n & ->)].
  - rewrite (AsyncCallableHandle__call__eq th h w _ Hh).
    eexists _, _. split; [simpl; apply lookup_insert_eq|]. split; [done|].
    unfold completion_signalled. simpl. rewrite lookup_insert_eq.
    destruct f as [v|[e|b]]; simpl; (split; [done|]); [intros _..|done].
    + split; [done|]. split; [left; by exists v|]. split; [done|]. by intros (t & ?).
    + split; [done|]. split; [right; by exists e|]. split; [by eexists|done].
  - rewrite (AsyncioCallableHandle__call__eq th h w _ Hh eq_refl).
    eexists _, _. split; [simpl; apply lookup_insert_eq|]. split; [done|].
    unfold completion_signalled in *. rewrite Hh in Hsig. simpl. rewrite lookup_insert_eq.
    apply bool_decide_eq_false in Hsig.
    destruct f as [v|[e|b]]; simpl.
    + split; [apply bool_decide_eq_true; apply elem_of_app; right; by left|]. intros _.
      split; [done|]. split; [left; by exists v|]. split; [done|]. by intros (t & ?).
    + split; [apply bool_decide_eq_true; apply elem_of_app; right; by left|]. intros _.
      split; [done|]. split; [right; by exists e|]. split; [by eexists|done].
    + split; [by apply bool_decide_eq_false|]. intros Hin. exfalso.
      by apply bool_decide_eq_true in Hin.
Qed.

Lemma completion_writes_exactly_one_slot_witness :
  heap posted !! 1 = Some (Blocking (submitted (Returns (VInt 4)) false 1)) /\
  exists x' d,
    heap (HandleChipThreadRun RuntimeThread 1 posted) !! 1 = Some x' /\
    trace (HandleChipThreadRun RuntimeThread 1 posted) = trace posted ++ d /\
    slot_writes d = [WriteRes 1 (VInt 4)] /\ result_slot x' = VInt 4 /\ failure_slot x' = None.
Proof.
  assert (Hh : heap posted !! 1 = Some (Blocking (submitted (Returns (VInt 4)) false 1)))
    by (by vm_compute).
  split; [exact Hh|].
  destruct (completion_writes_exactly_one_slot RuntimeThread 1 posted (Returns (VInt 4)) _ Hh)
    as (x' & d & Hx & Hd & Hsig & Hslots).
  - left. by exists false, 1.
  - by vm_compute.
  - exists x', d. split; [done|]. split; [done|].
    destruct (Hslots Hsig) as (_ & [(v & [= <-] & Hw & Hr & Hf)|(e & [=] & _)] & _).
    done.
Defined.

(** ** The singleton *)

(** C9.  Once a construction has returned an instance, every later
    construction, with any arguments, returns that same instance and leaves
    the world as it is, whatever happened to the instance in between. *)
Theorem ChipStack_singleton args1 args2 w0 r1 w1 :
  ChipStack_ args1 w0 = (Ret r1, w1) ->
  (exists o, instance w1 = Some o /\ ChipStack.ident o = r1) /\
  ChipStack_ args2 w1 = (Ret r1, w1) /\
  (forall w o, instance w = Some o -> ChipStack.ident o = r1 ->
               ChipStack_ args2 w = (Ret r1, w)).
Proof.
  unfold ChipStack_, _singleton, wrapper. intros H1.
  assert (Hlater : forall w o, instance w = Some o -> ChipStack.ident o = r1 ->
    match instance w with
    | Some o => (Ret (ChipStack.ident o), w)
    | None =>
        match ChipStack__init__ args2 w with
        | (Ret o, w') => (Ret (ChipStack.ident o), set_instance (Some o) w')
        | (Raise t, w') => (Raise t, w')
        | (Pending, w') => (Pending, w')
        end
    end = (Ret r1, w)).
  { intros w o Hi Hid. by rewrite Hi, Hid. }
  assert (exists o, instance w1 = Some o /\ ChipStack.ident o = r1) as (o & Hi & Hid).
  { destruct (instance w0) as [o|] eqn:Hi0.
    - injection H1 as <- <-. by exists o.
    - destruct (ChipStack__init__ args1 w0) as [[o| |] w'] eqn:Hinit; try done.
      injection H1 as <- <-. by exists o. }
  split; [by exists o|]. split; [by apply (Hlater w1 o)|]. exact Hlater.
Qed.

Lemma ChipStack_singleton_witness :
  ChipStack_ default_args (initial_world 0 []) = (Ret 0, started) /\
  ChipStack_ (mkArgs "/elsewhere" false (Some 1%Z) false) started = (Ret 0, started).
Proof.
  assert (H1 : ChipStack_ default_args (initial_world 0 []) = (Ret 0, started)) by done.
  split; [exact H1|].
  apply (ChipStack_singleton default_args (mkArgs "/elsewhere" false (Some 1%Z) false)
           (initial_world 0 []) 0 started H1).
Defined.

(** ** After [Shutdown] *)

Lemma Shutdown_shuts_down w0 w : Shutdown w0 = (Ret tt, w) -> is_shut_down w.
Proof.
  unfold Shutdown, bind, self_, set_self, modify, gets, raise.
  destruct (instance w0) as [s|] eqn:Hi; [|done].
  destruct (ChipStack._ChipStackLib s) as [[]|]; [|done]. simpl.
  destruct (ChipStack._persistentStorage s); [|done]. simpl. rewrite Hi. simpl.
  destruct (builtins_chipStack _); [|done]. intros [= <-]. by eexists.
Qed.

Lemma env_step_stopped m w :
  stack_running (native w) = false ->
  stack_running (native (env_step m w)) = false /\
  executions (trace (env_step m w)) = executions (trace w) /\
  queue (native (env_step m w)) = queue (native w).
Proof.
  intros Hrun. destruct m; simpl; try done.
  - unfold runtime_step. by rewrite Hrun.
  - unfold loop_step. destruct (loop_ready w) as [|x r]; [done|].
    destruct (_done_frame x (set_loop_ready r w)) as
      (_ & Hn & _ & _ & _ & _ & _ & _ & (d & Hd & _)).
    unfold _done in *. simpl in *.
    destruct (heap w !! x) as [[a|a]|]; simpl; try done.
    destruct (AsyncioCallableHandle._future a); simpl; try done.
    unfold executions. by rewrite List.filter_app, app_nil_r.
  - unfold complete. by destruct (instance w).
Qed.

Lemma preempt_stopped s w :
  stack_running (native w) = false ->
  executions (trace (preempt s w)) = executions (trace w).
Proof.
  revert w. induction s as [|m s IH]; intros w Hrun; simpl; [done|].
  destruct (env_step_stopped m w Hrun) as (H1 & H2 & _).
  destruct m; try done; rewrite IH; done.
Qed.

(** C6 does not hold as stated: after [Shutdown], [Call] fails with the
    [TypeError] of [with None:], which is not an error of the stack. *)
Lemma Call_after_Shutdown_is_TypeError :
  fst (Shutdown started) = Ret tt /\
  fst (run (Call (Returns (VInt 4)) None) [RunTask] shut_down) =
    Raise (Exc (TypeError "'NoneType' object does not support the context manager protocol")) /\
  ~ is_submission_error (fst (run (Call (Returns (VInt 4)) None) [RunTask] shut_down)).
Proof.
  split; [done|]. split; [done|]. by intros (code & [=]).
Qed.

(** C6, as the code has it.  After [Shutdown] has completed, each of the four
    operations fails at once, without consuming the schedule, with the error
    that Python raises on the cleared field: the [TypeError] of [with None:]
    for [Call], an [AttributeError] on [None] for the three others.  Nothing
    is queued and no callback is executed then or later. *)
Theorem dispatch_after_Shutdown w0 w f timeoutMs s :
  Shutdown w0 = (Ret tt, w) ->
  let h := next_id w in
  let no_post := none_has_no_attribute "pychip_DeviceController_PostTaskOnChipThread" in
  let quiet := fun (w' : World) =>
    sched w' = s /\ queue (native w') = queue (native w) /\
    forall s', executions (trace (preempt s' w')) = executions (trace w) in
  (exists w', run (Call f timeoutMs) s w = (Raise (Exc none_is_no_context_manager), w') /\
              quiet w' /\ trace w' = trace w) /\
  (exists w', run (CallAsyncWithCompleteCallback f) s w =
                (Raise (Exc (none_has_no_attribute "clear")), w') /\
              quiet w' /\ trace w' = trace w) /\
  (exists w', run (PostTaskOnChipThread f) s w = (Raise (Exc no_post), w') /\
              quiet w' /\ trace w' = trace w ++ [(CallerThread, IncRef h)]) /\
  (exists w', run (CallAsync f timeoutMs) s w = (Raise (Exc no_post), w') /\
              quiet w' /\ trace w' = trace w ++ [(CallerThread, IncRef h)]).
Proof.
  intros Hsd. destruct (Shutdown_shuts_down _ _ Hsd) as (st & Hi & Hlock & Hev & Hlib & Hres & Hrun).
  cbv zeta. unfold run.
  split; [|split; [|split]].
  - eexists. split.
    + unfold Call, bind, with_networkLock, self_. simpl. rewrite Hi, Hlock. done.
    + split; [|done]. split; [done|]. split; [done|]. intros s'. by rewrite preempt_stopped.
  - eexists. split.
    + unfold CallAsyncWithCompleteCallback, completeEvent_clear, completeEvent_put, bind,
        set_self, self_. simpl. rewrite Hi. simpl. rewrite Hev. done.
    + split; [|done]. split; [done|]. split; [done|]. intros s'. by rewrite preempt_stopped.
  - eexists. split.
    + unfold PostTaskOnChipThread, bind, new_object, modify,
        pychip_DeviceController_PostTaskOnChipThread, self_, bind.
      unfold Py_IncRef. simpl. rewrite lookup_insert_eq. simpl. rewrite Hi, Hlib. done.
    + split; [|done]. split; [done|]. split; [done|]. intros s'.
      rewrite preempt_stopped by done. simpl. unfold executions.
      by rewrite List.filter_app, app_nil_r.
  - eexists. split.
    + unfold CallAsync, bind, new_object, modify,
        pychip_DeviceController_PostTaskOnChipThread, self_, bind.
      unfold Py_IncRef. simpl. rewrite lookup_insert_eq. simpl. rewrite Hi, Hlib. done.
    + split; [|done]. split; [done|]. split; [done|]. intros s'.
      rewrite preempt_stopped by done. simpl. unfold executions.
      by rewrite List.filter_app, app_nil_r.
Qed.

Lemma dispatch_after_Shutdown_witness :
  Shutdown started = (Ret tt, shut_down) /\
  exists w', run (PostTaskOnChipThread (Returns (VInt 4))) [RunTask] shut_down =
    (Raise (Exc (none_has_no_attribute "pychip_DeviceController_PostTaskOnChipThread")), w') /\
    executions (trace (preempt [RunTask; RunTask] w')) = executions (trace shut_down).
Proof.
  assert (Hsd : Shutdown started = (Ret tt, shut_down)) by done.
  split; [exact Hsd|].
  destruct (dispatch_after_Shutdown started shut_down (Returns (VInt 4)) None [RunTask] Hsd)
    as (_ & _ & (w' & Hpost & (_ & _ & Hquiet) & _) & _).
  exists w'. split; [exact Hpost|]. apply Hquiet.
Defined.

(** C5: the second cycle starts while the first is in flight, and is not
    refused.  The first call is suspended in its poll loop (submitted, not
    completed).  The second call clears the shared event and slot, submits,
    and returns the one completion [VInt 1] that the runtime delivers; the
    first caller, resumed afterwards, reads the same value from the shared
    slot. *)
Lemma CallAsyncWithCompleteCallback_overlap :
  let first := run (CallAsyncWithCompleteCallback (Returns (PyChipError 0)))
                   [RunTask; Resume] started in
  let second := run (CallAsyncWithCompleteCallback (Returns (PyChipError 0)))
                    [RunTask; Resume; Complete (VInt 1)] (snd first) in
  fst first = Pending /\
  event_is_set (snd first) = false /\
  fst second = Ret (VInt 1) /\
  fst (run AwaitCompletion [] (snd second)) = Ret (VInt 1).
Proof. vm_compute. done. Qed.

(** ** The poll loop of [CallAsyncWithCompleteCallback] *)

Lemma caller_log_app t1 t2 : caller_log (t1 ++ t2) = caller_log t1 ++ caller_log t2.
Proof. unfold caller_log. by rewrite List.filter_app, map_app. Qed.

Lemma caller_log_other th d :
  th ≠ CallerThread -> Forall (fun o => fst o = th) d -> caller_log d = [].
Proof.
  intros Hne Hd. induction Hd as [|o d Ho _ IH]; [done|].
  unfold caller_log in *. simpl. rewrite Ho.
  by rewrite (bool_decide_eq_false_2 (th = CallerThread)).
Qed.

Lemma poll_frame cbo w w' :
  poll_ready cbo w -> instance w' = instance w ->
  poll_ready cbo w' /\ event_is_set w' = event_is_set w /\ stored_value w' = stored_value w.
Proof.
  intros (st & Hi & Hrest) Hi'. unfold poll_ready, event_is_set, stored_value.
  rewrite Hi'. split; [by exists st|done].
Qed.

Lemma env_step_instance m w :
  (forall v, m ≠ Complete v) -> instance (env_step m w) = instance w.
Proof.
  intros Hm. destruct m; simpl; try done.
  - unfold runtime_step. destruct (stack_running (native w)); [|done].
    destruct (queue (native w)) as [|x q]; [done|].
    by destruct (HandleChipThreadRun_frame RuntimeThread x
                   (set_native (set_queue q (native w)) w)) as (Hi' & _).
  - unfold loop_step. destruct (loop_ready w) as [|x r]; [done|].
    by destruct (_done_frame x (set_loop_ready r w)) as (Hi' & _).
  - by destruct (Hm v).
Qed.

Lemma env_step_caller_log m w : caller_log (trace (env_step m w)) = caller_log (trace w).
Proof.
  destruct m; simpl; try done.
  - unfold runtime_step. destruct (stack_running (native w)); [|done].
    destruct (queue (native w)) as [|x q]; [done|].
    destruct (HandleChipThreadRun_frame RuntimeThread x (set_native (set_queue q (native w)) w))
      as (_ & _ & _ & _ & _ & _ & (d & Hd & _ & Hth) & _).
    simpl in *. by rewrite Hd, caller_log_app, (caller_log_other RuntimeThread d), app_nil_r.
  - unfold loop_step. destruct (loop_ready w) as [|x r]; [done|].
    destruct (_done_frame x (set_loop_ready r w)) as
      (_ & _ & _ & _ & _ & _ & _ & _ & (d & Hd & _ & Hth & _)).
    simpl in *. by rewrite Hd, caller_log_app, (caller_log_other LoopThread d), app_nil_r.
  - unfold complete. by destruct (instance w).
Qed.

Lemma env_step_poll cbo m w :
  poll_ready cbo w ->
  poll_ready cbo (env_step m w) /\
  (event_is_set w = true -> event_is_set (env_step m w) = true) /\
  (forall v, m = Complete v ->
     event_is_set (env_step m w) = true /\ stored_value (env_step m w) = v) /\
  ((forall v, m ≠ Complete v) ->
     event_is_set (env_step m w) = event_is_set w /\
     stored_value (env_step m w) = stored_value w).
Proof.
  intros Hw.
  assert (Hother : (forall v, m ≠ Complete v) ->
    poll_ready cbo (env_step m w) /\ event_is_set (env_step m w) = event_is_set w /\
    stored_value (env_step m w) = stored_value w).
  { intros Hm. apply poll_frame; [done|]. by apply env_step_instance. }
  destruct m; try (destruct Hother as (H1 & H2 & H3); [done|];
                   split; [done|]; split; [congruence|]; split; [done|]; done).
  clear Hother. destruct Hw as (st & Hi & Hcb & Hev & Hret).
  simpl. unfold complete, poll_ready, event_is_set, stored_value. rewrite Hi. simpl.
  destruct (ChipStack.completeEvent st) as [b|] eqn:Hb; [|done]. simpl.
  split; [eexists; split; [done|]; by repeat split|]. split; [done|].
  split; [by intros ? [= <-]|]. intros Hne. by destruct (Hne v).
Qed.

Lemma preempt_poll cbo s w :
  poll_ready cbo w ->
  poll_ready cbo (preempt s w) /\
  caller_log (trace (preempt s w)) = caller_log (trace w) /\
  (event_is_set w = true -> event_is_set (preempt s w) = true) /\
  length (sched (preempt s w)) <= length s.
Proof.
  revert w. induction s as [|m s IH]; intros w Hw; simpl.
  - by repeat split.
  - destruct (env_step_poll cbo m w Hw) as (H1 & H3 & _).
    pose proof (env_step_caller_log m w) as H2.
    destruct (IH _ H1) as (I1 & I2 & I3 & I4).
    destruct m; simpl in *; (split; [done|]; split; [congruence|]; split; [auto|lia]).
Qed.

Lemma event_block_spec cbo s w r w' :
  poll_ready cbo w -> event_is_set w = false ->
  event_block s w = (r, w') ->
  poll_ready cbo w' /\ caller_log (trace w') = caller_log (trace w) /\
  ((r = Pending /\ sched w' = [] /\ event_is_set w' = false) \/
   (exists b, r = Ret b /\ length (sched w') < length s)).
Proof.
  revert w. induction s as [|m s IH]; intros w Hw Hev; simpl.
  - intros [= <- <-]. split; [done|]. split; [done|]. by left.
  - assert (Hgen :
      (let w1 := env_step m w in
       if event_is_set w1 then (Ret true, preempt s w1) else event_block s w1) = (r, w') ->
      poll_ready cbo w' /\ caller_log (trace w') = caller_log (trace w) /\
      ((r = Pending /\ sched w' = [] /\ event_is_set w' = false) \/
       (exists b, r = Ret b /\ length (sched w') < S (length s)))).
    { simpl. destruct (env_step_poll cbo m w Hw) as (H1 & _).
      pose proof (env_step_caller_log m w) as H2.
      destruct (event_is_set (env_step m w)) eqn:Hev1.
      - intros [= <- <-]. destruct (preempt_poll cbo s _ H1) as (I1 & I2 & _ & I4).
        split; [done|]. split; [congruence|]. right. exists true. split; [done|]. lia.
      - intros Heq. destruct (IH _ H1 Hev1 Heq) as (I1 & I2 & [I3|(b & -> & I3)]).
        + split; [done|]. split; [congruence|]. by left.
        + split; [done|]. split; [congruence|]. right. exists b. split; [done|]. lia. }
    destruct m; try (by apply Hgen).
    intros [= <- <-]. destruct (preempt_poll cbo s _ Hw) as (I1 & I2 & _ & I4).
    split; [done|]. split; [done|]. right. exists false. split; [done|]. lia.
Qed.

Lemma poll_loop_exit cbo fuel w :
  poll_ready cbo w -> event_is_set w = true -> poll_loop (S fuel) w = (Ret tt, w).
Proof.
  intros (st & Hi & _ & Hne & _) Hev. unfold event_is_set in Hev. rewrite Hi in Hev.
  simpl. unfold bind, completeEvent_isSet, bind, self_. rewrite Hi.
  destruct (ChipStack.completeEvent st) as [b|]; [|done]. by subst.
Qed.

Lemma poll_loop_step cbo fuel w :
  poll_ready cbo w -> event_is_set w = false ->
  poll_loop (S fuel) w =
    match event_block (sched w)
            (log CallerThread (EventWait pollInterval) (log_blockingCB cbo w)) with
    | (Ret _, w2) => poll_loop fuel w2
    | (Raise t, w2) => (Raise t, w2)
    | (Pending, w2) => (Pending, w2)
    end.
Proof.
  intros (st & Hi & Hcb & Hne & Hret) Hev. unfold event_is_set in Hev. rewrite Hi in Hev.
  simpl. unfold bind, completeEvent_isSet, bind, self_. rewrite Hi.
  destruct (ChipStack.completeEvent st) as [b|] eqn:Hb; [|done]. subst b. simpl.
  unfold call_blockingCB, completeEvent_wait, bind, self_, modify. rewrite Hi, Hcb.
  destruct Hret as [->|(x & ->)]; simpl; rewrite Hi, Hb; simpl; done.
Qed.

Lemma poll_loop_spec cbo fuel w r w' :
  poll_ready cbo w -> length (sched w) < fuel ->
  poll_loop fuel w = (r, w') ->
  exists k,
    caller_log (trace w') = caller_log (trace w) ++ concat (replicate k (poll_iteration cbo)) /\
    poll_ready cbo w' /\
    ((r = Pending /\ sched w' = [] /\ event_is_set w' = false /\ 0 < k) \/
     (r = Ret tt /\ event_is_set w' = true)).
Proof.
  revert w. induction fuel as [|fuel IH]; intros w Hw Hlen; [lia|].
  destruct (event_is_set w) eqn:Hev.
  - rewrite (poll_loop_exit cbo fuel w Hw Hev). intros [= <- <-]. exists 0.
    simpl. rewrite app_nil_r. split; [done|]. split; [done|]. by right.
  - rewrite (poll_loop_step cbo fuel w Hw Hev).
    set (w1 := log CallerThread (EventWait pollInterval) (log_blockingCB cbo w)).
    assert (poll_ready cbo w1 /\ event_is_set w1 = false /\
            caller_log (trace w1) = caller_log (trace w) ++ poll_iteration cbo /\
            sched w1 = sched w) as (Hw1 & Hev1 & Hlog1 & Hs1).
    { unfold w1, log_blockingCB, poll_iteration. destruct Hw as (st & Hi & Hcb & Hne & Hret).
      destruct cbo; simpl; unfold poll_ready, event_is_set in *; simpl; rewrite ?Hi in *;
        (split; [by exists st|]); (split; [done|]); (split; [|done]);
        rewrite ?caller_log_app, <- ?app_assoc; done. }
    rewrite <- Hs1.
    destruct (event_block (sched w1) w1) as [rb w2] eqn:Hblock.
    destruct (event_block_spec cbo _ _ _ _ Hw1 Hev1 Hblock) as (Hw2 & Hlog2 & [(-> & Hs2 & Hev2)|(b & -> & Hlt)]).
    + intros [= <- <-]. exists 1. simpl. rewrite app_nil_r.
      split; [congruence|]. split; [done|]. left. repeat split; try done. lia.
    + intros Hrec. rewrite Hs1 in Hlt.
      destruct (IH w2 Hw2 ltac:(lia) Hrec) as (k & Hlog & Hw' & Hres).
      exists (S k). simpl. rewrite Hlog, Hlog2, Hlog1, <- app_assoc.
      split; [done|]. split; [done|].
      destruct Hres as [(? & ? & ? & ?)|?]; [left|by right]. repeat split; try done. lia.
Qed.

Lemma AwaitCompletion_tail w :
  (s <- self_ ;;
   if isinstance_ChipStackException (ChipStack.callbackRes s) then
     match ChipStack.callbackRes s with
     | VExc e => raise (Exc e)
     | _ => raise (Exc (TypeError "exceptions must derive from BaseException"))
     end
   else ret (ChipStack.callbackRes s)) w =
  match instance w with
  | Some s => (stored_outcome (ChipStack.callbackRes s), w)
  | None => (Raise (Exc (AttributeError "no ChipStack instance")), w)
  end.
Proof.
  unfold bind, self_. destruct (instance w) as [s|]; [|done].
  unfold stored_outcome. by destruct (ChipStack.callbackRes s) as [| | | | |[]].
Qed.

Lemma AwaitCompletion_unfold w :
  AwaitCompletion w =
    match poll_loop (S (length (sched w))) w with
    | (Ret _, w') =>
        match instance w' with
        | Some s => (stored_outcome (ChipStack.callbackRes s), w')
        | None => (Raise (Exc (AttributeError "no ChipStack instance")), w')
        end
    | (Raise t, w') => (Raise t, w')
    | (Pending, w') => (Pending, w')
    end.
Proof.
  unfold AwaitCompletion. unfold bind at 1. unfold gets. unfold bind at 1.
  destruct (poll_loop (S (length (sched w))) w) as [[[]| |] w1]; try done.
  apply AwaitCompletion_tail.
Qed.

Lemma length_elapse_then_complete n v : length (elapse_then_complete n v) = 2 * n + 1.
Proof.
  unfold elapse_then_complete. rewrite length_app. simpl.
  induction n as [|n IH]; simpl in *; lia.
Qed.

Lemma poll_elapse cbo n v fuel w :
  n + 2 <= fuel -> poll_ready cbo w -> event_is_set w = false ->
  sched w = elapse_then_complete n v ->
  exists w', poll_loop fuel w = (Ret tt, w') /\ poll_ready cbo w' /\ stored_value w' = v /\
    caller_log (trace w') =
      caller_log (trace w) ++ concat (replicate (S n) (poll_iteration cbo)).
Proof.
  revert fuel w. induction n as [|n IH]; intros fuel w Hfuel Hw Hev Hs.
  - destruct fuel as [|[|fuel]]; try lia.
    rewrite (poll_loop_step cbo _ w Hw Hev), Hs.
    set (w1 := log CallerThread (EventWait pollInterval) (log_blockingCB cbo w)).
    assert (poll_ready cbo w1 /\
            caller_log (trace w1) = caller_log (trace w) ++ poll_iteration cbo)
      as (Hw1 & Hlog1).
    { unfold w1, log_blockingCB, poll_iteration. destruct Hw as (st & Hi & Hcb & Hne & Hret).
      destruct cbo; simpl; unfold poll_ready; simpl; rewrite ?Hi;
        (split; [by exists st|]); rewrite ?caller_log_app, <- ?app_assoc; done. }
    unfold elapse_then_complete. cbn [replicate concat app event_block env_step preempt].
    destruct (env_step_poll cbo (Complete v) w1 Hw1) as (Hw2 & _ & Hc & _).
    destruct (Hc v eq_refl) as (Hset & Hval). simpl in Hset, Hval, Hw2. rewrite Hset.
    rewrite (poll_loop_exit cbo fuel (set_sched [] (complete v w1))); [|done|done].
    eexists. split; [done|]. split; [done|]. split; [done|].
    simpl. rewrite app_nil_r.
    pose proof (env_step_caller_log (Complete v) w1) as Hl. simpl in Hl. by rewrite Hl.
  - destruct fuel as [|fuel]; try lia.
    rewrite (poll_loop_step cbo _ w Hw Hev), Hs.
    set (w1 := log CallerThread (EventWait pollInterval) (log_blockingCB cbo w)).
    assert (poll_ready cbo w1 /\ event_is_set w1 = false /\
            caller_log (trace w1) = caller_log (trace w) ++ poll_iteration cbo)
      as (Hw1 & Hev1 & Hlog1).
    { unfold w1, log_blockingCB, poll_iteration. destruct Hw as (st & Hi & Hcb & Hne & Hret).
      destruct cbo; simpl; unfold poll_ready, event_is_set in *; simpl; rewrite ?Hi in *;
        (split; [by exists st|]); (split; [done|]);
        rewrite ?caller_log_app, <- ?app_assoc; done. }
    change (elapse_then_complete (S n) v)
      with (TimerExpires :: Resume :: elapse_then_complete n v).
    cbn [event_block preempt].
    destruct (IH fuel (set_sched (elapse_then_complete n v) w1)) as (w' & Hloop & Hw' & Hv & Hlog);
      [lia|done|done|done|].
    exists w'. split; [done|]. split; [done|]. split; [done|].
    rewrite Hlog.
    change (trace (set_sched (elapse_then_complete n v) w1)) with (trace w1).
    by rewrite Hlog1, <- app_assoc.
Qed.

(** C8.  The poll loop after the submission, for an instance whose blocking
    callback (if one is registered) returns.  Whatever the schedule, the
    caller's log grows by a whole number of passes, each one call of the
    blocking callback (when registered) followed by one wait on the event for
    the poll interval; the caller is either still polling when the schedule
    ends, or the event is set and the stored value is raised if it is a
    [ChipStackException] and returned otherwise.  No number of elapsed poll
    intervals ends the loop: after [n] of them the completion with [v] is still
    awaited and delivered, in pass [n + 1]. *)
Theorem AwaitCompletion_polls cbo w s r w' :
  poll_ready cbo w ->
  run AwaitCompletion s w = (r, w') ->
  (exists k,
     caller_log (trace w') = caller_log (trace w) ++ concat (replicate k (poll_iteration cbo)) /\
     ((r = Pending /\ event_is_set w' = false /\ 0 < k) \/
      (event_is_set w' = true /\ r = stored_outcome (stored_value w')))) /\
  (forall n v, event_is_set w = false ->
     exists w2, run AwaitCompletion (elapse_then_complete n v) w = (stored_outcome v, w2) /\
       caller_log (trace w2) =
         caller_log (trace w) ++ concat (replicate (S n) (poll_iteration cbo))).
Proof.
  intros Hw Hrun. split.
  - unfold run in Hrun. rewrite AwaitCompletion_unfold in Hrun.
    destruct (poll_loop _ _) as [rl w1] eqn:Hloop.
    destruct (poll_loop_spec cbo _ (set_sched s w) rl w1 Hw (Nat.lt_succ_diag_r _) Hloop)
      as (k & Hlog & Hw1 & [(-> & Hs & Hev & Hk)|(-> & Hev)]).
    + injection Hrun as <- <-. exists k. split; [done|]. by left.
    + destruct Hw1 as (st & Hi & _). rewrite Hi in Hrun. injection Hrun as <- <-.
      exists k. split; [done|]. right. split; [done|]. unfold stored_value. by rewrite Hi.
  - intros n v Hev. unfold run. rewrite AwaitCompletion_unfold.
    destruct (poll_elapse cbo n v (S (length (sched (set_sched (elapse_then_complete n v) w))))
                (set_sched (elapse_then_complete n v) w)) as (w2 & Hloop & Hw2 & Hv & Hlog);
      try done.
    { simpl. rewrite length_elapse_then_complete. lia. }
    rewrite Hloop. destruct Hw2 as (st & Hi & _). rewrite Hi.
    unfold stored_value in Hv. rewrite Hi in Hv. rewrite Hv. by exists w2.
Qed.

Lemma AwaitCompletion_polls_witness :
  let w := with_blockingCB (Returns VNone) started in
  poll_ready (Some (Returns VNone)) w /\
  exists w2, run AwaitCompletion (elapse_then_complete 2 (VInt 7)) w = (Ret (VInt 7), w2) /\
    caller_log (trace w2) =
      caller_log (trace w) ++
      [BlockingCB; EventWait pollInterval; BlockingCB; EventWait pollInterval;
       BlockingCB; EventWait pollInterval].
Proof.
  cbv zeta. set (w := with_blockingCB (Returns VNone) started).
  assert (Hw : poll_ready (Some (Returns VNone)) w).
  { eexists. split; [reflexivity|]. split; [done|]. split; [done|]. right. by eexists. }
  split; [exact Hw|].
  destruct (run AwaitCompletion [] w) as [r w'] eqn:Hrun.
  destruct (AwaitCompletion_polls (Some (Returns VNone)) w [] r w' Hw Hrun) as (_ & Hn).
  destruct (Hn 2 (VInt 7) eq_refl) as (w2 & H2 & Hlog). by exists w2.
Defined.

(** ** The asyncio handle *)

Lemma queued_at_head h i q : queued_at h i (h :: q) -> i = 0 /\ h ∉ q.
Proof.
  intros (q1 & q2 & Hq & Hlen & H1 & H2). destruct q1 as [|x q1]; simpl in *.
  - injection Hq as ->. by subst.
  - injection Hq as -> _. exfalso. apply H1. by left.
Qed.

Lemma queued_at_tail h i x q :
  queued_at h i (x :: q) -> x ≠ h -> exists i', i = S i' /\ queued_at h i' q.
Proof.
  intros (q1 & q2 & Hq & Hlen & H1 & H2) Hne. destruct q1 as [|y q1]; simpl in *.
  - by injection Hq as -> _.
  - injection Hq as -> ->. exists (length q1). split; [done|].
    exists q1, q2. repeat split; try done. intros Hin. apply H1. by right.
Qed.

Lemma queued_at_snoc h i x q : queued_at h i q -> x ≠ h -> queued_at h i (q ++ [x]).
Proof.
  intros (q1 & q2 & -> & Hlen & H1 & H2) Hne. exists q1, (q2 ++ [x]).
  rewrite <- app_assoc. repeat split; try done.
  intros [Hin|Hin]%elem_of_app; [done|]. apply list_elem_of_singleton in Hin. congruence.
Qed.

Lemma queued_at_here h q : h ∉ q -> queued_at h (length q) (q ++ [h]).
Proof. intros Hq. exists q, []. repeat split; try done. apply not_elem_of_nil. Qed.

Lemma queued_at_in h i q : queued_at h i q -> h ∈ q.
Proof. intros (q1 & q2 & -> & _). apply elem_of_app. right. by left. Qed.

Lemma not_in_tl (h : nat) q : h ∉ q -> h ∉ tl q.
Proof. destruct q; [done|]. simpl. intros Hn Hin. apply Hn. by right. Qed.

Lemma not_in_snoc (h x : nat) q : h ∉ q -> x ≠ h -> h ∉ q ++ [x].
Proof.
  intros Hn Hne [Hin|Hin]%elem_of_app; [done|]. apply list_elem_of_singleton in Hin. congruence.
Qed.

Lemma after_call_asyncio_set_future fut a :
  after_call_asyncio (AsyncioCallableHandle.set_future fut a) =
  AsyncioCallableHandle.set_future fut (after_call_asyncio a).
Proof.
  unfold after_call_asyncio. destruct a as [[v|[e|b]] ? ? ? ? ?]; done.
Qed.

Section asyncio.
Variables (h : nat) (f : callable) (T L : list action).

Lemma env_step_AP m st c w :
  AP h f T L st c w -> AP h f T L (next_stage f m st w) c (env_step m w).
Proof.
  intros (Hh & HT & HL & Hst).
  destruct (env_step_frame m w h) as (_ & _ & _ & Hrun' & _ & Hq' & _ & Hcase).
  destruct Hcase as [(-> & Hrun & q & Hqh & Hw')|[(-> & r & Hr & Hw')|(Hheap & Hev & Hhd & Hloop)]].
  - (* the trampoline of [h] runs *)
    destruct st as [i|j|].
    2:{ destruct Hst as (Hnq & _). rewrite Hqh in Hnq. exfalso. apply Hnq. by left. }
    2:{ destruct Hst as (_ & Hnq & _). rewrite Hqh in Hnq. exfalso. apply Hnq. by left. }
    destruct Hst as (_ & Hqa & Hnl). rewrite Hqh in Hqa.
    destruct (queued_at_head _ _ _ Hqa) as (-> & Hnq). simpl next_stage.
    unfold HandleChipThreadRun in Hw'. simpl in Hw'. rewrite Hh in Hw'.
    rewrite (AsyncioCallableHandle__call__eq _ _ _ (stage_handle f (Queued 0) c)) in Hw' by done.
    simpl in Hw'. unfold AP. change (env_step RunTask w) with (runtime_step w).
    rewrite Hw'. simpl. rewrite lookup_insert_eq.
    split; [|split; [|split; [|split]]].
    + unfold stage_handle, ran_handle. by rewrite after_call_asyncio_set_future.
    + rewrite hevs_app, hevs_map_pair by apply tramp_asyncio_about.
      rewrite HT. by rewrite app_nil_r.
    + rewrite hevs_app, (hevs_other_thread LoopThread RuntimeThread h (map _ _));
        [by rewrite app_nil_r|done|].
      apply Forall_map. by apply Forall_true.
    + done.
    + destruct (is_base f); [done|]. by apply queued_at_here.
  - (* [_done h] runs *)
    destruct st as [i|j|].
    1:{ destruct Hst as (_ & _ & Hnl). rewrite Hr in Hnl. exfalso. apply Hnl. by left. }
    2:{ destruct Hst as (_ & _ & Hnl). rewrite Hr in Hnl. exfalso. apply Hnl. by left. }
    destruct Hst as (Hnq & Hl). destruct (is_base f) eqn:Hb.
    { rewrite Hr in Hl. exfalso. apply Hl. by left. }
    rewrite Hr in Hl. destruct (queued_at_head _ _ _ Hl) as (-> & Hnr).
    simpl next_stage. rewrite Hb. unfold AP. rewrite Hw'.
    destruct c.
    + (* the future was cancelled: [_done] changes nothing *)
      unfold _done. simpl. rewrite Hh. simpl.
      split; [done|]. split; [done|]. split; [done|]. done.
    + rewrite (_done_eq h (set_loop_ready r w) (stage_handle f (Ran 0) false)); [|done|done].
      simpl. rewrite lookup_insert_eq.
      split; [|split; [|split; [|done]]].
      * unfold stage_handle, resolution. by destruct (ran_handle f).
      * rewrite hevs_app, (hevs_other_thread RuntimeThread LoopThread h [_]);
          [by rewrite app_nil_r|done|by repeat constructor].
      * rewrite hevs_app, hevs_same by done. by rewrite HL, app_nil_r.
  - (* something else happens *)
    unfold AP. rewrite Hheap, !Hev, Hrun', Hq'.
    destruct st as [i|j|].
    + destruct Hst as (Hrun & Hqa & Hnl).
      destruct m; simpl next_stage; try (split; [exact Hh|]; split; [done|]; split; [done|];
        split; [done|]; split; [done|]; by rewrite Hloop).
      * rewrite Hrun. specialize (Hhd eq_refl Hrun).
        destruct (queue (native w)) as [|x q] eqn:Hq.
        { exfalso. apply queued_at_in in Hqa. by apply not_elem_of_nil in Hqa. }
        assert (x ≠ h) as Hne by (simpl in Hhd; congruence).
        destruct (queued_at_tail _ _ _ _ Hqa Hne) as (i' & -> & Hqa').
        split; [exact Hh|]. split; [done|]. split; [done|]. split; [done|]. split; [done|].
        destruct Hloop as [->|(y & Hy & ->)]; [done|]. by apply not_in_snoc.
      * destruct Hloop as (-> & _).
        split; [exact Hh|]. split; [done|]. split; [done|]. split; [done|]. split; [done|].
        by apply not_in_tl.
    + destruct Hst as (Hnq & Hl).
      assert (Hnq' : h ∉ match m with
                         | RunTask => if stack_running (native w) then tl (queue (native w))
                                      else queue (native w)
                         | _ => queue (native w)
                         end).
      { destruct m; try done. destruct (stack_running (native w)); [|done]. by apply not_in_tl. }
      destruct m; simpl next_stage.
      * destruct j; (split; [exact Hh|]; split; [done|]; split; [done|]; split; [done|]);
          destruct (is_base f);
          destruct Hloop as [->|(y & Hy & ->)]; try done;
          try (by apply not_in_snoc); by apply queued_at_snoc.
      * destruct Hloop as (-> & Hhead). destruct (is_base f) eqn:Hb.
        -- destruct j; rewrite ?Hb; (split; [exact Hh|]; split; [done|]; split; [done|];
             split; [done|]); rewrite ?Hb; by apply not_in_tl.
        -- destruct (loop_ready w) as [|x r] eqn:Hr.
           { exfalso. apply queued_at_in in Hl. by apply not_elem_of_nil in Hl. }
           assert (x ≠ h) as Hne by (simpl in Hhead; congruence).
           destruct (queued_at_tail _ _ _ _ Hl Hne) as (j' & -> & Hl').
           split; [exact Hh|]. split; [done|]. split; [done|]. split; [done|]. done.
      * destruct j; (split; [exact Hh|]; split; [done|]; split; [done|]; split; [done|]);
          by rewrite Hloop.
      * destruct j; (split; [exact Hh|]; split; [done|]; split; [done|]; split; [done|]);
          by rewrite Hloop.
      * destruct j; (split; [exact Hh|]; split; [done|]; split; [done|]; split; [done|]);
          by rewrite Hloop.
    + destruct Hst as (Hb & Hnq & Hnl).
      assert (Hnq' : h ∉ match m with
                         | RunTask => if stack_running (native w) then tl (queue (native w))
                                      else queue (native w)
                         | _ => queue (native w)
                         end).
      { destruct m; try done. destruct (stack_running (native w)); [|done]. by apply not_in_tl. }
      destruct m; simpl next_stage; (split; [exact Hh|]; split; [done|]; split; [done|];
        split; [done|]; split; [done|]).
      * destruct Hloop as [->|(y & Hy & ->)]; [done|]. by apply not_in_snoc.
      * destruct Hloop as (-> & _). by apply not_in_tl.
      * by rewrite Hloop.
      * by rewrite Hloop.
      * by rewrite Hloop.
Qed.
End asyncio.

Section asyncio_await.
Variables (h : nat) (f : callable) (T L : list action).

Lemma get_future_AP st c w :
  AP h f T L st c w ->
  get_future h w =
    if c then FCancelled
    else match st with Resolved => resolution (ran_handle f) | _ => FPending end.
Proof. intros (Hh & _). unfold get_future. rewrite Hh. done. Qed.

Lemma resolution_ran_handle :
  is_base f = false ->
  match resolution (ran_handle f) with
  | FResult v => answer f = Ret v
  | FException e => answer f = Raise (Exc e)
  | _ => False
  end.
Proof. destruct f as [v|[e|b]]; done. Qed.

Lemma cancel_future_AP st c w :
  AP h f T L st c w -> st ≠ Resolved ->
  AP h f T L st true (cancel_future h w) /\
  trace (cancel_future h w) = trace w /\ sched (cancel_future h w) = sched w.
Proof.
  intros (Hh & HT & HL & Hst) Hne. unfold cancel_future. rewrite Hh.
  destruct c; simpl.
  - split; [|done]. split; [exact Hh|]. split; [done|]. split; [|done].
    by destruct st.
  - destruct st as [i|j|]; try done; simpl.
    + split; [|done]. unfold AP. simpl. by rewrite lookup_insert_eq.
    + split; [|done]. unfold AP. simpl. by rewrite lookup_insert_eq.
Qed.

Lemma AP_set_sched s st c w : AP h f T L st c (set_sched s w) <-> AP h f T L st c w.
Proof. done. Qed.

Lemma await_block_AP tmo s st w r w' :
  AP h f T L st false w ->
  await_block h tmo s w = (r, w') ->
  hevs CallerThread h (trace w') = hevs CallerThread h (trace w) /\
  ((r = answer f /\ AP h f T L Resolved false w') \/
   (r = Pending /\ sched w' = [] /\ exists st', st' ≠ Resolved /\ AP h f T L st' false w') \/
   (r = Raise (Exc (TimeoutError "")) /\ tmo ≠ None /\ TimerExpires ∈ s /\
    exists st', st' ≠ Resolved /\ AP h f T L st' true w')).
Proof.
  revert st w. induction s as [|m s IH]; intros st w Hw.
  - simpl. rewrite (get_future_AP _ _ _ Hw).
    destruct st as [i|j|].
    + intros [= <- <-]. split; [done|]. right. left. split; [done|]. split; [done|].
      by exists (Queued i).
    + intros [= <- <-]. split; [done|]. right. left. split; [done|]. split; [done|].
      by exists (Ran j).
    + pose proof Hw as (_ & _ & _ & Hb & _). pose proof (resolution_ran_handle Hb) as Hres.
      destruct (resolution (ran_handle f)); try done;
        intros [= <- <-]; (split; [done|]); left; by rewrite Hres.
  - assert (Hres : st = Resolved -> await_block h tmo (m :: s) w = (r, w') ->
      hevs CallerThread h (trace w') = hevs CallerThread h (trace w) /\
      r = answer f /\ AP h f T L Resolved false w').
    { intros ->. simpl. rewrite (get_future_AP _ _ _ Hw).
      pose proof Hw as (_ & _ & _ & Hb & _). pose proof (resolution_ran_handle Hb) as Hres.
      destruct (resolution (ran_handle f)); try done;
        intros [= <- <-]; (split; [done|]); by rewrite Hres. }
    assert (st = Resolved \/ st ≠ Resolved) as [Heq|Hne] by (destruct st; auto).
    { intros Hrun. destruct (Hres Heq Hrun) as (? & ? & ?). split; [done|]. by left. }
    assert (Hpend : get_future h w = FPending).
    { rewrite (get_future_AP _ _ _ Hw). by destruct st. }
    assert (Hgen : await_block h tmo s (env_step m w) = (r, w') ->
      hevs CallerThread h (trace w') = hevs CallerThread h (trace w) /\
      ((r = answer f /\ AP h f T L Resolved false w') \/
       (r = Pending /\ sched w' = [] /\ exists st', st' ≠ Resolved /\ AP h f T L st' false w') \/
       (r = Raise (Exc (TimeoutError "")) /\ tmo ≠ None /\ TimerExpires ∈ m :: s /\
        exists st', st' ≠ Resolved /\ AP h f T L st' true w'))).
    { intros Hrun. destruct (env_step_frame m w h) as (_ & _ & _ & _ & _ & _ & Hc & _).
      destruct (IH _ _ (env_step_AP h f T L m st false w Hw) Hrun)
        as (Hc' & [?|[?|(? & ? & ? & ?)]]).
      - split; [congruence|]. by left.
      - split; [congruence|]. right. by left.
      - split; [congruence|]. right. right. split; [done|]. split; [done|].
        split; [by right|done]. }
    simpl. rewrite Hpend.
    destruct m; try (by apply Hgen).
    destruct tmo as [t|]; [|by apply Hgen].
    intros [= <- <-]. destruct (cancel_future_AP st false w Hw Hne) as (Hc & Ht & _).
    split; [simpl; by rewrite Ht|]. right. right.
    split; [done|]. split; [done|]. split; [by left|]. by exists st.
Qed.

Lemma await_skip_timers n s w :
  get_future h w = FPending ->
  await_block h None (replicate n TimerExpires ++ s) w = await_block h None s w.
Proof.
  intros Hp. induction n as [|n IH]; [done|]. simpl. by rewrite Hp.
Qed.

Lemma await_block_late n1 n2 w :
  AP h f T L (Queued 0) false w -> loop_ready w = [] -> is_base f = false ->
  fst (await_block h None (late_completion n1 n2) w) = answer f.
Proof.
  intros Hw Hl Hb. unfold late_completion.
  rewrite await_skip_timers by (by rewrite (get_future_AP _ _ _ Hw)).
  pose proof (env_step_AP h f T L RunTask _ _ _ Hw) as Hw1.
  simpl next_stage in Hw1. rewrite Hl in Hw1. simpl in Hw1.
  cbn [await_block]. rewrite (get_future_AP _ _ _ Hw). 
  change (env_step RunTask w) with (runtime_step w).
  rewrite await_skip_timers by (by rewrite (get_future_AP _ _ _ Hw1)).
  pose proof (env_step_AP h f T L LoopRun _ _ _ Hw1) as Hw2.
  simpl next_stage in Hw2. rewrite Hb in Hw2.
  cbn [await_block]. rewrite (get_future_AP _ _ _ Hw1).
  change (env_step LoopRun (runtime_step w)) with (loop_step (runtime_step w)).
  change (env_step LoopRun (runtime_step w)) with (loop_step (runtime_step w)) in Hw2.
  rewrite (get_future_AP _ _ _ Hw2).
  pose proof (resolution_ran_handle Hb) as Hres.
  by destruct (resolution (ran_handle f)).
Qed.
End asyncio_await.

Lemma ready_submittable w : ready w -> submittable w.
Proof. intros (s & Hi & _ & Hrest). by exists s. Qed.

Lemma CallAsync_eq f timeoutMs w s :
  instance w = Some s ->
  ChipStack._ChipStackLib s = Some LibraryHandle ->
  stack_running (native w) = true ->
  let h := next_id w in
  let c := next_post_status w in
  CallAsync f timeoutMs w =
    if is_success c then
      wait_for h (CallAsync_timeout timeoutMs)
        (mkWorld (instance w) (<[h := Asyncio (submitted_asyncio f 1)]> (heap w)) (S h)
           (set_queue (queue (native w) ++ [h])
              (set_post_script (tl (post_script (native w))) (native w)))
           (loop_ready w) (globals w) (sched w) (trace w ++ [(CallerThread, IncRef h)]))
    else
      (Raise (Exc (ChipStackError c)),
       mkWorld (instance w) (<[h := Asyncio (submitted_asyncio f 0)]> (heap w)) (S h)
         (set_post_script (tl (post_script (native w))) (native w))
         (loop_ready w) (globals w) (sched w)
         (trace w ++ [(CallerThread, IncRef h); (CallerThread, DecRef h)])).
Proof.
  intros Hi Hlib Hrun. cbv zeta. unfold next_post_status.
  unfold CallAsync, new_object, modify, pychip_DeviceController_PostTaskOnChipThread, self_.
  unfold bind at 1. unfold bind at 1. unfold bind at 1. unfold bind at 1.
  unfold Py_IncRef. simpl. rewrite lookup_insert_eq. simpl.
  rewrite Hi, Hlib. simpl. rewrite Hrun.
  destruct (is_success (hd 0%Z (post_script (native w)))) eqn:Hc; simpl; rewrite Hc; simpl.
  - unfold set_native, log, put_handle, set_heap, set_next_id; simpl.
    rewrite insert_insert_eq. by rewrite Hi.
  - unfold bind, raise, Py_DecRef, set_native, log, put_handle, set_heap, set_next_id; simpl.
    rewrite insert_insert_eq, lookup_insert_eq. simpl.
    rewrite !insert_insert_eq, <- app_assoc. by rewrite Hi.
Qed.

(** ** Objects that the runtime never got *)

Lemma env_step_untouched m w h :
  h ∉ queue (native w) -> h ∉ loop_ready w ->
  (h ∉ queue (native (env_step m w))) /\ (h ∉ loop_ready (env_step m w)) /\
  heap (env_step m w) !! h = heap w !! h /\
  forall th, hevs th h (trace (env_step m w)) = hevs th h (trace w).
Proof.
  intros Hq Hl.
  destruct (env_step_frame m w h) as (_ & _ & _ & _ & _ & Hq' & _ & Hcase).
  destruct Hcase as [(-> & _ & q & Hqh & _)|[(-> & r & Hr & _)|(Hheap & Hev & _ & Hloop)]].
  - rewrite Hqh in Hq. exfalso. apply Hq. by left.
  - rewrite Hr in Hl. exfalso. apply Hl. by left.
  - split; [|split; [|done]].
    + rewrite Hq'. destruct m; try done. destruct (stack_running (native w)); [|done].
      by apply not_in_tl.
    + destruct m; rewrite ?Hloop; try done.
      * destruct Hloop as [->|(y & Hy & ->)]; [done|]. by apply not_in_snoc.
      * destruct Hloop as (-> & _). by apply not_in_tl.
Qed.

Lemma preempt_untouched s w h :
  h ∉ queue (native w) -> h ∉ loop_ready w ->
  heap (preempt s w) !! h = heap w !! h /\
  forall th, hevs th h (trace (preempt s w)) = hevs th h (trace w).
Proof.
  revert w. induction s as [|m s IH]; intros w Hq Hl; simpl; [done|].
  destruct (env_step_untouched m w h Hq Hl) as (Hq' & Hl' & Hh & Hev).
  destruct (IH _ Hq' Hl') as (Hh2 & Hev2).
  destruct m; simpl in *; try done; (split; [congruence|]); intros th;
    by rewrite Hev2, Hev.
Qed.

Lemma fresh_not_queued w :
  Forall (fun x => x < next_id w) (queue (native w)) -> next_id w ∉ queue (native w).
Proof. intros Hq Hin. rewrite Forall_forall in Hq. specialize (Hq _ Hin). lia. Qed.

Lemma fresh_not_ready w :
  Forall (fun x => x < next_id w) (loop_ready w) -> next_id w ∉ loop_ready w.
Proof. intros Hq Hin. rewrite Forall_forall in Hq. specialize (Hq _ Hin). lia. Qed.

Lemma submitted_AP f w :
  stack_running (native w) = true ->
  Forall (fun x => x < next_id w) (queue (native w)) ->
  Forall (fun x => x < next_id w) (loop_ready w) ->
  let h := next_id w in
  AP h f (hevs RuntimeThread h (trace w)) (hevs LoopThread h (trace w))
     (Queued (length (queue (native w)))) false
     (mkWorld (instance w) (<[h := Asyncio (submitted_asyncio f 1)]> (heap w)) (S h)
        (set_queue (queue (native w) ++ [h])
           (set_post_script (tl (post_script (native w))) (native w)))
        (loop_ready w) (globals w) (sched w) (trace w ++ [(CallerThread, IncRef h)])).
Proof.
  intros Hrun Hq Hl. cbv zeta. unfold AP. simpl. rewrite lookup_insert_eq.
  split; [done|].
  rewrite !hevs_app, !(hevs_other_thread _ CallerThread _ [_]), !app_nil_r;
    try done; try (by repeat constructor).
  split; [done|]. split; [done|]. split; [done|].
  split; [apply queued_at_here; by apply fresh_not_queued|by apply fresh_not_ready].
Qed.

Lemma AP_refs h f T L st c w :
  AP h f T L st c w ->
  (hevs RuntimeThread h (trace w) = T /\ refs_of h w = 1) \/
  (hevs RuntimeThread h (trace w) = T ++ tramp_asyncio h f /\
   refs_of h w = if is_base f then 1 else 0).
Proof.
  intros (Hh & HT & _). unfold refs_of. rewrite Hh.
  destruct st; [left|right|right]; (split; [by rewrite HT, ?app_nil_r|]);
    simpl; try done; unfold ran_handle, after_call_asyncio; by destruct f as [v|[e|b]].
Qed.

Lemma log_caller_AP h f T L a st c w :
  AP h f T L st c w -> AP h f T L st c (log CallerThread a w).
Proof.
  intros (Hh & HT & HL & Hst). unfold AP. simpl.
  rewrite !hevs_app, !(hevs_other_thread _ CallerThread h [_]), !app_nil_r;
    try done; by repeat constructor.
Qed.

Lemma preempt_AP h f T L s st c w :
  AP h f T L st c w ->
  exists st', AP h f T L st' c (preempt s w) /\
    (is_queued st = false -> is_queued st' = false).
Proof.
  revert st w. induction s as [|m s IH]; intros st w Hap; simpl.
  - exists st. by rewrite AP_set_sched.
  - assert (Hgen : exists st', AP h f T L st' c (preempt s (env_step m w)) /\
                     (is_queued st = false -> is_queued st' = false)).
    { destruct (IH _ _ (env_step_AP h f T L m st c w Hap)) as (st' & Hap' & Hq').
      exists st'. split; [done|]. intros Hst. apply Hq'.
      destruct st as [i|j|]; [done| |by destruct m].
      destruct m; simpl; try done. destruct j; [|done]. by destruct (is_base f). }
    destruct m; try exact Hgen.
    exists st. by rewrite AP_set_sched.
Qed.

Lemma wait_for_AP h f T L i tmo w r w' :
  AP h f T L (Queued i) false w ->
  wait_for h tmo w = (r, w') ->
  hevs CallerThread h (trace w') = hevs CallerThread h (trace w) ++ [AwaitFuture h tmo] /\
  (exists st c, AP h f T L st c w') /\
  (tmo = None -> r = Pending \/ r = answer f).
Proof.
  intros Hw. unfold wait_for.
  set (w1 := log CallerThread (AwaitFuture h tmo) w).
  assert (Hw1 : AP h f T L (Queued i) false w1) by (by apply log_caller_AP).
  assert (Hc1 : hevs CallerThread h (trace w1) =
                hevs CallerThread h (trace w) ++ [AwaitFuture h tmo]).
  { unfold w1. simpl. by rewrite hevs_app, hevs_same. }
  assert (Hblock : await_block h tmo (sched w1) w1 = (r, w') ->
    hevs CallerThread h (trace w') = hevs CallerThread h (trace w) ++ [AwaitFuture h tmo] /\
    (exists st c, AP h f T L st c w') /\
    (tmo = None -> r = Pending \/ r = answer f)).
  { intros Hrun.
    destruct (await_block_AP h f T L tmo _ _ _ _ _ Hw1 Hrun)
      as (Hc & [(-> & Hr)|[(-> & _ & st' & _ & Hr)|(-> & Hn & _ & st' & _ & Hr)]]).
    - split; [congruence|]. split; [by eexists _, _|]. by right.
    - split; [congruence|]. split; [by eexists _, _|]. by left.
    - split; [congruence|]. split; [by eexists _, _|]. done. }
  destruct tmo as [t|]; [|exact Hblock].
  destruct (Qle_bool t 0); [|exact Hblock].
  rewrite (get_future_AP _ _ _ _ _ _ _ Hw1). cbv zeta.
  intros [= <- <-]. destruct (cancel_future_AP h f T L _ _ _ Hw1) as (Hc & Ht & _); [done|].
  destruct (preempt_AP h f T L (sched (cancel_future h w1)) _ _ _ Hc) as (st' & Hst' & _).
  destruct (preempt_frame (sched (cancel_future h w1)) (cancel_future h w1) h)
    as (_ & _ & _ & _ & Hcl).
  split; [by rewrite Hcl, Ht|]. split; [by eexists _, _|]. done.
Qed.

Lemma positive_timeout_waits ms :
  (0 < ms)%Z -> Qle_bool (inject_Z ms / 1000) 0 = false.
Proof.
  intros Hms. destruct (Qle_bool (inject_Z ms / 1000) 0) eqn:Hle; [|done].
  apply Qle_bool_iff in Hle. unfold Qle in Hle. simpl in Hle. lia.
Qed.

(** C10.  With [timeoutMs] equal to 0 the await gets no timeout at all: it is
    the await of [CallAsync] without a timeout, whatever the schedule; the
    caller is still waiting when the schedule ends, or gets what the callback
    itself returned or raised; however many timers expire, a completion that
    comes late is still delivered.  A positive [timeoutMs] gives the await the
    timeout [timeoutMs / 1000], and the timer then ends the wait with the
    timeout error. *)
Theorem CallAsync_zero_timeout f w s r w' :
  submittable w ->
  is_success (next_post_status w) = true ->
  run (CallAsync f (Some 0%Z)) s w = (r, w') ->
  let h := next_id w in
  CallAsync_timeout (Some 0%Z) = None /\
  run (CallAsync f (Some 0%Z)) s w = run (CallAsync f None) s w /\
  (r = Pending \/ r = answer f) /\
  hevs CallerThread h (trace w') =
    hevs CallerThread h (trace w) ++ [IncRef h; AwaitFuture h None] /\
  (forall n1 n2, queue (native w) = [] -> loop_ready w = [] -> is_base f = false ->
     fst (run (CallAsync f (Some 0%Z)) (late_completion n1 n2) w) = answer f) /\
  (forall ms, (0 < ms)%Z ->
     CallAsync_timeout (Some ms) = Some (inject_Z ms / 1000)%Q /\
     fst (run (CallAsync f (Some ms)) (TimerExpires :: s) w) =
       Raise (Exc (TimeoutError ""))).
Proof.
  intros (st & Hi & Hlib & Hrun & Hq & Hl) Hc Hcall. cbv zeta.
  split; [done|]. split; [done|].
  unfold run in *.
  assert (Heq : forall tmo s0, CallAsync f tmo (set_sched s0 w) =
    wait_for (next_id w) (CallAsync_timeout tmo)
      (mkWorld (instance w) (<[next_id w := Asyncio (submitted_asyncio f 1)]> (heap w))
         (S (next_id w))
         (set_queue (queue (native w) ++ [next_id w])
            (set_post_script (tl (post_script (native w))) (native w)))
         (loop_ready w) (globals w) s0 (trace w ++ [(CallerThread, IncRef (next_id w))]))).
  { intros tmo s0. rewrite (CallAsync_eq f tmo (set_sched s0 w) st Hi Hlib Hrun). cbv zeta.
    change (next_post_status (set_sched s0 w)) with (next_post_status w). by rewrite Hc. }
  assert (Hposted : forall s0, AP (next_id w) f (hevs RuntimeThread (next_id w) (trace w))
      (hevs LoopThread (next_id w) (trace w)) (Queued (length (queue (native w)))) false
      (mkWorld (instance w) (<[next_id w := Asyncio (submitted_asyncio f 1)]> (heap w))
         (S (next_id w))
         (set_queue (queue (native w) ++ [next_id w])
            (set_post_script (tl (post_script (native w))) (native w)))
         (loop_ready w) (globals w) s0 (trace w ++ [(CallerThread, IncRef (next_id w))]))).
  { intros s0. by apply (submitted_AP f (set_sched s0 w)). }
  split; [|split; [|split]].
  - rewrite Heq in Hcall.
    destruct (wait_for_AP _ _ _ _ _ _ _ _ _ (Hposted s) Hcall) as (_ & _ & Hres). by apply Hres.
  - rewrite Heq in Hcall.
    destruct (wait_for_AP _ _ _ _ _ _ _ _ _ (Hposted s) Hcall) as (Hlog & _).
    rewrite Hlog. simpl. rewrite hevs_app, hevs_same by done. by rewrite <- app_assoc.
  - intros n1 n2 Hq0 Hl0 Hb. rewrite Heq. unfold wait_for. simpl CallAsync_timeout.
    cbv iota. 
    apply (await_block_late (next_id w) f (hevs RuntimeThread (next_id w) (trace w))
             (hevs LoopThread (next_id w) (trace w))); [|done|done].
    apply log_caller_AP. specialize (Hposted (late_completion n1 n2)).
    assert (length (queue (native w)) = 0) as Hlen by (by rewrite Hq0).
    by rewrite Hlen in Hposted.
  - intros ms Hms. unfold CallAsync_timeout.
    assert ((ms =? 0)%Z = false) as -> by lia. split; [done|].
    rewrite Heq. unfold wait_for, CallAsync_timeout.
    assert ((ms =? 0)%Z = false) as -> by lia.
    rewrite (positive_timeout_waits ms Hms).
    cbn [sched log await_block].
    specialize (Hposted (TimerExpires :: s)).
    rewrite (get_future_AP _ _ _ _ _ _ _ (log_caller_AP _ _ _ _ _ _ _ _ Hposted)). done.
Qed.

Lemma submittable_started : submittable started.
Proof. exact (ready_submittable _ ready_started). Qed.

Lemma CallAsync_zero_timeout_witness :
  submittable started /\
  fst (run (CallAsync (Returns (VInt 4)) (Some 0%Z)) (late_completion 3 2) started) =
    Ret (VInt 4).
Proof.
  split; [exact submittable_started|].
  destruct (run (CallAsync (Returns (VInt 4)) (Some 0%Z)) [] started) as [r w'] eqn:Hrun.
  destruct (CallAsync_zero_timeout (Returns (VInt 4)) started [] r w' submittable_started
              eq_refl Hrun) as (_ & _ & _ & _ & Hlate & _).
  by apply (Hlate 3 2).
Defined.


(** ** Trampolines that run, and loops that are closed *)

Lemma preempt_sched_nil s w : Resume ∉ s -> sched (preempt s w) = [].
Proof.
  revert w. induction s as [|m s IH]; intros w Hres; simpl; [done|].
  assert (m <> Resume /\ Resume ∉ s) as (Hm & Hres').
  { split; [intros ->; apply Hres; by left|]. intros Hin. apply Hres. by right. }
  destruct m; try (by apply IH). done.
Qed.

Lemma preempt_BQ_runs h f n T L s i wt w :
  BQ h f n T L i wt w -> Resume ∉ s -> i < runs s -> BR h f n T L wt (preempt s w).
Proof.
  intros Hq Hres Hlt.
  destruct (preempt_BQ h f n T L s i wt w Hq) as [Hr|(i' & _ & Hi')]; [done|].
  rewrite (preempt_sched_nil s w Hres) in Hi'. simpl in Hi'. lia.
Qed.

Lemma preempt_AP_runs h f T L s i c w :
  AP h f T L (Queued i) c w ->
  Resume ∉ s ->
  i < runs s ->
  exists st', AP h f T L st' c (preempt s w) /\ is_queued st' = false.
Proof.
  revert i w. induction s as [|m s IH]; intros i w Hap Hres Hlt; simpl in *; [lia|].
  assert (m <> Resume /\ Resume ∉ s) as (Hm & Hres').
  { split; [intros ->; apply Hres; by left|]. intros Hin. apply Hres. by right. }
  pose proof (env_step_AP h f T L m (Queued i) c w Hap) as Hstep.
  assert (Hother : next_stage f m (Queued i) w = Queued i -> i < runs s ->
            exists st', AP h f T L st' c (preempt s (env_step m w)) /\ is_queued st' = false).
  { intros Heq Hlt'. rewrite Heq in Hstep. by apply (IH i). }
  destruct m; try (by apply Hother); [|done].
  simpl in Hstep. destruct i as [|i].
  - destruct (preempt_AP h f T L s _ c _ Hstep) as (st' & Hap' & Hq').
    exists st'. split; [done|]. by apply Hq'.
  - apply (IH i); [done|done|lia].
Qed.

Lemma AP_after_trampoline h f T L st c w :
  AP h f T L st c w ->
  is_queued st = false ->
  hevs RuntimeThread h (trace w) = T ++ tramp_asyncio h f /\
  refs_of h w = if is_base f then 1 else 0.
Proof.
  intros (Hh & HT & _) Hst. unfold refs_of. rewrite Hh.
  destruct st as [i|j|]; [done| |]; (split; [done|]); simpl;
    unfold ran_handle, after_call_asyncio; by destruct f as [v|[e|b]], c.
Qed.


Lemma close_loop_CQ h f T L i c w :
  AP h f T L (Queued i) c w -> CQ h f T L i c (close_loop w).
Proof.
  intros (Hh & HT & HL & Hrun & Hq & _). unfold CQ, close_loop. simpl.
  rewrite lookup_fmap, Hh. simpl.
  split; [done|]. split; [done|]. split; [done|]. split; [apply not_elem_of_nil|].
  split; [by rewrite HT, app_nil_r|by rewrite HL, app_nil_r].
Qed.

Lemma tramp_closed_about h f : Forall (fun a => about a = Some h) (tramp_closed h f).
Proof. destruct f as [?|[?|?]]; simpl; repeat constructor. Qed.

Section closed_loop.
Variables (h : nat) (f : callable) (T L : list action).

Lemma env_step_CR m c w : CR h f T L c w -> CR h f T L c (env_step m w).
Proof.
  intros (Hh & Hq & Hl & HT & HL).
  destruct (env_step_untouched m w h Hq Hl) as (Hq' & Hl' & Hh' & Hev).
  unfold CR. by rewrite Hh', !Hev.
Qed.

Lemma preempt_CR s c w : CR h f T L c w -> CR h f T L c (preempt s w).
Proof.
  revert w. induction s as [|m s IH]; intros w Hw; simpl; [done|].
  destruct m; try done; apply IH; by apply env_step_CR.
Qed.

Lemma env_step_CQ m i c w :
  CQ h f T L i c w ->
  (m = RunTask /\ i = 0 /\ CR h f T L c (env_step m w)) \/
  (CQ h f T L (match m with RunTask => pred i | _ => i end) c (env_step m w) /\
   (m = RunTask -> 0 < i)).
Proof.
  intros (Hh & Hrun & Hqa & Hnl & HT & HL).
  destruct (env_step_frame m w h) as (_ & _ & _ & Hrun' & _ & Hq' & _ & Hcase).
  destruct Hcase as [(-> & _ & q & Hqh & Hw')|[(-> & r & Hr & Hw')|(Hheap & Hev & Hhd & Hloop)]].
  - (* the trampoline of [h] runs, on the closed loop *)
    left. rewrite Hqh in Hqa. destruct (queued_at_head _ _ _ Hqa) as (-> & Hnq).
    split; [done|]. split; [done|].
    unfold HandleChipThreadRun in Hw'. simpl in Hw'. rewrite Hh in Hw'.
    rewrite (AsyncioCallableHandle__call__closed _ _ _ (closed_handle f c)) in Hw' by done.
    change (AsyncioCallableHandle._callback (closed_handle f c)) with f in Hw'.
    unfold CR. change (env_step RunTask w) with (runtime_step w).
    rewrite Hw'. cbn [heap trace loop_ready native queue set_native set_queue].
    rewrite lookup_insert_eq.
    split; [done|]. split; [done|]. split; [done|]. split.
    + rewrite hevs_app, hevs_map_pair by apply tramp_closed_about. by rewrite HT.
    + rewrite hevs_app, (hevs_other_thread LoopThread RuntimeThread h (map _ _));
        [by rewrite app_nil_r|done|].
      apply Forall_map. by apply Forall_true.
  - exfalso. rewrite Hr in Hnl. apply Hnl. by left.
  - right. unfold CQ. rewrite Hheap, !Hev, Hrun', Hq'.
    destruct m; try (split; [|done]; split; [exact Hh|]; split; [done|]; split; [done|];
      split; [by rewrite Hloop|done]).
    + rewrite Hrun. specialize (Hhd eq_refl Hrun).
      destruct (queue (native w)) as [|x q] eqn:Hq.
      { exfalso. apply queued_at_in in Hqa. by apply not_elem_of_nil in Hqa. }
      assert (x ≠ h) as Hne by (simpl in Hhd; congruence).
      destruct (queued_at_tail _ _ _ _ Hqa Hne) as (i' & -> & Hqa').
      split; [|intros _; lia].
      split; [exact Hh|]. split; [done|]. split; [done|]. split; [|done].
      destruct Hloop as [->|(y & Hy & ->)]; [done|]. by apply not_in_snoc.
    + destruct Hloop as (-> & _). split; [|done].
      split; [exact Hh|]. split; [done|]. split; [done|]. split; [|done].
      by apply not_in_tl.
Qed.

Lemma preempt_CQ s i c w :
  CQ h f T L i c w ->
  (CR h f T L c (preempt s w) \/ exists i', CQ h f T L i' c (preempt s w)) /\
  (Resume ∉ s -> i < runs s -> CR h f T L c (preempt s w)).
Proof.
  revert i w. induction s as [|m s IH]; intros i w Hw; simpl.
  - split; [right; by exists i|]. intros _ Hlt. lia.
  - assert (Hgen : m <> Resume ->
      (CR h f T L c (preempt s (env_step m w)) \/
       exists i', CQ h f T L i' c (preempt s (env_step m w))) /\
      (Resume ∉ s -> i < runs (m :: s) -> CR h f T L c (preempt s (env_step m w)))).
    { intros Hm. destruct (env_step_CQ m i c w Hw) as [(-> & -> & Hr)|(Hq & Hpos)].
      - split; [left|intros _ _]; by apply preempt_CR.
      - destruct (IH _ _ Hq) as (Hsafe & Hlive). split; [exact Hsafe|].
        intros Hres Hlt. apply Hlive; [done|].
        destruct m; simpl in *; try done. specialize (Hpos eq_refl). lia. }
    destruct m.
    1-4: destruct (Hgen ltac:(done)) as (Hsafe & Hlive); split; [exact Hsafe|];
         intros Hres; apply Hlive; intros Hin; apply Hres; by right.
    split; [right; by exists i|]. intros Hres. exfalso. apply Hres. by left.
Qed.
End closed_loop.

Lemma CQ_refs h f T L i c w : CQ h f T L i c w -> refs_of h w = 1.
Proof. intros (Hh & _). unfold refs_of. rewrite Hh. by destruct c. Qed.

Lemma CR_refs h f T L c w : CR h f T L c w -> refs_of h w = 1.
Proof.
  intros (Hh & _). unfold refs_of. rewrite Hh. unfold after_call_closed.
  by destruct f as [v|[e|b]], c.
Qed.

(** ** The extra reference *)

Lemma BQ_refs h f T L i wt w : BQ h f 1 T L i wt w -> refs_of h w = 1.
Proof. intros (Hh & _). unfold refs_of. by rewrite Hh. Qed.

Lemma BR_refs h f T L wt w :
  BR h f 1 T L wt w -> refs_of h w = if is_base f then 1 else 0.
Proof.
  intros (Hh & _). unfold refs_of. rewrite Hh. unfold after_call, submitted. simpl.
  by destruct f as [v|[e|b]].
Qed.

(** C4 does not hold as stated: on a success status the trampoline can run
    the callback and still keep the extra reference.  A callback that raises
    [KeyboardInterrupt] leaves the trampoline before [Py_DecRef]; and when the
    loop of an [AsyncioCallableHandle] was closed after [CallAsync] timed out,
    [call_soon_threadsafe] raises and [Py_DecRef] is skipped.  In both cases
    the callback was executed and the reference is still held. *)
Lemma reference_kept_after_callback :
  let posted1 := run (PostTaskOnChipThread (Raises (Base KeyboardInterrupt))) [] started in
  let later1 := preempt [RunTask; RunTask] (snd posted1) in
  let timed_out := run (CallAsync (Returns (VInt 4)) (Some 20%Z)) [TimerExpires] started in
  let later2 := preempt [RunTask; LoopRun] (close_loop (snd timed_out)) in
  fst posted1 = Ret 1 /\
  hevs RuntimeThread 1 (trace later1) = [ExecCallback 1] /\
  refs_of 1 later1 = 1 /\
  fst timed_out = Raise (Exc (TimeoutError "")) /\
  hevs RuntimeThread 1 (trace later2) = [ExecCallback 1; WriteRes 1 (VInt 4)] /\
  refs_of 1 later2 = 1.
Proof. by vm_compute. Qed.

(** C4, as the code has it.  When the foreign call refuses the submission,
    [PostTaskOnChipThread] and [CallAsync] give the extra reference back at
    once and raise the error of the status; the object is not queued, nothing
    is logged about it on any other thread, then or later, so its callback is
    never executed.  When the foreign call accepts, the caller only takes the
    reference (and waits), and whatever the schedule the reference is either
    still held or was given back by the trampoline, on the runtime thread, as
    the last step after the callback was executed.  Once the runtime has run
    the tasks queued before it, the trampoline has executed the callback; it
    has then given the reference back unless the callback raised a
    [BaseException] or, for [CallAsync], the loop of the handle was closed
    before the trampoline ran: in these two cases the reference is kept for
    ever. *)
Theorem submission_reference_protocol f timeoutMs s w :
  submittable w ->
  let h := next_id w in
  let c := next_post_status w in
  let T := hevs RuntimeThread h (trace w) in
  let held_or_released := fun (tr : list action) (w' : World) =>
    (hevs RuntimeThread h (trace w') = T /\ refs_of h w' = 1) \/
    (hevs RuntimeThread h (trace w') = T ++ tr /\
     refs_of h w' = if is_base f then 1 else 0) in
  let failed := fun (w' : World) =>
    hevs CallerThread h (trace w') = hevs CallerThread h (trace w) ++ [IncRef h; DecRef h] /\
    hevs RuntimeThread h (trace w') = T /\
    refs_of h w' = 0 /\ sched w' = s /\ queue (native w') = queue (native w) /\
    forall s' th, hevs th h (trace (preempt s' w')) = hevs th h (trace w') in
  (is_success c = false ->
     (exists w', run (PostTaskOnChipThread f) s w = (Raise (Exc (ChipStackError c)), w') /\
                 failed w') /\
     (exists w', run (CallAsync f timeoutMs) s w = (Raise (Exc (ChipStackError c)), w') /\
                 failed w')) /\
  (is_success c = true ->
     (exists w', run (PostTaskOnChipThread f) s w = (Ret h, w') /\
        hevs CallerThread h (trace w') = hevs CallerThread h (trace w) ++ [IncRef h] /\
        refs_of h w' = 1 /\
        forall s',
          hevs CallerThread h (trace (preempt s' w')) = hevs CallerThread h (trace w') /\
          held_or_released (tramp h f) (preempt s' w') /\
          (Resume ∉ s' -> length (queue (native w)) < runs s' ->
             hevs RuntimeThread h (trace (preempt s' w')) = T ++ tramp h f /\
             refs_of h (preempt s' w') = if is_base f then 1 else 0)) /\
     (forall r w', run (CallAsync f timeoutMs) s w = (r, w') ->
        hevs CallerThread h (trace w') =
          hevs CallerThread h (trace w) ++
          [IncRef h; AwaitFuture h (CallAsync_timeout timeoutMs)] /\
        held_or_released (tramp_asyncio h f) w' /\
        (forall s',
           hevs CallerThread h (trace (preempt s' w')) = hevs CallerThread h (trace w') /\
           held_or_released (tramp_asyncio h f) (preempt s' w') /\
           (Resume ∉ s' -> length (queue (native w')) <= runs s' ->
              hevs RuntimeThread h (trace (preempt s' w')) = T ++ tramp_asyncio h f /\
              refs_of h (preempt s' w') = if is_base f then 1 else 0)) /\
        (hevs RuntimeThread h (trace w') = T ->
         forall s',
           let w'' := preempt s' (close_loop w') in
           hevs CallerThread h (trace w'') = hevs CallerThread h (trace w') /\
           refs_of h w'' = 1 /\
           (hevs RuntimeThread h (trace w'') = T \/
            hevs RuntimeThread h (trace w'') = T ++ tramp_closed h f) /\
           (Resume ∉ s' -> length (queue (native w')) <= runs s' ->
              hevs RuntimeThread h (trace w'') = T ++ tramp_closed h f)))).
Proof.
  intros (st & Hi & Hlib & Hrun & Hq & Hl). cbv zeta. unfold run.
  pose proof (fresh_not_queued w Hq) as Hnq. pose proof (fresh_not_ready w Hl) as Hnl.
  assert (Hcd : hevs CallerThread (next_id w)
                  [(CallerThread, IncRef (next_id w)); (CallerThread, DecRef (next_id w))] =
                [IncRef (next_id w); DecRef (next_id w)]).
  { apply (hevs_map_pair CallerThread (next_id w) [IncRef (next_id w); DecRef (next_id w)]).
    by repeat constructor. }
  split.
  - intros Hc. split.
    + rewrite (PostTaskOnChipThread_eq f (set_sched s w) st Hi Hlib Hrun). cbv zeta.
      change (next_post_status (set_sched s w)) with (next_post_status w). rewrite Hc.
      eexists. split; [done|]. simpl. unfold refs_of. simpl. rewrite lookup_insert_eq.
      rewrite !hevs_app, (hevs_other_thread RuntimeThread CallerThread _ [_; _]), app_nil_r;
        [|done|by repeat constructor].
      split; [by rewrite Hcd|].
      split; [done|]. split; [done|]. split; [done|]. split; [done|].
      intros s' th. by apply preempt_untouched.
    + rewrite (CallAsync_eq f timeoutMs (set_sched s w) st Hi Hlib Hrun). cbv zeta.
      change (next_post_status (set_sched s w)) with (next_post_status w). rewrite Hc.
      eexists. split; [done|]. simpl. unfold refs_of. simpl. rewrite lookup_insert_eq.
      rewrite !hevs_app, (hevs_other_thread RuntimeThread CallerThread _ [_; _]), app_nil_r;
        [|done|by repeat constructor].
      split; [by rewrite Hcd|].
      split; [done|]. split; [done|]. split; [done|]. split; [done|].
      intros s' th. by apply preempt_untouched.
  - intros Hc. split.
    + destruct (submitted_BQ f (set_sched s w) st Hi Hlib Hrun Hq Hc)
        as (w1 & Hpost & Hw1 & Hc1 & Hs1).
      exists w1. split; [done|]. split; [done|]. split; [by apply (BQ_refs _ _ _ _ _ _ _ Hw1)|].
      intros s'. destruct (preempt_frame s' w1 (next_id w)) as (_ & _ & _ & _ & Hcaller).
      split; [done|]. split.
      * destruct (preempt_BQ _ _ _ _ _ s' _ _ _ Hw1) as [Hr|(i' & Hq' & _)].
        -- right. split; [apply Hr|]. by apply (BR_refs _ _ _ _ _ _ Hr).
        -- left. split; [apply Hq'|]. by apply (BQ_refs _ _ _ _ _ _ _ Hq').
      * intros Hres Hlt.
        pose proof (preempt_BQ_runs _ _ _ _ _ s' _ _ _ Hw1 Hres Hlt) as Hr.
        split; [apply Hr|]. by apply (BR_refs _ _ _ _ _ _ Hr).
    + intros r w' Hcall.
      rewrite (CallAsync_eq f timeoutMs (set_sched s w) st Hi Hlib Hrun) in Hcall.
      cbv zeta in Hcall.
      change (next_post_status (set_sched s w)) with (next_post_status w) in Hcall.
      rewrite Hc in Hcall.
      destruct (wait_for_AP _ _ _ _ _ _ _ _ _ (submitted_AP f (set_sched s w) Hrun Hq Hl) Hcall)
        as (Hlog & (st' & c' & Hap) & _).
      change (next_id (set_sched s w)) with (next_id w) in *.
      change (trace (set_sched s w)) with (trace w) in *.
      assert (Hidx : forall i, st' = Queued i -> i < length (queue (native w'))).
      { intros i ->. destruct Hap as (_ & _ & _ & _ & (q1 & q2 & Hqq & Hlen & _) & _).
        rewrite Hqq, length_app. simpl. lia. }
      split; [|split; [|split]].
      * rewrite Hlog. simpl. rewrite hevs_app, hevs_same by done. by rewrite <- app_assoc.
      * by apply (AP_refs _ _ _ _ _ _ _ Hap).
      * intros s'. destruct (preempt_frame s' w' (next_id w)) as (_ & _ & _ & _ & Hcaller).
        split; [done|]. split.
        -- destruct (preempt_AP _ _ _ _ s' _ _ _ Hap) as (st2 & Hap2 & _).
           by apply (AP_refs _ _ _ _ _ _ _ Hap2).
        -- intros Hres Hlen.
           assert (exists st3, AP (next_id w) f (hevs RuntimeThread (next_id w) (trace w))
                     (hevs LoopThread (next_id w) (trace w)) st3 c' (preempt s' w') /\
                     is_queued st3 = false) as (st3 & Hap3 & Hq3).
           { destruct st' as [i|j|].
             - apply (preempt_AP_runs _ _ _ _ s' i); [done|done|].
               specialize (Hidx i eq_refl). lia.
             - destruct (preempt_AP _ _ _ _ s' _ _ _ Hap) as (st2 & Hap2 & Hq2).
               exists st2. split; [done|]. by apply Hq2.
             - destruct (preempt_AP _ _ _ _ s' _ _ _ Hap) as (st2 & Hap2 & Hq2).
               exists st2. split; [done|]. by apply Hq2. }
           exact (AP_after_trampoline _ _ _ _ _ _ _ Hap3 Hq3).
      * intros HT s'. cbv zeta.
        assert (exists i, st' = Queued i) as (i & ->).
        { destruct st' as [i|j|]; [by exists i|exfalso..];
            destruct Hap as (_ & HT' & _); rewrite HT in HT';
            apply (f_equal length) in HT'; rewrite length_app in HT';
            destruct f as [?|[?|?]]; simpl in HT'; lia. }
        pose proof (close_loop_CQ _ _ _ _ _ _ _ Hap) as Hcq.
        destruct (preempt_frame s' (close_loop w') (next_id w)) as (_ & _ & _ & _ & Hcaller).
        destruct (preempt_CQ _ _ _ _ s' _ _ _ Hcq) as (Hsafe & Hlive).
        split; [exact Hcaller|]. split; [|split].
        -- destruct Hsafe as [Hr|(i' & Hq')];
             [by apply (CR_refs _ _ _ _ _ _ Hr)|by apply (CQ_refs _ _ _ _ _ _ _ Hq')].
        -- destruct Hsafe as [Hr|(i' & Hq')]; [right; apply Hr|left; apply Hq'].
        -- intros Hres Hlen. apply Hlive; [done|]. specialize (Hidx i eq_refl). lia.
Qed.

Lemma submittable_refusing : submittable refusing.
Proof.
  eexists. split; [reflexivity|]. repeat split; try reflexivity; apply Forall_nil_2.
Qed.

Lemma submission_reference_protocol_witness :
  submittable refusing /\ is_success (next_post_status refusing) = false /\
  exists w', run (CallAsync (Returns (VInt 4)) None) [RunTask; LoopRun] refusing =
               (Raise (Exc (ChipStackError 5)), w') /\
    refs_of 1 w' = 0 /\
    hevs RuntimeThread 1 (trace (preempt [RunTask; LoopRun] w')) =
      hevs RuntimeThread 1 (trace w').
Proof.
  split; [exact submittable_refusing|]. split; [done|].
  destruct (submission_reference_protocol (Returns (VInt 4)) None [RunTask; LoopRun] refusing
              submittable_refusing) as (Hfail & _).
  destruct (Hfail eq_refl) as (_ & w' & Hrun & _ & _ & Hrefs & _ & _ & Hnever).
  exists w'. split; [exact Hrun|]. split; [exact Hrefs|]. apply Hnever.
Defined.

(** * Further properties *)

(** ** The lock, the library handle and the age of the queued objects *)

Ltac keeps_same := unfold keeps, lock_state, lib_state, wf; simpl; tauto.

Lemma keeps_refl w : keeps w w.
Proof. unfold keeps. tauto. Qed.

Lemma keeps_trans w1 w2 w3 : keeps w1 w2 -> keeps w2 w3 -> keeps w1 w3.
Proof.
  intros (A1 & A2 & A3 & A4 & A5) (B1 & B2 & B3 & B4 & B5).
  unfold keeps. split; [congruence|]. split; [congruence|]. split; [congruence|].
  split; [congruence|]. intros H. by apply B5, A5.
Qed.

Lemma runtime_step_keeps w : keeps w (runtime_step w).
Proof.
  unfold runtime_step. destruct (stack_running (native w)) eqn:Hrun; [|apply keeps_refl].
  destruct (queue (native w)) as [|x q] eqn:Hq; [apply keeps_refl|].
  destruct (HandleChipThreadRun_frame RuntimeThread x (set_native (set_queue q (native w)) w))
    as (Hi & Hn & Hid & _ & _ & _ & _ & Hl).
  simpl in *. unfold keeps, lock_state, lib_state, wf. rewrite Hi, Hn, Hid. simpl.
  split; [done|]. split; [done|]. split; [done|]. split; [done|].
  rewrite Hq. intros (Hwq & Hwl). apply Forall_cons in Hwq as (Hx & Hwq).
  split; [done|]. destruct Hl as [->| ->]; [done|].
  apply Forall_app. split; [done|]. by apply Forall_singleton.
Qed.

Lemma loop_step_keeps w : keeps w (loop_step w).
Proof.
  unfold loop_step. destruct (loop_ready w) as [|x r] eqn:Hr; [apply keeps_refl|].
  destruct (_done_frame x (set_loop_ready r w)) as (Hi & Hn & Hid & _ & _ & Hl & _).
  simpl in *. unfold keeps, lock_state, lib_state, wf. rewrite Hi, Hn, Hid, Hl.
  split; [done|]. split; [done|]. split; [done|]. split; [done|].
  rewrite Hr. intros (Hwq & Hwl). apply Forall_cons in Hwl as (_ & Hwl). done.
Qed.

Lemma complete_keeps v w : keeps w (complete v w).
Proof.
  unfold complete. destruct (instance w) as [s|] eqn:Hi; [|apply keeps_refl].
  unfold keeps, lock_state, lib_state, wf. simpl. rewrite Hi. simpl.
  by destruct (ChipStack.completeEvent s).
Qed.

Lemma env_step_keeps m w : keeps w (env_step m w).
Proof.
  destruct m; simpl; auto using runtime_step_keeps, loop_step_keeps, complete_keeps, keeps_refl.
Qed.

Ltac keeps_env :=
  first [apply runtime_step_keeps | apply loop_step_keeps | apply complete_keeps
        | apply keeps_refl | apply env_step_keeps].

Lemma set_sched_keeps s w : keeps w (set_sched s w).
Proof. unfold keeps. tauto. Qed.

Lemma preempt_keeps s w : keeps w (preempt s w).
Proof.
  revert w. induction s as [|m s IH]; intros w; simpl; [keeps_same|].
  destruct m; try keeps_same; (eapply keeps_trans; [|apply IH]); keeps_env.
Qed.

Lemma cv_set_waiting_keeps b h w : keeps w (cv_set_waiting b h w).
Proof.
  unfold cv_set_waiting. destruct (heap w !! h) as [[a|a]|]; keeps_same.
Qed.

Lemma log_keeps th a w : keeps w (log th a w).
Proof. unfold keeps. tauto. Qed.

Lemma cv_block_keeps h tmo s w r w' : cv_block h tmo s w = (r, w') -> keeps w w'.
Proof.
  revert w. induction s as [|m s IH]; intros w; simpl.
  - intros [= <- <-]. keeps_same.
  - assert (Hgen :
      (let w1 := env_step m w in
       if cv_woken h w1 then (Ret true, preempt s w1) else cv_block h tmo s w1) = (r, w') ->
      keeps w w').
    { simpl. destruct (cv_woken h (env_step m w)).
      - intros [= <- <-]. eapply keeps_trans; [apply env_step_keeps|apply preempt_keeps].
      - intros Heq. eapply keeps_trans; [apply env_step_keeps|by apply IH]. }
    destruct m; try (by apply Hgen).
    destruct tmo as [t|]; [|by apply IH].
    intros [= <- <-]. eapply keeps_trans; [apply preempt_keeps|apply cv_set_waiting_keeps].
Qed.

Lemma cv_wait_keeps h tmo w r w' : cv_wait h tmo w = (r, w') -> keeps w w'.
Proof.
  unfold cv_wait.
  set (w2 := cv_set_waiting true h (log CallerThread (CvWait h tmo) w)).
  assert (keeps w w2) as H2.
  { eapply keeps_trans; [apply log_keeps|apply cv_set_waiting_keeps]. }
  assert (Hblock : cv_block h tmo (sched w2) w2 = (r, w') -> keeps w w').
  { intros Heq. eapply keeps_trans; [exact H2|by eapply cv_block_keeps]. }
  destruct tmo as [t|]; [|exact Hblock].
  destruct (Qle_bool t 0); [|exact Hblock].
  intros [= <- <-]. eapply keeps_trans; [exact H2|].
  eapply keeps_trans; [apply preempt_keeps|apply cv_set_waiting_keeps].
Qed.

Lemma Wait_loop_keeps fuel h tmo w r w' : Wait_loop fuel h tmo w = (r, w') -> keeps w w'.
Proof.
  revert w. induction fuel as [|fuel IH]; intros w; simpl.
  - intros [= <- <-]. apply keeps_refl.
  - unfold bind, get_blocking. destruct (heap w !! h) as [[a|a]|];
      try (intros [= <- <-]; apply keeps_refl).
    destruct (AsyncCallableHandle._finish a); [intros [= <- <-]; apply keeps_refl|].
    destruct (cv_wait h tmo w) as [[[]| |] w1] eqn:Hcv.
    + intros Heq. eapply keeps_trans; [by eapply cv_wait_keeps|by apply IH].
    + intros [= <- <-]. by eapply cv_wait_keeps.
    + intros [= <- <-]. by eapply cv_wait_keeps.
    + intros [= <- <-]. by eapply cv_wait_keeps.
Qed.

Lemma Wait_keeps h timeoutMs w r w' : Wait h timeoutMs w = (r, w') -> keeps w w'.
Proof.
  rewrite Wait_unfold. cbv zeta.
  set (w1 := preempt (sched w) w).
  assert (keeps w w1) as H1 by apply preempt_keeps.
  destruct (Wait_loop (S (length (sched w1))) h (Wait_timeout timeoutMs) w1)
    as [[[]| |] w2] eqn:Hloop.
  - unfold bind, get_blocking.
    assert (keeps w w2) by (eapply keeps_trans; [exact H1|by eapply Wait_loop_keeps]).
    destruct (heap w2 !! h) as [[a|a]|]; try (by intros [= <- <-]).
    by destruct (AsyncCallableHandle._exc a); intros [= <- <-].
  - intros [= <- <-]. eapply keeps_trans; [exact H1|by eapply Wait_loop_keeps].
  - intros [= <- <-]. eapply keeps_trans; [exact H1|by eapply Wait_loop_keeps].
Qed.

Lemma ready_release w :
  lock_state w = Some (Some true) ->
  lib_state w = Some (Some LibraryHandle) ->
  stack_running (native w) = true ->
  wf w ->
  ready (release_networkLock w).
Proof.
  unfold lock_state, lib_state, release_networkLock, ready, wf.
  destruct (instance w) as [s|] eqn:Hi; [|done]. simpl.
  intros [= Hl] [= Hlib] Hrun (Hq & Hr). rewrite Hl.
  eexists. simpl. split; [done|]. by destruct s.
Qed.

(** What [Call] does to the lock, whatever the submission status. *)
Lemma Call_lock f tmoMs w r w' :
  ready w ->
  Call f tmoMs w = (r, w') ->
  (r <> Pending -> ready w') /\
  (r = Pending -> lock_state w' = Some (Some true)).
Proof.
  intros (s & Hi & Hl & Hlib & Hrun & Hq & Hr).
  unfold Call. unfold bind at 1. rewrite (with_networkLock_eq _ w s Hi Hl).
  set (wl := set_instance (Some (ChipStack.set_networkLock (Some true) s)) w).
  unfold bind at 1.
  assert (instance wl = Some (ChipStack.set_networkLock (Some true) s)) as Hil by done.
  assert (ChipStack._ChipStackLib (ChipStack.set_networkLock (Some true) s) = Some LibraryHandle)
    as Hlibl by (by destruct s).
  rewrite (PostTaskOnChipThread_eq f wl _ Hil Hlibl Hrun). cbv zeta.
  destruct (is_success (next_post_status wl)).
  - match goal with |- context [Wait ?h ?t ?x] => set (w1 := x) end.
    destruct (Wait (next_id wl) tmoMs w1) as [r2 w2] eqn:HW.
    apply Wait_keeps in HW. destruct HW as (K1 & K2 & K3 & K4 & K5).
    assert (lock_state w1 = Some (Some true)) as L1.
    { unfold lock_state, w1. simpl. by destruct s. }
    assert (lib_state w1 = Some (Some LibraryHandle)) as L2.
    { unfold lib_state, w1. simpl. by destruct s; simpl in *; subst. }
    assert (wf w1) as W1.
    { unfold wf, w1. simpl. split.
      - apply Forall_app. split.
        + eapply Forall_impl; [exact Hq|]. simpl. lia.
        + apply Forall_singleton. lia.
      - eapply Forall_impl; [exact Hr|]. simpl. lia. }
    assert (ready (release_networkLock w2)) as R2.
    { apply ready_release; [congruence|congruence| |by apply K5].
      rewrite K4. exact Hrun. }
    destruct r2 as [v|t|]; intros [= <- <-]; (split; [done|]); try done.
  - intros [= <- <-]. split; [|done]. intros _.
    apply ready_release.
    + unfold lock_state. simpl. by destruct s.
    + unfold lib_state. simpl. by destruct s; simpl in *; subst.
    + exact Hrun.
    + unfold wf. simpl. split.
      * eapply Forall_impl; [exact Hq|]. simpl. lia.
      * eapply Forall_impl; [exact Hr|]. simpl. lia.
Qed.

(** X1.  Whenever [Call] comes back, with the value, with the exception of
    the callback, with the timeout error or with the error of a refused
    submission, the [with] block has released [networkLock] and the stack is
    ready for the next call: readiness is an invariant of completed calls. *)
Theorem Call_leaves_stack_ready w f timeoutMs s r w' :
  ready w ->
  run (Call f timeoutMs) s w = (r, w') ->
  r <> Pending ->
  ready w'.
Proof.
  intros Hready Hrun Hr.
  apply (ready_set_sched s) in Hready.
  by destruct (Call_lock f timeoutMs _ r w' Hready Hrun) as (H & _); apply H.
Qed.

Lemma Call_leaves_stack_ready_witness :
  ready started /\
  fst (run (Call (Raises (Exc ZeroDivisionError)) (Some 250%Z)) [Resume; TimerExpires] started)
    <> Pending /\
  ready (snd (run (Call (Raises (Exc ZeroDivisionError)) (Some 250%Z)) [Resume; TimerExpires] started)).
Proof.
  split; [exact ready_started|].
  destruct (run (Call (Raises (Exc ZeroDivisionError)) (Some 250%Z)) [Resume; TimerExpires] started)
    as [r w'] eqn:Hrun.
  assert (r <> Pending) as Hr.
  { assert (fst (run (Call (Raises (Exc ZeroDivisionError)) (Some 250%Z)) [Resume; TimerExpires] started)
            = Raise (Exc (TimeoutError timeout_message))) as Hfst by (vm_compute; reflexivity).
    rewrite Hrun in Hfst. simpl in Hfst. by rewrite Hfst. }
  split; [exact Hr|].
  exact (Call_leaves_stack_ready started _ _ _ r w' ready_started Hrun Hr).
Defined.

(** X2.  A [Call] that is left waiting has accepted no more moves and holds
    [networkLock]: at that state a second [Call] waits at the lock; it creates
    no handle, posts no task and logs nothing. *)
Theorem pending_Call_holds_networkLock w f timeoutMs s w' f2 timeoutMs2 :
  ready w ->
  is_success (next_post_status w) = true ->
  run (Call f timeoutMs) s w = (Pending, w') ->
  sched w' = [] /\
  lock_state w' = Some (Some true) /\
  Call f2 timeoutMs2 w' = (Pending, w').
Proof.
  intros Hready Hc Hrun.
  apply (ready_set_sched s) in Hready.
  destruct (Call_lock f timeoutMs _ Pending w' Hready Hrun) as (_ & H).
  specialize (H eq_refl).
  assert (sched w' = []) as Hs.
  { destruct (Call_spec f timeoutMs _ Pending w' Hready Hc Hrun)
      as [(Ha & Hb & _)|(_ & [([=] & _)|(_ & Hs & _)])]; [|done].
    destruct f as [v|[e|b]]; done. }
  split; [exact Hs|]. split; [exact H|].
  unfold lock_state in H.
  unfold Call, with_networkLock, self_. unfold bind at 1.
  destruct (instance w') as [s'|]; [|done]. simpl in H.
  injection H as ->. done.
Qed.

Lemma pending_Call_holds_networkLock_witness :
  ready started /\ is_success (next_post_status started) = true /\
  exists w', run (Call (Returns (VInt 4)) None) [] started = (Pending, w') /\
    Call (Returns VNone) (Some 0%Z) w' = (Pending, w').
Proof.
  split; [exact ready_started|]. split; [reflexivity|].
  destruct (run (Call (Returns (VInt 4)) None) [] started) as [r w'] eqn:Hrun.
  assert (r = Pending) as ->.
  { assert (fst (run (Call (Returns (VInt 4)) None) [] started) = Pending) as Hfst
      by (vm_compute; reflexivity).
    by rewrite Hrun in Hfst. }
  exists w'. split; [reflexivity|].
  exact (proj2 (proj2 (pending_Call_holds_networkLock started _ _ _ w' _ _ ready_started
                         eq_refl Hrun))).
Defined.

(** ** Timeouts that are not positive, and callbacks that [except Exception]
    does not catch *)

Lemma nonpositive_timeout ms : (ms <= 0)%Z -> Qle_bool (inject_Z ms / 1000) 0 = true.
Proof.
  intros Hms. apply Qle_bool_iff. unfold Qle. simpl. lia.
Qed.



Lemma Call_Wait f tmoMs w r w' :
  ready w ->
  is_success (next_post_status w) = true ->
  Call f tmoMs w = (r, w') ->
  let h := next_id w in
  exists w1 w2,
    BQ h f 1 (hevs RuntimeThread h (trace w)) (hevs LoopThread h (trace w))
      (length (queue (native w))) false w1 /\
    sched w1 = sched w /\
    instance w1 = option_map (ChipStack.set_networkLock (Some true)) (instance w) /\
    caller_log (trace w1) = caller_log (trace w) ++ [IncRef h] /\
    hevs CallerThread h (trace w1) = hevs CallerThread h (trace w) ++ [IncRef h] /\
    queue (native w1) = queue (native w) ++ [h] /\
    Wait h tmoMs w1 = (r, w2) /\
    (w' = w2 \/ w' = release_networkLock w2).
Proof.
  intros (s & Hi & Hlock & Hlib & Hrun & Hq & _) Hc. cbv zeta.
  unfold Call. unfold bind at 1. rewrite (with_networkLock_eq _ w s Hi Hlock).
  set (wl := set_instance (Some (ChipStack.set_networkLock (Some true) s)) w).
  unfold bind at 1.
  destruct (submitted_BQ f wl (ChipStack.set_networkLock (Some true) s))
    as (w1 & Hpost & Hw1 & Hc1 & Hs1); try done.
  rewrite Hpost. change (next_id wl) with (next_id w) in *.
  change (trace wl) with (trace w) in *. change (queue (native wl)) with (queue (native w)) in *.
  change (sched wl) with (sched w) in *.
  assert (instance w1 = Some (ChipStack.set_networkLock (Some true) s) /\
          caller_log (trace w1) = caller_log (trace w) ++ [IncRef (next_id w)] /\
          queue (native w1) = queue (native w) ++ [next_id w]) as (Hi1 & Hl1 & Hq1).
  { rewrite (PostTaskOnChipThread_eq f wl (ChipStack.set_networkLock (Some true) s)) in Hpost;
      [|done|by destruct s|done].
    cbv zeta in Hpost. change (next_post_status wl) with (next_post_status w) in Hpost.
    rewrite Hc in Hpost. injection Hpost as <-. split; [done|].
    simpl. split; [by rewrite caller_log_app|]. by destruct (native w). }
  destruct (Wait (next_id w) tmoMs w1) as [r2 w2] eqn:Hwait.
  intros Heq. exists w1, w2. split; [exact Hw1|]. split; [exact Hs1|].
  split; [by rewrite Hi, Hi1|]. split; [exact Hl1|]. split; [exact Hc1|].
  split; [exact Hq1|].
  destruct r2 as [v|t|]; injection Heq as <- <-; auto.
Qed.



(** X4.  A callback that raises a [BaseException] ([KeyboardInterrupt],
    [SystemExit]) is not caught by [except Exception]: the trampoline never
    sets [_finish] and never gives the reference back.  [Call] without a
    timeout then never returns, whatever the schedule, and keeps
    [networkLock]. *)
Theorem Call_hangs_on_BaseException w b s r w' :
  ready w ->
  is_success (next_post_status w) = true ->
  run (Call (Raises (Base b)) None) s w = (r, w') ->
  r = Pending /\
  finished (next_id w) w' = false /\
  refs_of (next_id w) w' = 1 /\
  lock_state w' = Some (Some true).
Proof.
  intros Hready Hc Hrun. apply (ready_set_sched s) in Hready.
  destruct (Call_lock _ _ _ r w' Hready Hrun) as (_ & Hlock).
  destruct (Call_spec _ None _ r w' Hready Hc Hrun)
    as [(_ & Hb & _)|(_ & [(_ & Hn & _)|(-> & _ & Hst)])]; [done|done|].
  split; [done|]. specialize (Hlock eq_refl).
  destruct Hst as [(i' & Hq & _)|(_ & Hr)].
  - split; [|split; [exact (BQ_refs _ _ _ _ _ _ _ Hq)|done]].
    destruct Hq as (Hh & _). unfold finished. simpl in Hh. by rewrite Hh.
  - split; [|split; [exact (BR_refs _ _ _ _ _ _ Hr)|done]].
    destruct Hr as (Hh & _). unfold finished. simpl in Hh. by rewrite Hh.
Qed.

Lemma Call_hangs_on_BaseException_witness :
  ready started /\ is_success (next_post_status started) = true /\
  fst (run (Call (Raises (Base KeyboardInterrupt)) None)
         [RunTask; Resume; RunTask; TimerExpires] started) = Pending.
Proof.
  split; [exact ready_started|]. split; [reflexivity|].
  destruct (run (Call (Raises (Base KeyboardInterrupt)) None)
              [RunTask; Resume; RunTask; TimerExpires] started) as [r w'] eqn:Hrun.
  exact (proj1 (Call_hangs_on_BaseException started KeyboardInterrupt _ r w' ready_started
                  eq_refl Hrun)).
Defined.

(** ** [CallAsync]: timeouts and late completions *)

Lemma CallAsync_posted f timeoutMs w :
  submittable w ->
  is_success (next_post_status w) = true ->
  let h := next_id w in
  exists w1,
    CallAsync f timeoutMs w = wait_for h (CallAsync_timeout timeoutMs) w1 /\
    AP h f (hevs RuntimeThread h (trace w)) (hevs LoopThread h (trace w))
       (Queued (length (queue (native w)))) false w1 /\
    sched w1 = sched w /\
    hevs CallerThread h (trace w1) = hevs CallerThread h (trace w) ++ [IncRef h].
Proof.
  intros (st & Hi & Hlib & Hrun & Hq & Hl) Hc. cbv zeta.
  eexists. split.
  - rewrite (CallAsync_eq f timeoutMs w st Hi Hlib Hrun). cbv zeta. rewrite Hc. reflexivity.
  - split; [by apply (submitted_AP f w)|]. split; [done|].
    simpl. by rewrite hevs_app, hevs_same.
Qed.

Lemma wait_for_timed_out h f T L i tmo w r w' :
  AP h f T L (Queued i) false w ->
  wait_for h tmo w = (r, w') ->
  r = Raise (Exc (TimeoutError "")) ->
  answer f <> r ->
  exists st', AP h f T L st' true w'.
Proof.
  intros Hap Hwf -> Hne. unfold wait_for in Hwf. cbv zeta in Hwf.
  apply (log_caller_AP _ _ _ _ (AwaitFuture h tmo)) in Hap.
  set (w1 := log CallerThread (AwaitFuture h tmo) w) in *.
  assert (Hblock : await_block h tmo (sched w1) w1 = (Raise (Exc (TimeoutError "")), w') ->
                   exists st', AP h f T L st' true w').
  { intros Hb. destruct (await_block_AP h f T L tmo _ _ _ _ _ Hap Hb)
      as (_ & [(Ha & _)|[(Hp & _)|(_ & _ & _ & st' & _ & Hst)]]);
      [by symmetry in Ha|done|by exists st']. }
  destruct tmo as [t|]; [|by apply Hblock].
  destruct (Qle_bool t 0); [|by apply Hblock].
  rewrite (get_future_AP h f T L _ _ _ Hap) in Hwf. injection Hwf as <-.
  destruct (cancel_future_AP h f T L (Queued i) false w1 Hap) as (Hc & _); [done|].
  destruct (preempt_AP h f T L (sched (cancel_future h w1)) _ _ _ Hc) as (st' & Hst' & _).
  by exists st'.
Qed.

Lemma AP_cancelled h f T L st w :
  AP h f T L st true w ->
  get_future h w = FCancelled /\ hevs LoopThread h (trace w) = L.
Proof.
  intros Hap. split; [by rewrite (get_future_AP h f T L _ _ _ Hap)|].
  destruct Hap as (_ & _ & HL & _). rewrite HL. destruct st; by rewrite app_nil_r.
Qed.

Lemma AP_queue_index h f T L i c w : AP h f T L (Queued i) c w -> i < length (queue (native w)).
Proof.
  intros (_ & _ & _ & _ & (q1 & q2 & Hqq & Hlen & _) & _).
  rewrite Hqq, length_app. simpl. lia.
Qed.

Lemma AP_not_run h f T L st c w :
  AP h f T L st c w -> hevs RuntimeThread h (trace w) = T -> exists i, st = Queued i.
Proof.
  intros (_ & HT' & _) HT. destruct st as [i|j|]; [by exists i|exfalso..];
    rewrite HT in HT'; apply (f_equal length) in HT'; rewrite length_app in HT';
    destruct f as [?|[?|?]]; simpl in HT'; lia.
Qed.

(** What a closed loop leaves of a cancelled future: it stays cancelled. *)
Lemma closed_future_cancelled h f T L st s w :
  AP h f T L st true w ->
  get_future h (preempt s (close_loop w)) = FCancelled /\
  hevs LoopThread h (trace (preempt s (close_loop w))) = L.
Proof.
  intros Hap. destruct (AP_cancelled _ _ _ _ _ _ Hap) as (_ & HL).
  destruct st as [i|j|].
  - pose proof (close_loop_CQ _ _ _ _ _ _ _ Hap) as Hcq.
    destruct (preempt_CQ _ _ _ _ s _ _ _ Hcq) as ([(Hh & _ & _ & _ & HL')|(i' & Hh & _ & _ & _ & _ & HL')] & _).
    + split; [|done]. unfold get_future. rewrite Hh. unfold after_call_closed.
      by destruct f as [v|[e|b]].
    + split; [|done]. unfold get_future. by rewrite Hh.
  - destruct Hap as (Hh & _ & _ & Hnq & _).
    destruct (preempt_untouched s (close_loop w) h Hnq ltac:(apply not_elem_of_nil))
      as (Hheap & Hev).
    split; [|by rewrite Hev]. unfold get_future. rewrite Hheap. unfold close_loop. simpl.
    rewrite lookup_fmap, Hh. done.
  - destruct Hap as (Hh & _ & _ & _ & Hnq & _).
    destruct (preempt_untouched s (close_loop w) h Hnq ltac:(apply not_elem_of_nil))
      as (Hheap & Hev).
    split; [|by rewrite Hev]. unfold get_future. rewrite Hheap. unfold close_loop. simpl.
    rewrite lookup_fmap, Hh. done.
Qed.

(** X5.  A negative [timeoutMs] is true in Python, so [CallAsync] passes the
    negative timeout on to [asyncio.wait_for], which does not wait for the
    future: on a runtime that accepts the submission the caller gets the
    timeout error, whatever the schedule, and the future is cancelled and is
    never resolved.  The task is not withdrawn: it was posted with its extra
    reference, and the reference is either still held or was given back by the
    trampoline. *)
Theorem CallAsync_negative_timeout w f ms s r w' :
  submittable w ->
  is_success (next_post_status w) = true ->
  (ms < 0)%Z ->
  run (CallAsync f (Some ms)) s w = (r, w') ->
  let h := next_id w in
  let T := hevs RuntimeThread h (trace w) in
  r = Raise (Exc (TimeoutError "")) /\
  get_future h w' = FCancelled /\
  hevs LoopThread h (trace w') = hevs LoopThread h (trace w) /\
  hevs CallerThread h (trace w') =
    hevs CallerThread h (trace w) ++ [IncRef h; AwaitFuture h (Some (inject_Z ms / 1000)%Q)] /\
  ((hevs RuntimeThread h (trace w') = T /\ refs_of h w' = 1) \/
   (hevs RuntimeThread h (trace w') = T ++ tramp_asyncio h f /\
    refs_of h w' = if is_base f then 1 else 0)).
Proof.
  intros Hsub Hc Hms Hrun. cbv zeta.
  destruct (CallAsync_posted f (Some ms) (set_sched s w) Hsub Hc) as (w1 & Heq & Hap & _ & Hc1).
  unfold run in Hrun. rewrite Heq in Hrun.
  change (next_id (set_sched s w)) with (next_id w) in *.
  change (trace (set_sched s w)) with (trace w) in *.
  assert (CallAsync_timeout (Some ms) = Some (inject_Z ms / 1000)%Q) as Htmo.
  { unfold CallAsync_timeout. by assert ((ms =? 0)%Z = false) as -> by lia. }
  rewrite Htmo in Hrun.
  destruct (wait_for_AP _ _ _ _ _ _ _ _ _ Hap Hrun) as (Hlog & _ & _).
  assert (r = Raise (Exc (TimeoutError "")) /\
          exists st', AP (next_id w) f (hevs RuntimeThread (next_id w) (trace w))
                        (hevs LoopThread (next_id w) (trace w)) st' true w')
    as (-> & st' & Hap').
  { unfold wait_for in Hrun. cbv zeta in Hrun.
    assert (ms <= 0)%Z as Hle by lia. rewrite (nonpositive_timeout ms Hle) in Hrun.
    pose proof (log_caller_AP _ _ _ _
                  (AwaitFuture (next_id w) (Some (inject_Z ms / 1000)%Q)) _ _ _ Hap) as Hap1.
    rewrite (get_future_AP _ _ _ _ _ _ _ Hap1) in Hrun. injection Hrun as <- <-.
    split; [done|].
    destruct (cancel_future_AP _ _ _ _ _ false _ Hap1) as (Hcc & _); [done|].
    destruct (preempt_AP _ _ _ _
                (sched (cancel_future (next_id w)
                          (log CallerThread
                             (AwaitFuture (next_id w) (Some (inject_Z ms / 1000)%Q)) w1)))
                _ _ _ Hcc) as (st' & Hst' & _).
    by exists st'. }
  split; [done|].
  destruct (AP_cancelled _ _ _ _ _ _ Hap') as (Hf & HL).
  split; [exact Hf|]. split; [exact HL|].
  split; [by rewrite Hlog, Hc1, <- app_assoc|].
  by apply (AP_refs _ _ _ _ _ _ _ Hap').
Qed.

Lemma CallAsync_negative_timeout_witness :
  submittable started /\ is_success (next_post_status started) = true /\ (-1 < 0)%Z /\
  fst (run (CallAsync (Returns (VInt 4)) (Some (-1)%Z)) [RunTask; LoopRun] started) =
    Raise (Exc (TimeoutError "")).
Proof.
  split; [exact submittable_started|]. split; [reflexivity|]. split; [lia|].
  destruct (run (CallAsync (Returns (VInt 4)) (Some (-1)%Z)) [RunTask; LoopRun] started)
    as [r w'] eqn:Hrun.
  assert (-1 < 0)%Z as Hneg by lia.
  exact (proj1 (CallAsync_negative_timeout started _ (-1) _ r w' submittable_started
                  eq_refl Hneg Hrun)).
Defined.

(** X6.  When [CallAsync] ended with the timeout error of [wait_for], the
    task is not withdrawn, and the future stays cancelled and is never
    resolved, whatever happens later.  As long as the loop of the handle is
    open, once the runtime has run as many tasks as were queued the trampoline
    has executed the callback and, unless the callback raised a
    [BaseException], has given back the extra reference.  If the loop is
    closed before the trampoline runs, as when [asyncio.run] ends after the
    timeout, the trampoline still executes the callback and stores its
    outcome, but hands nothing to the loop and never gives the reference
    back. *)
Theorem CallAsync_timeout_leaves_task_running w f timeoutMs s w' :
  submittable w ->
  is_success (next_post_status w) = true ->
  run (CallAsync f timeoutMs) s w = (Raise (Exc (TimeoutError "")), w') ->
  answer f <> Raise (Exc (TimeoutError "")) ->
  let h := next_id w in
  let T := hevs RuntimeThread h (trace w) in
  (forall s',
     get_future h (preempt s' w') = FCancelled /\
     hevs LoopThread h (trace (preempt s' w')) = hevs LoopThread h (trace w) /\
     (Resume ∉ s' -> length (queue (native w')) <= runs s' ->
      hevs RuntimeThread h (trace (preempt s' w')) = T ++ tramp_asyncio h f /\
      refs_of h (preempt s' w') = if is_base f then 1 else 0)) /\
  (forall s',
     let w'' := preempt s' (close_loop w') in
     get_future h w'' = FCancelled /\
     hevs LoopThread h (trace w'') = hevs LoopThread h (trace w) /\
     (hevs RuntimeThread h (trace w') = T ->
      refs_of h w'' = 1 /\
      (hevs RuntimeThread h (trace w'') = T \/
       hevs RuntimeThread h (trace w'') = T ++ tramp_closed h f) /\
      (Resume ∉ s' -> length (queue (native w')) <= runs s' ->
       hevs RuntimeThread h (trace w'') = T ++ tramp_closed h f))).
Proof.
  intros Hsub Hc Hrun Hne. cbv zeta.
  destruct (CallAsync_posted f timeoutMs (set_sched s w) Hsub Hc) as (w1 & Heq & Hap & _).
  unfold run in Hrun. rewrite Heq in Hrun. simpl in Hap.
  destruct (wait_for_timed_out _ _ _ _ _ _ _ _ _ Hap Hrun eq_refl Hne) as (st' & Hap').
  split.
  - intros s'.
    destruct (preempt_AP _ _ _ _ s' _ _ _ Hap') as (st2 & Hap2 & Hq2).
    destruct (AP_cancelled _ _ _ _ _ _ Hap2) as (Hf & HL).
    split; [exact Hf|]. split; [exact HL|].
    intros Hres Hlen.
    assert (exists st3, AP (next_id w) f (hevs RuntimeThread (next_id w) (trace w))
              (hevs LoopThread (next_id w) (trace w)) st3 true (preempt s' w') /\
              is_queued st3 = false) as (st3 & Hap3 & Hq3).
    { destruct st' as [i|j|]; [|by exists st2; split; [|apply Hq2]..].
      apply (preempt_AP_runs _ _ _ _ s' i); [done|done|].
      pose proof (AP_queue_index _ _ _ _ _ _ _ Hap'). lia. }
    exact (AP_after_trampoline _ _ _ _ _ _ _ Hap3 Hq3).
  - intros s'. cbv zeta.
    destruct (closed_future_cancelled _ _ _ _ _ s' _ Hap') as (Hf & HL).
    split; [exact Hf|]. split; [exact HL|].
    intros HT. destruct (AP_not_run _ _ _ _ _ _ _ Hap' HT) as (i & ->).
    pose proof (close_loop_CQ _ _ _ _ _ _ _ Hap') as Hcq.
    destruct (preempt_CQ _ _ _ _ s' _ _ _ Hcq) as (Hsafe & Hlive).
    split; [|split].
    + destruct Hsafe as [Hr|(i' & Hq')];
        [by apply (CR_refs _ _ _ _ _ _ Hr)|by apply (CQ_refs _ _ _ _ _ _ _ Hq')].
    + destruct Hsafe as [Hr|(i' & Hq')]; [right; apply Hr|left; apply Hq'].
    + intros Hres Hlen. apply Hlive; [done|].
      pose proof (AP_queue_index _ _ _ _ _ _ _ Hap'). lia.
Qed.

Lemma CallAsync_timeout_leaves_task_running_witness :
  submittable started /\ is_success (next_post_status started) = true /\
  exists w',
    run (CallAsync (Returns (VInt 4)) (Some 20%Z)) [TimerExpires] started =
      (Raise (Exc (TimeoutError "")), w') /\
    get_future 1 (preempt [RunTask; LoopRun] w') = FCancelled /\
    refs_of 1 (preempt [RunTask; LoopRun] w') = 0 /\
    refs_of 1 (preempt [RunTask; LoopRun] (close_loop w')) = 1.
Proof.
  split; [exact submittable_started|]. split; [reflexivity|].
  destruct (run (CallAsync (Returns (VInt 4)) (Some 20%Z)) [TimerExpires] started)
    as [r w'] eqn:Hrun.
  assert (r = Raise (Exc (TimeoutError ""))) as ->.
  { assert (fst (run (CallAsync (Returns (VInt 4)) (Some 20%Z)) [TimerExpires] started)
            = Raise (Exc (TimeoutError ""))) as Hfst by (vm_compute; reflexivity).
    by rewrite Hrun in Hfst. }
  exists w'. split; [reflexivity|].
  assert (answer (Returns (VInt 4)) <> Raise (Exc (TimeoutError ""))) as Hne by done.
  destruct (CallAsync_timeout_leaves_task_running started _ _ _ w' submittable_started
              eq_refl Hrun Hne) as (Hopen & Hclosed).
  destruct (Hopen [RunTask; LoopRun]) as (Hf & _ & Hlate).
  split; [exact Hf|].
  assert (Resume ∉ [RunTask; LoopRun]) as Hres.
  { intros Hin. apply elem_of_cons in Hin as [|Hin]; [done|].
    apply elem_of_cons in Hin as [|Hin]; [done|]. by apply not_elem_of_nil in Hin. }
  assert (length (queue (native w')) <= runs [RunTask; LoopRun]) as Hlen.
  { assert (length (queue (native (snd (run (CallAsync (Returns (VInt 4)) (Some 20%Z))
              [TimerExpires] started)))) = 1) as Hl by (vm_compute; reflexivity).
    rewrite Hrun in Hl. simpl in *. lia. }
  split; [exact (proj2 (Hlate Hres Hlen))|].
  destruct (Hclosed [RunTask; LoopRun]) as (_ & _ & Hkept).
  assert (hevs RuntimeThread 1 (trace w') = hevs RuntimeThread 1 (trace started)) as HT.
  { assert (hevs RuntimeThread 1 (trace (snd (run (CallAsync (Returns (VInt 4)) (Some 20%Z))
              [TimerExpires] started))) = []) as Hl by (vm_compute; reflexivity).
    rewrite Hrun in Hl. simpl in Hl. by rewrite Hl. }
  exact (proj1 (Hkept HT)).
Defined.

(** ** What [Wait] keeps of the instance *)

Lemma cv_set_waiting_instance b h w : instance (cv_set_waiting b h w) = instance w.
Proof. unfold cv_set_waiting. by destruct (heap w !! h) as [[a|a]|]. Qed.

Section instance_invariant.
Variable P : World -> Prop.
Hypothesis P_env : forall m w, P w -> P (env_step m w).
Hypothesis P_instance : forall w w', instance w' = instance w -> P w -> P w'.

Lemma preempt_inv s w : P w -> P (preempt s w).
Proof using P_env P_instance.
  revert w. induction s as [|m s IH]; intros w Hw; simpl.
  - by apply (P_instance w).
  - destruct m; try (by apply IH, (P_env _ w)). by apply (P_instance w).
Qed.

Lemma cv_block_inv h tmo s w r w' : P w -> cv_block h tmo s w = (r, w') -> P w'.
Proof using P_env P_instance.
  revert w. induction s as [|m s IH]; intros w Hw; simpl.
  - intros [= <- <-]. by apply (P_instance w).
  - assert (Hgen :
      (let w1 := env_step m w in
       if cv_woken h w1 then (Ret true, preempt s w1) else cv_block h tmo s w1) = (r, w') ->
      P w').
    { simpl. destruct (cv_woken h (env_step m w)).
      - intros [= <- <-]. by apply preempt_inv, P_env.
      - apply IH. by apply P_env. }
    destruct m; try (by apply Hgen).
    destruct tmo as [t|]; [|by apply IH].
    intros [= <- <-]. eapply P_instance; [apply cv_set_waiting_instance|].
    by apply preempt_inv.
Qed.

Lemma cv_wait_inv h tmo w r w' : P w -> cv_wait h tmo w = (r, w') -> P w'.
Proof using P_env P_instance.
  intros Hw. unfold cv_wait.
  set (w2 := cv_set_waiting true h (log CallerThread (CvWait h tmo) w)).
  assert (P w2) as H2.
  { apply (P_instance w); [|done]. unfold w2. by rewrite cv_set_waiting_instance. }
  destruct tmo as [t|]; [|by apply cv_block_inv].
  destruct (Qle_bool t 0); [|by apply cv_block_inv].
  intros [= <- <-]. eapply P_instance; [apply cv_set_waiting_instance|].
  by apply preempt_inv.
Qed.

Lemma Wait_loop_inv fuel h tmo w r w' : P w -> Wait_loop fuel h tmo w = (r, w') -> P w'.
Proof using P_env P_instance.
  revert w. induction fuel as [|fuel IH]; intros w Hw; simpl.
  - by intros [= <- <-].
  - unfold bind, get_blocking. destruct (heap w !! h) as [[a|a]|];
      try (by intros [= <- <-]).
    destruct (AsyncCallableHandle._finish a); [by intros [= <- <-]|].
    destruct (cv_wait h tmo w) as [[[]| |] w1] eqn:Hcv;
      pose proof (cv_wait_inv _ _ _ _ _ Hw Hcv) as H1.
    + by apply IH.
    + by intros [= <- <-].
    + by intros [= <- <-].
    + by intros [= <- <-].
Qed.

Lemma Wait_inv h timeoutMs w r w' : P w -> Wait h timeoutMs w = (r, w') -> P w'.
Proof using P_env P_instance.
  intros Hw. rewrite Wait_unfold. cbv zeta.
  set (w1 := preempt (sched w) w).
  assert (P w1) as H1 by (by apply preempt_inv).
  destruct (Wait_loop (S (length (sched w1))) h (Wait_timeout timeoutMs) w1)
    as [[[]| |] w2] eqn:Hloop; pose proof (Wait_loop_inv _ _ _ _ _ _ H1 Hloop) as H2.
  - unfold bind, get_blocking.
    destruct (heap w2 !! h) as [[a|a]|]; try (by intros [= <- <-]).
    by destruct (AsyncCallableHandle._exc a); intros [= <- <-].
  - by intros [= <- <-].
  - by intros [= <- <-].
Qed.
End instance_invariant.

Lemma poll_ready_locked cbo b w s :
  instance w = Some s ->
  poll_ready cbo w ->
  poll_ready cbo (set_instance (Some (ChipStack.set_networkLock b s)) w).
Proof.
  intros Hi (s' & Hi' & Hcb & Hev & Hret). rewrite Hi in Hi'. injection Hi' as <-.
  eexists. split; [done|]. by destruct s.
Qed.

Lemma poll_ready_release cbo w : poll_ready cbo w -> poll_ready cbo (release_networkLock w).
Proof.
  intros Hp. unfold release_networkLock.
  destruct (instance w) as [s|] eqn:Hi; [|done].
  destruct (ChipStack.networkLock s); [|done]. by apply poll_ready_locked.
Qed.

Lemma poll_ready_env cbo m w : poll_ready cbo w -> poll_ready cbo (env_step m w).
Proof. intros Hw. by destruct (env_step_poll cbo m w Hw). Qed.

Lemma poll_ready_instance cbo w w' :
  instance w' = instance w -> poll_ready cbo w -> poll_ready cbo w'.
Proof. intros Hi Hw. by destruct (poll_frame cbo w w' Hw Hi). Qed.

Lemma Call_poll_ready cbo f tmoMs w r w' :
  ready w ->
  is_success (next_post_status w) = true ->
  poll_ready cbo w ->
  Call f tmoMs w = (r, w') ->
  poll_ready cbo w'.
Proof.
  intros Hready Hc Hp Hcall.
  destruct (Call_Wait f tmoMs w r w' Hready Hc Hcall)
    as (w1 & w2 & _ & _ & Hi1 & _ & _ & _ & HW & Hw').
  assert (poll_ready cbo w1) as Hp1.
  { destruct Hready as (s & Hi & _). rewrite Hi in Hi1. simpl in Hi1.
    eapply poll_ready_instance; [|exact (poll_ready_locked cbo (Some true) w s Hi Hp)].
    by rewrite Hi1. }
  assert (poll_ready cbo w2) as Hp2.
  { exact (Wait_inv (poll_ready cbo) (poll_ready_env cbo) (poll_ready_instance cbo)
             _ _ _ _ _ Hp1 HW). }
  destruct Hw' as [->| ->]; [done|by apply poll_ready_release].
Qed.

(** ** [CallAsyncWithCompleteCallback] from the submission to the result *)

Lemma Call_eq f timeoutMs w :
  Call f timeoutMs w =
    with_networkLock (callObj <- PostTaskOnChipThread f ;; Wait callObj timeoutMs) w.
Proof.
  unfold Call. unfold bind at 1. unfold ret.
  by destruct (with_networkLock _ w) as [[a|t|] w1].
Qed.

(** The state after [self.callbackRes = None; self.completeEvent.clear()]. *)
Lemma CallAsyncWithCompleteCallback_unfold f w st b :
  instance w = Some st ->
  ChipStack.completeEvent st = Some b ->
  CallAsyncWithCompleteCallback f w =
    match Call f None
            (set_instance
               (Some (ChipStack.set_completeEvent (Some false)
                        (ChipStack.set_callbackRes VNone st))) w) with
    | (Ret res, w1) =>
        (ok <- value_is_success res ;;
         if negb ok then
           completeEvent_set ;;
           raise (Exc (value_to_exception res))
         else AwaitCompletion) w1
    | (Raise t, w1) => (Raise t, w1)
    | (Pending, w1) => (Pending, w1)
    end.
Proof.
  intros Hi Hev. unfold CallAsyncWithCompleteCallback.
  unfold bind at 1. unfold set_self. rewrite Hi.
  unfold bind at 1. unfold completeEvent_clear, completeEvent_put.
  unfold bind at 1. unfold self_ at 1. cbn [instance set_instance].
  assert (ChipStack.completeEvent (ChipStack.set_callbackRes VNone st) = Some b) as ->
    by (by destruct st).
  unfold set_self. cbn [instance set_instance].
  change (set_instance
            (Some (ChipStack.set_completeEvent (Some false)
                     (ChipStack.set_callbackRes VNone st)))
            (set_instance (Some (ChipStack.set_callbackRes VNone st)) w))
    with (set_instance
            (Some (ChipStack.set_completeEvent (Some false)
                     (ChipStack.set_callbackRes VNone st))) w).
  rewrite Call_eq. unfold bind at 1. done.
Qed.

Lemma reset_ready cbo w st :
  instance w = Some st ->
  ready w -> poll_ready cbo w ->
  let w0 := set_instance
              (Some (ChipStack.set_completeEvent (Some false)
                       (ChipStack.set_callbackRes VNone st))) w in
  ready w0 /\ poll_ready cbo w0 /\ event_is_set w0 = false.
Proof.
  intros Hi (s & Hi' & Hlock & Hlib & Hrest) (s2 & Hi2 & Hcb & Hev & Hret).
  rewrite Hi in Hi', Hi2. injection Hi' as <-. injection Hi2 as <-. cbv zeta.
  split; [|split].
  - eexists. split; [done|]. by destruct st.
  - eexists. split; [done|]. by destruct st.
  - unfold event_is_set. simpl. by destruct st.
Qed.

(** X7.  What [CallAsyncWithCompleteCallback] gives, on a ready stack that
    accepts the submission and for every schedule, when it is not left waiting:
    the exception of the task if the task raised one; an [AttributeError] if
    the task returned something that is not a [PyChipError]; the error of the
    status, with [completeEvent] set and without polling, if the task returned
    a status that is not a success; and only for a successful status the
    stored value, once the event is set. *)
Theorem CallAsyncWithCompleteCallback_outcome cbo w f s r w' :
  ready w ->
  poll_ready cbo w ->
  is_success (next_post_status w) = true ->
  run (CallAsyncWithCompleteCallback f) s w = (r, w') ->
  r = Pending \/
  match f with
  | Returns (PyChipError c) =>
      event_is_set w' = true /\
      r = if is_success c then stored_outcome (stored_value w')
          else Raise (Exc (ChipStackError c))
  | Returns _ => r = Raise (Exc (AttributeError "object has no attribute 'is_success'"))
  | Raises t => r = Raise t
  end.
Proof.
  intros Hready Hp Hc. unfold run.
  apply (ready_set_sched s) in Hready.
  assert (poll_ready cbo (set_sched s w)) as Hps by exact Hp.
  destruct (Hps) as (st & Hi & Hcb & Hev & Hret).
  destruct (ChipStack.completeEvent st) as [b|] eqn:Hevb; [|done].
  rewrite (CallAsyncWithCompleteCallback_unfold f _ st b Hi Hevb).
  destruct (reset_ready cbo _ st Hi Hready Hps) as (Hr0 & Hp0 & _).
  set (w0 := set_instance _ (set_sched s w)) in *.
  destruct (Call f None w0) as [r1 w1] eqn:Hcall.
  assert (is_success (next_post_status w0) = true) as Hc0 by exact Hc.
  pose proof (Call_poll_ready cbo f None w0 r1 w1 Hr0 Hc0 Hp0 Hcall) as Hp1.
  destruct (Call_spec f None w0 r1 w1 Hr0 Hc0 Hcall)
    as [(-> & Hb & _)|(_ & [(_ & Hn & _)|(-> & _)])]; [|done|by intros [= <- <-]; left].
  destruct f as [v|[e|x]]; [|by intros [= <- <-]; right|done].
  simpl. unfold bind at 1.
  destruct v as [| | | |c|]; try (by intros [= <- <-]; right).
  unfold value_is_success, ret. destruct (is_success c) eqn:Hsc; cbn [negb].
  - intros Hawait. rewrite AwaitCompletion_unfold in Hawait.
    destruct (poll_loop (S (length (sched w1))) w1) as [rl w2] eqn:Hloop.
    destruct (poll_loop_spec cbo _ w1 rl w2 Hp1 (Nat.lt_succ_diag_r _) Hloop)
      as (k & _ & Hp2 & [(-> & _)|(-> & Hset)]).
    + injection Hawait as <- <-. by left.
    + destruct Hp2 as (s2 & Hi2 & _). rewrite Hi2 in Hawait. injection Hawait as <- <-.
      right. split; [done|]. unfold stored_value. by rewrite Hi2.
  - destruct Hp1 as (s1 & Hi1 & _ & Hev1 & _).
    unfold bind at 1. unfold completeEvent_set, completeEvent_put. unfold bind at 1.
    unfold self_. rewrite Hi1.
    destruct (ChipStack.completeEvent s1) as [b1|] eqn:Hevb1; [|done].
    unfold set_self. rewrite Hi1. intros [= <- <-]. right.
    split; [|done]. unfold event_is_set. simpl. by destruct s1.
Qed.

Lemma poll_ready_started : poll_ready None started.
Proof. eexists. split; [reflexivity|]. split; [done|]. split; [done|]. by left. Qed.

Lemma CallAsyncWithCompleteCallback_outcome_witness :
  ready started /\ poll_ready None started /\
  is_success (next_post_status started) = true /\
  fst (run (CallAsyncWithCompleteCallback (Returns (PyChipError 5))) [RunTask] started) =
    Raise (Exc (ChipStackError 5)).
Proof.
  split; [exact ready_started|]. split; [exact poll_ready_started|]. split; [reflexivity|].
  destruct (run (CallAsyncWithCompleteCallback (Returns (PyChipError 5))) [RunTask] started)
    as [r w'] eqn:Hrun.
  destruct (CallAsyncWithCompleteCallback_outcome None started _ _ r w' ready_started
              poll_ready_started eq_refl Hrun) as [Hp|(_ & Hr)]; [|exact Hr].
  assert (fst (run (CallAsyncWithCompleteCallback (Returns (PyChipError 5))) [RunTask] started)
          <> Pending) as Hne by (by vm_compute).
  rewrite Hrun in Hne. by destruct Hne.
Defined.

Lemma event_is_set_release w : event_is_set (release_networkLock w) = event_is_set w.
Proof.
  unfold release_networkLock, event_is_set.
  destruct (instance w) as [s|] eqn:Hi; [|by rewrite Hi].
  destruct (ChipStack.networkLock s); [|by rewrite Hi]. simpl. by destruct s.
Qed.

(** [Call] when the runtime runs the task before the caller looks at it. *)
Lemma Call_task_first f w rest r w' :
  ready w ->
  is_success (next_post_status w) = true ->
  queue (native w) = [] ->
  is_base f = false ->
  sched w = RunTask :: Resume :: rest ->
  Call f None w = (r, w') ->
  r = answer f /\ sched w' = rest /\
  event_is_set w' = event_is_set w /\
  caller_log (trace w') = caller_log (trace w) ++ [IncRef (next_id w)].
Proof.
  intros Hready Hc Hq Hb Hs Hcall.
  destruct (Call_Wait f None w r w' Hready Hc Hcall)
    as (w1 & w2 & Hbq & Hs1 & Hi1 & Hl1 & _ & _ & HW & Hw').
  rewrite Hq in Hbq. simpl in Hbq.
  rewrite Wait_unfold in HW. cbv zeta in HW. rewrite Hs1, Hs in HW.
  cbn [preempt] in HW.
  change (env_step RunTask w1) with (runtime_step w1) in HW.
  destruct (env_step_BQ _ _ _ _ _ RunTask 0 false w1 Hbq) as [(_ & _ & Hbr)|(_ & Hpos)];
    [|specialize (Hpos eq_refl); lia].
  change (env_step RunTask w1) with (runtime_step w1) in Hbr.
  apply (BR_set_sched _ _ _ _ _ rest) in Hbr.
  rewrite (Wait_loop_finished _ _ _ _ _ _ _ _ _ Hbr Hb) in HW.
  rewrite (Wait_result _ _ _ _ _ _ Hbr Hb) in HW. injection HW as <- <-.
  assert (instance (runtime_step w1) = instance w1) as Hi2.
  { by apply (env_step_instance RunTask). }
  assert (event_is_set (set_sched rest (runtime_step w1)) = event_is_set w) as He.
  { unfold event_is_set. cbn [instance set_sched]. rewrite Hi2, Hi1.
    destruct (instance w) as [s|]; [|done]. simpl. by destruct s. }
  assert (caller_log (trace (set_sched rest (runtime_step w1))) =
          caller_log (trace w) ++ [IncRef (next_id w)]) as Hl.
  { cbn [trace set_sched]. change (runtime_step w1) with (env_step RunTask w1).
    by rewrite env_step_caller_log. }
  split; [done|].
  destruct Hw' as [->| ->].
  - done.
  - destruct (release_networkLock_same (set_sched rest (runtime_step w1)))
      as (_ & _ & _ & _ & _ & Hsch & Htr).
    rewrite Hsch, Htr, event_is_set_release. done.
Qed.

(** X8.  From the submission to the stored value: on a ready stack with
    nothing queued, when the runtime runs the task, the task returns a
    successful status and the completion with [v] arrives after [n] elapsed
    poll intervals, [CallAsyncWithCompleteCallback] takes one reference,
    polls [n + 1] times and gives [v] (raised if it is a
    [ChipStackException]). *)
Theorem CallAsyncWithCompleteCallback_delivers cbo w c n v :
  ready w ->
  poll_ready cbo w ->
  is_success (next_post_status w) = true ->
  queue (native w) = [] ->
  is_success c = true ->
  exists w',
    run (CallAsyncWithCompleteCallback (Returns (PyChipError c)))
        (RunTask :: Resume :: elapse_then_complete n v) w = (stored_outcome v, w') /\
    caller_log (trace w') =
      caller_log (trace w) ++ IncRef (next_id w) ::
        concat (replicate (S n) (poll_iteration cbo)).
Proof.
  intros Hready Hp Hc Hq Hsc. unfold run.
  set (s := RunTask :: Resume :: elapse_then_complete n v).
  apply (ready_set_sched s) in Hready.
  assert (poll_ready cbo (set_sched s w)) as Hps by exact Hp.
  destruct (Hps) as (st & Hi & Hcb & Hev & Hret).
  destruct (ChipStack.completeEvent st) as [b|] eqn:Hevb; [|done].
  rewrite (CallAsyncWithCompleteCallback_unfold _ _ st b Hi Hevb).
  destruct (reset_ready cbo _ st Hi Hready Hps) as (Hr0 & Hp0 & He0).
  set (w0 := set_instance _ (set_sched s w)) in *.
  destruct (Call (Returns (PyChipError c)) None w0) as [r1 w1] eqn:Hcall.
  assert (is_success (next_post_status w0) = true) as Hc0 by exact Hc.
  pose proof (Call_poll_ready cbo _ None w0 r1 w1 Hr0 Hc0 Hp0 Hcall) as Hp1.
  destruct (Call_task_first (Returns (PyChipError c)) w0 (elapse_then_complete n v) r1 w1
              Hr0 Hc0 Hq eq_refl eq_refl Hcall) as (-> & Hs1 & He1 & Hl1).
  simpl. unfold bind at 1. unfold value_is_success, ret. rewrite Hsc. cbn [negb].
  rewrite AwaitCompletion_unfold.
  assert (n + 2 <= S (length (sched w1))) as Hfuel.
  { rewrite Hs1, length_elapse_then_complete. lia. }
  assert (event_is_set w1 = false) as Hunset by (by rewrite He1).
  destruct (poll_elapse cbo n v (S (length (sched w1))) w1 Hfuel Hp1 Hunset Hs1)
    as (w2 & Hloop & Hw2 & Hv & Hlog).
  rewrite Hloop. destruct Hw2 as (s2 & Hi2 & _). rewrite Hi2.
  unfold stored_value in Hv. rewrite Hi2 in Hv. rewrite Hv.
  exists w2. split; [done|]. rewrite Hlog, Hl1. by rewrite <- app_assoc.
Qed.

Lemma CallAsyncWithCompleteCallback_delivers_witness :
  ready started /\ poll_ready None started /\
  is_success (next_post_status started) = true /\ queue (native started) = [] /\
  is_success 0 = true /\
  fst (run (CallAsyncWithCompleteCallback (Returns (PyChipError 0)))
         (RunTask :: Resume :: elapse_then_complete 2 (VInt 7)) started) = Ret (VInt 7).
Proof.
  split; [exact ready_started|]. split; [exact poll_ready_started|].
  split; [reflexivity|]. split; [reflexivity|]. split; [reflexivity|].
  destruct (CallAsyncWithCompleteCallback_delivers None started 0 2 (VInt 7) ready_started
              poll_ready_started eq_refl eq_refl eq_refl) as (w' & Hrun & _).
  by rewrite Hrun.
Defined.

(** X9.  An exception of [blockingCB] leaves the poll loop at once: when the
    event is not set, the first pass calls [blockingCB], whose exception
    (of any kind) propagates to the caller before the event is waited for,
    whatever the schedule; when the event is already set, [blockingCB] is not
    called at all and the stored value is given. *)
Theorem blockingCB_exception_ends_poll w st t b s :
  instance w = Some st ->
  ChipStack.blockingCB st = Some (Raises t) ->
  ChipStack.completeEvent st = Some b ->
  run AwaitCompletion s w =
    if b then (stored_outcome (ChipStack.callbackRes st), set_sched s w)
    else (Raise t, log CallerThread BlockingCB (set_sched s w)).
Proof.
  intros Hi Hcb Hev. unfold run. rewrite AwaitCompletion_unfold.
  cbn [poll_loop]. unfold bind at 1. unfold completeEvent_isSet. unfold bind at 1.
  unfold self_ at 1. cbn [instance set_sched]. rewrite Hi, Hev. unfold ret at 1.
  destruct b.
  - unfold ret. cbn [instance set_sched]. by rewrite Hi.
  - unfold bind at 1. unfold call_blockingCB. unfold bind at 1.
    unfold self_ at 1. cbn [instance set_sched]. rewrite Hi, Hcb.
    unfold bind at 1. unfold modify, raise. done.
Qed.

Lemma blockingCB_exception_ends_poll_witness :
  let w := with_blockingCB (Raises (Exc (UserError "ble"))) started in
  exists st, instance w = Some st /\
    ChipStack.blockingCB st = Some (Raises (Exc (UserError "ble"))) /\
    ChipStack.completeEvent st = Some false /\
    fst (run AwaitCompletion [Complete (VInt 7)] w) = Raise (Exc (UserError "ble")).
Proof.
  eexists. split; [reflexivity|]. split; [reflexivity|]. split; [reflexivity|].
  by rewrite (blockingCB_exception_ends_poll
                (with_blockingCB (Raises (Exc (UserError "ble"))) started) _
                (Exc (UserError "ble")) false [Complete (VInt 7)] eq_refl eq_refl eq_refl).
Defined.

(** ** Construction and shutdown *)

Lemma ChipStack__init__eq args w :
  let g := globals_before_StackInit args (globals w) in
  ChipStack__init__ args w =
    if is_success (init_status (native w)) then
      (Ret (constructed args (next_id w)),
       mkWorld (instance w) (heap w) (S (next_id w))
         (set_stack_running true (set_log_funct_set true (native w)))
         (loop_ready w)
         (mkGlobals (Some false) (Some (next_id w)) (logger_handlers g)
                    (logger_level_debug g) true)
         (sched w) (trace w))
    else
      (Raise (Exc (ChipStackError (init_status (native w)))),
       mkWorld (instance w) (heap w) (S (next_id w))
         (set_log_funct_set true (native w)) (loop_ready w) g (sched w) (trace w)).
Proof.
  unfold ChipStack__init__, globals_before_StackInit, constructed. cbv zeta.
  destruct (is_success (init_status (native w))) eqn:Hs; simpl; rewrite Hs;
    destruct (installDefaultLogHandler args), (logger_handlers (globals w) =? 0);
    reflexivity.
Qed.

Lemma ChipStack_fresh args w :
  instance w = None ->
  ChipStack_ args w =
    match ChipStack__init__ args w with
    | (Ret o, w') => (Ret (ChipStack.ident o), set_instance (Some o) w')
    | (Raise t, w') => (Raise t, w')
    | (Pending, w') => (Pending, w')
    end.
Proof. intros Hi. unfold ChipStack_, _singleton, wrapper. by rewrite Hi. Qed.

(** X10.  A construction that returns, in a process without an instance,
    returns the identity of a new object and leaves a stack on which tasks can
    be submitted: the lock is free, the library handle and the storage are
    set, the runtime thread runs, [builtins.chipStack] is the new object, no
    blocking callback is registered, and the two getters give the arguments of
    this construction. *)
Theorem construction_makes_ready args w r w' :
  instance w = None ->
  wf w ->
  ChipStack_ args w = (Ret r, w') ->
  r = next_id w /\
  ready w' /\ poll_ready None w' /\ live w' /\
  builtins_chipStack (globals w') = Some r /\
  GetStorageManager w' = (Ret (Some (persistentStoragePath args)), w') /\
  ChipStack_enableServerInteractions w' = (Ret (enableServerInteractions args), w').
Proof.
  intros Hi (Hq & Hl). rewrite (ChipStack_fresh args w Hi), ChipStack__init__eq. cbv zeta.
  destruct (is_success (init_status (native w))); [|done].
  intros [= <- <-]. split; [done|].
  split.
  { eexists. split; [reflexivity|]. simpl. split; [done|]. split; [done|]. split; [done|].
    split; (eapply Forall_impl; [eassumption|]); simpl; lia. }
  split.
  { eexists. split; [reflexivity|]. simpl. split; [done|]. split; [done|]. by left. }
  split.
  { eexists _, _. split; [reflexivity|]. simpl. done. }
  done.
Qed.

Lemma wf_initial_world init posts : wf (initial_world init posts).
Proof. split; apply Forall_nil_2. Qed.

Lemma construction_makes_ready_witness :
  instance (initial_world 0 [5%Z]) = None /\ wf (initial_world 0 [5%Z]) /\
  ready (snd (ChipStack_ (mkArgs "/var/chip" false None false) (initial_world 0 [5%Z]))).
Proof.
  split; [reflexivity|]. split; [apply wf_initial_world|].
  destruct (ChipStack_ (mkArgs "/var/chip" false None false) (initial_world 0 [5%Z]))
    as [r w'] eqn:Hc.
  assert (r = Ret 0) as ->.
  { assert (fst (ChipStack_ (mkArgs "/var/chip" false None false) (initial_world 0 [5%Z]))
            = Ret 0) as Hf by reflexivity.
    by rewrite Hc in Hf. }
  exact (proj1 (proj2 (construction_makes_ready (mkArgs "/var/chip" false None false)
                         (initial_world 0 [5%Z]) 0 w' eq_refl (wf_initial_world 0 [5%Z])
                         Hc))).
Defined.

(** X11.  A construction whose [StackInit] does not succeed raises the error
    of the status and is not remembered: the singleton cell stays empty,
    [builtins.chipStack] is not set and the runtime thread is not started,
    although the object was created, the debug flag set, the log function
    installed and the storage opened.  The next construction therefore runs
    the constructor again, on a new object. *)
Theorem failed_construction_not_cached args args2 w :
  instance w = None ->
  is_success (init_status (native w)) = false ->
  exists w' w'',
    ChipStack_ args w = (Raise (Exc (ChipStackError (init_status (native w)))), w') /\
    instance w' = None /\
    builtins_chipStack (globals w') = builtins_chipStack (globals w) /\
    stack_running (native w') = stack_running (native w) /\
    enableDebugMode (globals w') = Some false /\
    storage_open (globals w') = true /\
    log_funct_set (native w') = true /\
    next_id w' = S (next_id w) /\
    ChipStack_ args2 w' = (Raise (Exc (ChipStackError (init_status (native w)))), w'') /\
    next_id w'' = S (S (next_id w)).
Proof.
  intros Hi Hs. eexists _, _.
  rewrite (ChipStack_fresh args w Hi), ChipStack__init__eq. cbv zeta. rewrite Hs.
  split; [reflexivity|]. split; [done|]. split; [done|]. split; [by destruct (native w)|].
  split; [done|]. split; [done|]. split; [by destruct (native w)|]. split; [done|].
  rewrite ChipStack_fresh; [|done]. rewrite ChipStack__init__eq. cbv zeta.
  assert (init_status (native
            (mkWorld (instance w) (heap w) (S (next_id w))
               (set_log_funct_set true (native w)) (loop_ready w)
               (globals_before_StackInit args (globals w)) (sched w) (trace w)))
          = init_status (native w)) as Hst by (by destruct (native w)).
  rewrite Hst, Hs. split; reflexivity.
Qed.

Lemma failed_construction_not_cached_witness :
  instance (initial_world 172 []) = None /\
  is_success (init_status (native (initial_world 172 []))) = false /\
  fst (ChipStack_ default_args (initial_world 172 [])) = Raise (Exc (ChipStackError 172)) /\
  instance (snd (ChipStack_ default_args (initial_world 172 []))) = None.
Proof.
  split; [reflexivity|]. split; [reflexivity|].
  destruct (failed_construction_not_cached default_args default_args (initial_world 172 [])
              eq_refl eq_refl) as (w' & w'' & Hc & Hi & _).
  rewrite Hc. split; [reflexivity|exact Hi].
Defined.

Lemma ChipStack_handlers args w :
  let n := logger_handlers (globals w) in
  let n' := logger_handlers (globals (snd (ChipStack_ args w))) in
  n' = n \/ (n = 0 /\ n' = 1 /\ installDefaultLogHandler args = true /\ instance w = None).
Proof.
  cbv zeta. unfold ChipStack_, _singleton, wrapper.
  destruct (instance w) as [o|] eqn:Hi; [by left|].
  rewrite ChipStack__init__eq. cbv zeta. unfold globals_before_StackInit.
  destruct (installDefaultLogHandler args);
    [|destruct (is_success (init_status (native w))); by left].
  destruct (logger_handlers (globals w) =? 0) eqn:H0;
    [|destruct (is_success (init_status (native w))); by left].
  apply Nat.eqb_eq in H0. right.
  destruct (is_success (init_status (native w))); simpl; rewrite H0; done.
Qed.

(** X12.  The constructor installs its default log handler only when it was
    asked to and no handler exists: however many constructions are attempted,
    with whatever arguments and outcomes, no handler is ever removed and at
    most one is added, and none if a handler existed before. *)
Theorem default_log_handler_once l w :
  let n := logger_handlers (globals w) in
  let n' := logger_handlers (globals (constructions l w)) in
  n <= n' /\ n' <= Nat.max 1 n /\ (0 < n -> n' = n).
Proof.
  cbv zeta. revert w. induction l as [|args l IH]; intros w; simpl; [lia|].
  specialize (IH (snd (ChipStack_ args w))).
  destruct (ChipStack_handlers args w) as [Heq|(H0 & H1 & _)]; cbv zeta in *.
  - rewrite Heq in IH. exact IH.
  - rewrite H1 in IH. lia.
Qed.

Lemma live_started : live started.
Proof. eexists _, _. split; [reflexivity|]. done. Qed.

(** X13.  [Shutdown] succeeds once.  On a stack whose library handle, storage
    and [builtins.chipStack] are set it returns, stops the runtime thread,
    closes the storage, clears the six fields and removes
    [builtins.chipStack], while the singleton cell keeps the instance; every
    further [Shutdown] raises the [AttributeError] of the cleared library
    handle and changes nothing, and [GetStorageManager] gives [None]. *)
Theorem Shutdown_succeeds_once w :
  live w ->
  exists w',
    Shutdown w = (Ret tt, w') /\
    is_shut_down w' /\
    storage_open (globals w') = false /\
    builtins_chipStack (globals w') = None /\
    option_map ChipStack.ident (instance w') = option_map ChipStack.ident (instance w) /\
    Shutdown w' =
      (Raise (Exc (none_has_no_attribute "pychip_DeviceController_StackShutdown")), w') /\
    GetStorageManager w' = (Ret None, w').
Proof.
  intros (s & p & Hi & Hlib & Hst & Hb).
  assert (exists w', Shutdown w = (Ret tt, w') /\
            instance w' =
              Some (ChipStack.mk (ChipStack.ident s) None None
                      (ChipStack.commissioningCompleteEvent s)
                      None None VNone VNone (ChipStack.commissioningEventRes s)
                      (ChipStack._activeLogFunct s) (ChipStack.addModulePrefixToLogMessage s)
                      (ChipStack._enableServerInteractions s) (ChipStack.blockingCB s) None) /\
            stack_running (native w') = false /\
            storage_open (globals w') = false /\
            builtins_chipStack (globals w') = None) as (w' & Hs & Hi' & Hrun & Hso & Hb').
  { unfold Shutdown, bind, self_, modify, set_self, gets. rewrite Hi, Hlib, Hst. simpl.
    rewrite Hi. simpl. rewrite Hb. eexists. split; [reflexivity|]. simpl.
    split; [done|]. split; [by destruct (native w)|]. done. }
  exists w'. split; [exact Hs|].
  split. { eexists. split; [exact Hi'|]. done. }
  split; [done|]. split; [done|]. split; [by rewrite Hi, Hi'|].
  split.
  - unfold Shutdown, bind, self_. by rewrite Hi'.
  - unfold GetStorageManager, bind, self_, ret. by rewrite Hi'.
Qed.

Lemma Shutdown_succeeds_once_witness :
  live started /\ fst (Shutdown started) = Ret tt /\
  fst (Shutdown (snd (Shutdown started))) =
    Raise (Exc (none_has_no_attribute "pychip_DeviceController_StackShutdown")).
Proof.
  split; [exact live_started|].
  destruct (Shutdown_succeeds_once started live_started) as (w' & Hs & _ & _ & _ & _ & Hs2 & _).
  rewrite Hs. simpl. by rewrite Hs2.
Defined.

Lemma Shutdown_fields w0 w :
  Shutdown w0 = (Ret tt, w) ->
  exists s, instance w = Some s /\
    ChipStack.networkLock s = None /\ ChipStack._ChipStackLib s = None /\
    ChipStack._chipDLLPath s = None /\ ChipStack._persistentStorage s = None /\
    stack_running (native w) = false.
Proof.
  unfold Shutdown, bind, self_, set_self, modify, gets, raise.
  destruct (instance w0) as [s|] eqn:Hi; [|done].
  destruct (ChipStack._ChipStackLib s) as [[]|]; [|done]. simpl.
  destruct (ChipStack._persistentStorage s); [|done]. simpl. rewrite Hi. simpl.
  destruct (builtins_chipStack _); [|done]. intros [= <-]. by eexists.
Qed.

(** X14.  [LocateChipDLL] loads the library only when the handle is [None].
    On a stack that has its handle it changes nothing and gives the stored
    path.  After [Shutdown] it loads the library again: the handle and the
    path are set as the constructor had set them, but the lock stays [None]
    and the runtime stays stopped, so that [Call] still fails with the
    [TypeError], [PostTaskOnChipThread] now reaches the runtime, which refuses
    the task, and a further [Shutdown] gets as far as the storage, which is
    [None]. *)
Theorem LocateChipDLL_reloads_after_Shutdown w0 w f timeoutMs :
  Shutdown w0 = (Ret tt, w) ->
  (forall w1 s lib, instance w1 = Some s -> ChipStack._ChipStackLib s = Some lib ->
     LocateChipDLL w1 = (Ret (ChipStack._chipDLLPath s), w1)) /\
  exists w',
    LocateChipDLL w = (Ret (Some ChipStackDLLBaseName), w') /\
    lib_state w' = Some (Some LibraryHandle) /\
    lock_state w' = Some None /\
    stack_running (native w') = false /\
    LocateChipDLL w' = (Ret (Some ChipStackDLLBaseName), w') /\
    fst (Call f timeoutMs w') = Raise (Exc none_is_no_context_manager) /\
    is_submission_error (fst (PostTaskOnChipThread f w')) /\
    fst (Shutdown w') = Raise (Exc (none_has_no_attribute "Shutdown")).
Proof.
  intros Hsd. split.
  { intros w1 s lib Hi Hlib. unfold LocateChipDLL, _loadLib, bind, self_, ret.
    by rewrite Hi, Hlib, Hi. }
  destruct (Shutdown_fields _ _ Hsd) as (s & Hi & Hlock & Hlib & Hpath & Hst & Hrun).
  exists (set_instance (Some (set_library (Some LibraryHandle) (Some ChipStackDLLBaseName) s)) w).
  split.
  { unfold LocateChipDLL, _loadLib, bind, self_, set_self, ret. by rewrite Hi, Hlib, Hi. }
  split; [done|]. split; [unfold lock_state; simpl; by rewrite Hlock|]. split; [done|].
  split.
  { unfold LocateChipDLL, _loadLib, bind, self_, ret. done. }
  split.
  { unfold Call, bind, with_networkLock, self_. simpl. by rewrite Hlock. }
  split.
  { exists 3%Z. unfold PostTaskOnChipThread, bind, new_object, modify,
      pychip_DeviceController_PostTaskOnChipThread, self_, bind.
    unfold Py_IncRef. simpl. rewrite lookup_insert_eq. simpl. rewrite Hrun. done. }
  unfold Shutdown, bind, self_, modify. simpl. by rewrite Hst.
Qed.

Lemma LocateChipDLL_reloads_after_Shutdown_witness :
  Shutdown started = (Ret tt, shut_down) /\
  fst (LocateChipDLL shut_down) = Ret (Some ChipStackDLLBaseName).
Proof.
  assert (Shutdown started = (Ret tt, shut_down)) as Hsd by reflexivity.
  split; [exact Hsd|].
  destruct (LocateChipDLL_reloads_after_Shutdown started shut_down (Returns VNone) None Hsd)
    as (_ & w' & Hl & _).
  by rewrite Hl.
Defined.

(** X15.  [setLogFunct] works under [networkLock].  On a ready stack it
    stores the wrapped function, tells the library whether a function was
    given and leaves the stack ready; while a [Call] is suspended it waits at
    the lock, and after [Shutdown] it fails with the [TypeError] of
    [with None:], in both cases without touching the log function. *)
Theorem setLogFunct_takes_networkLock w given f timeoutMs s wp wsd :
  ready w ->
  (exists w', setLogFunct given w = (Ret tt, w') /\ ready w' /\
     log_funct_set (native w') = given /\
     option_map ChipStack._activeLogFunct (instance w') = Some true /\
     trace w' = trace w /\ heap w' = heap w /\ queue (native w') = queue (native w)) /\
  (run (Call f timeoutMs) s w = (Pending, wp) -> setLogFunct given wp = (Pending, wp)) /\
  (Shutdown w = (Ret tt, wsd) ->
     setLogFunct given wsd = (Raise (Exc none_is_no_context_manager), wsd)).
Proof.
  intros Hready. split; [|split].
  - destruct Hready as (st & Hi & Hlock & Hlib & Hrun & Hq & Hl).
    unfold setLogFunct. rewrite (with_networkLock_eq _ w st Hi Hlock).
    unfold bind, set_self, self_, modify. simpl.
    rewrite Hlib.
    unfold release_networkLock. simpl.
    eexists. split; [reflexivity|]. simpl.
    split.
    { eexists. split; [reflexivity|]. simpl. split; [done|]. split; [by destruct st|].
      split; [by destruct (native w)|]. split; [by destruct (native w)|done]. }
    split; [by destruct (native w)|]. split; [done|]. split; [done|]. split; [done|].
    by destruct (native w).
  - intros Hcall. apply (ready_set_sched s) in Hready.
    destruct (Call_lock f timeoutMs _ Pending wp Hready Hcall) as (_ & H).
    specialize (H eq_refl). unfold lock_state in H.
    unfold setLogFunct, with_networkLock, self_.
    destruct (instance wp) as [s'|]; [|done]. simpl in H. injection H as ->. done.
  - intros Hsd. destruct (Shutdown_fields _ _ Hsd) as (st & Hi & Hlock & _).
    unfold setLogFunct, with_networkLock, self_. by rewrite Hi, Hlock.
Qed.

Lemma setLogFunct_takes_networkLock_witness :
  ready started /\ fst (setLogFunct false started) = Ret tt /\
  log_funct_set (native (snd (setLogFunct false started))) = false /\
  fst (setLogFunct true shut_down) = Raise (Exc none_is_no_context_manager).
Proof.
  split; [exact ready_started|].
  destruct (setLogFunct_takes_networkLock started false (Returns VNone) None [] started
              shut_down ready_started) as ((w' & Hs & _ & Hset & _) & _ & _).
  rewrite Hs. split; [reflexivity|]. split; [exact Hset|].
  destruct (setLogFunct_takes_networkLock started true (Returns VNone) None [] started
              shut_down ready_started) as (_ & _ & Hsd).
  by rewrite (Hsd eq_refl).
Defined.

(** ** Logging *)

Section LogCategory_properties.
Variables E P D A : Z.


End LogCategory_properties.

(** ** The formatter *)

Lemma string_app_nil_r (s : string) : (s ++ "")%string = s.
Proof.
  induction s as [|c s IH]; [done|].
  change (String c (s ++ "")%string = String c s). by rewrite IH.
Qed.

Lemma string_app_assoc (a b c : string) : ((a ++ b) ++ c)%string = (a ++ (b ++ c))%string.
Proof.
  induction a as [|x a IH]; [done|].
  change (String x ((a ++ b) ++ c)%string = String x (a ++ (b ++ c))%string). by rewrite IH.
Qed.

(** X17.  The format that [ChipLogFormatter.__init__] builds has its fields
    in one order, whatever the options: the time, the level, the module, the
    message; the message is always there, and the format uses the time exactly
    when a [datefmt] was given or [logTimestamp] is set. *)
Theorem ChipLogFormatter_fmt d logModulePrefix logLevel logTimestamp ms :
  let f := ChipLogFormatter__init__ d logModulePrefix logLevel logTimestamp ms in
  let withTime := bool_decide (d <> None) || logTimestamp in
  _fmt f = ((if withTime then "%(asctime)s " else "") ++
            (if logLevel then "%(levelname)s:" else "") ++
            (if logModulePrefix then "CHIP:%(chip-module)s: " else "") ++
            "%(message)s")%string /\
  usesTime f = withTime /\
  datefmt f = d /\ logMSecs f = ms.
Proof.
  cbv zeta. unfold ChipLogFormatter__init__, usesTime. cbv zeta. cbn [_fmt datefmt logMSecs].
  destruct (bool_decide (d <> None) || logTimestamp), logLevel, logModulePrefix;
    (split; [reflexivity|]); (split; [reflexivity|]); done.
Qed.

(** X18.  [formatTime] assigns [timestampStr] only when [datefmt] is [None]:
    with a [datefmt] it raises [UnboundLocalError], whatever [logMSecs] is.
    [Formatter.format] passes the [datefmt] of the formatter, and a formatter
    built with a [datefmt] has a format that uses the time: such a formatter
    cannot format any record. *)
Theorem formatter_with_datefmt_fails d logModulePrefix logLevel logTimestamp ms now r :
  (forall self, formatTime self now r (Some d) = UnboundLocalError "timestampStr") /\
  ChipLogFormatter_format
    (ChipLogFormatter__init__ (Some d) logModulePrefix logLevel logTimestamp ms) now r =
    UnboundLocalError "timestampStr".
Proof.
  split.
  - intros self. unfold formatTime. by destruct (logMSecs self).
  - unfold ChipLogFormatter_format.
    destruct (ChipLogFormatter_fmt (Some d) logModulePrefix logLevel logTimestamp ms)
      as (_ & -> & -> & Hms).
    assert (bool_decide (Some d <> None) = true) as -> by (by apply bool_decide_eq_true_2).
    cbn [orb]. unfold formatTime. rewrite Hms. by destruct ms.
Qed.

Lemma format_03ld_three_digits q :
  (0 <= q < 1000)%Z -> String.length (format_03ld q) = 3.
Proof.
  intros Hq.
  assert (forallb (fun n => String.length (format_03ld (Z.of_nat n)) =? 3) (seq 0 1000) = true)
    as Hall by (vm_compute; reflexivity).
  rewrite forallb_forall in Hall.
  specialize (Hall (Z.to_nat q)). rewrite Z2Nat.id in Hall by lia.
  apply Nat.eqb_eq, Hall. apply in_seq. lia.
Qed.

(** X19.  The time of a record, without a [datefmt]: the time of the call,
    and with [logMSecs] a point and the milliseconds of the record's
    [timestamp-usec], which for a count of microseconds below one second are
    exactly three digits ([000] when the record has no such entry). *)
Theorem formatTime_milliseconds self now r :
  (forall us, timestamp_usec r = Some us -> (0 <= us < 1000000)%Z ->
     logMSecs self = true ->
     exists digits,
       formatTime self now r None = Text (now ++ "." ++ digits)%string /\
       String.length digits = 3 /\
       digits = format_03ld (us / 1000)) /\
  (timestamp_usec r = None -> logMSecs self = true ->
     formatTime self now r None = Text (now ++ ".000")%string) /\
  (logMSecs self = false -> formatTime self now r None = Text now).
Proof.
  split; [|split].
  - intros us Hus Hrange Hms. unfold formatTime. rewrite Hms, Hus.
    change (default 0%Z (Some us)) with us.
    assert (us ÷ 1000 = us / 1000)%Z as Hq by (apply Z.quot_div_nonneg; lia).
    rewrite Hq. eexists. split; [reflexivity|]. split; [|reflexivity].
    apply format_03ld_three_digits. split; [apply Z.div_pos; lia|].
    apply Z.div_lt_upper_bound; lia.
  - intros Hus Hms. unfold formatTime. by rewrite Hms, Hus.
  - intros Hms. unfold formatTime. by rewrite Hms.
Qed.

Lemma formatTime_milliseconds_witness :
  timestamp_usec (mkLogRecord 20 "x" "DL" 0 (Some 123456%Z)) = Some 123456%Z /\
  (0 <= 123456 < 1000000)%Z /\ logMSecs default_formatter = true /\
  formatTime default_formatter "2024-01-01 00:00:00+0000"
    (mkLogRecord 20 "x" "DL" 0 (Some 123456%Z)) None =
    Text "2024-01-01 00:00:00+0000.123".
Proof.
  split; [reflexivity|]. split; [lia|]. split; [reflexivity|].
  destruct (formatTime_milliseconds default_formatter "2024-01-01 00:00:00+0000"
              (mkLogRecord 20 "x" "DL" 0 (Some 123456%Z))) as (H & _).
  destruct (H 123456%Z eq_refl ltac:(lia) eq_refl) as (digits & -> & _ & ->).
  reflexivity.
Defined.

Lemma defaultLogFunct_record E P D A self eff ts us moduleName cat text r :
  defaultLogFunct E P D A self eff ts us moduleName cat text = Some r ->
  r = mkLogRecord (categoryToLogLevel E P D A cat)
        (if ChipStack.addModulePrefixToLogMessage self
         then ("CHIP:" ++ moduleName ++ ": " ++ text)%string else text)
        moduleName ts (Some us).
Proof.
  unfold defaultLogFunct, Logger_log. cbv zeta. cbn [levelno].
  destruct (eff <=? categoryToLogLevel E P D A cat)%Z; [|done]. by intros [= <-].
Qed.

(** X20.  The line that a message of the library becomes.  A record that
    the default log function made is formatted by the default formatter as
    its message alone, which already has the module prefix when
    [addModulePrefixToLogMessage] is set; a formatter with [logModulePrefix]
    puts the prefix in front once more; and with all the options the line is
    the time with the milliseconds, the name of the level, the module and the
    message. *)
Theorem default_log_line E P D A self eff ts us moduleName cat text now r :
  defaultLogFunct E P D A self eff ts us moduleName cat text = Some r ->
  let line := if ChipStack.addModulePrefixToLogMessage self
              then ("CHIP:" ++ moduleName ++ ": " ++ text)%string else text in
  ChipLogFormatter_format default_formatter now r = Text line /\
  ChipLogFormatter_format (ChipLogFormatter__init__ None true false false true) now r =
    Text ("CHIP:" ++ moduleName ++ ": " ++ line)%string /\
  ChipLogFormatter_format (ChipLogFormatter__init__ None true true true true) now r =
    Text (now ++ "." ++ format_03ld (Z.quot us 1000) ++ " " ++
          logging.getLevelName (categoryToLogLevel E P D A cat) ++ ":CHIP:" ++
          moduleName ++ ": " ++ line)%string.
Proof.
  intros Hr. apply defaultLogFunct_record in Hr. cbv zeta.
  set (line := if ChipStack.addModulePrefixToLogMessage self
               then ("CHIP:" ++ moduleName ++ ": " ++ text)%string else text) in *.
  subst r. split; [|split].
  - assert (ChipLogFormatter_format default_formatter now
              (mkLogRecord (categoryToLogLevel E P D A cat) line moduleName ts (Some us)) =
            Text (line ++ "")%string) as -> by reflexivity.
    by rewrite string_app_nil_r.
  - assert (ChipLogFormatter_format (ChipLogFormatter__init__ None true false false true) now
              (mkLogRecord (categoryToLogLevel E P D A cat) line moduleName ts (Some us)) =
            Text ("CHIP:" ++ moduleName ++ ": " ++ line ++ "")%string) as -> by reflexivity.
    by rewrite string_app_nil_r.
  - assert (ChipLogFormatter_format (ChipLogFormatter__init__ None true true true true) now
              (mkLogRecord (categoryToLogLevel E P D A cat) line moduleName ts (Some us)) =
            Text ((now ++ "." ++ format_03ld (Z.quot us 1000)) ++ " " ++
                  logging.getLevelName (categoryToLogLevel E P D A cat) ++ ":CHIP:" ++
                  moduleName ++ ": " ++ line ++ "")%string) as -> by reflexivity.
    by rewrite string_app_nil_r, !string_app_assoc.
Qed.

Lemma default_log_line_witness :
  exists r,
    defaultLogFunct 1 2 3 4 (constructed default_args 0) logging.DEBUG 17 250000 "DL" 2
      "Device ready" = Some r /\
    ChipLogFormatter_format default_formatter "2024-01-01 00:00:00+0000" r =
      Text "CHIP:DL: Device ready".
Proof.
  eexists. split; [reflexivity|].
  exact (proj1 (default_log_line 1 2 3 4 (constructed default_args 0) logging.DEBUG 17 250000
                  "DL" 2 "Device ready" "2024-01-01 00:00:00+0000" _ eq_refl)).
Defined.

(** ** [ErrorToException] *)

(** X21.  [ErrorToException] on a stack that has its library handle returns
    an exception object and changes nothing.  The object is a [DeviceError]
    exactly when the error is [0x2C] and a device status is given; it then
    carries the profile and the status code, a system error code that is
    [None] exactly when the one of the status is zero, and the text of the
    status report, followed by the system error code when there is one.  In
    every other case the device status is ignored and the object is a
    [ChipStackError] with the error and its text.  After [Shutdown] the method
    raises the [AttributeError] of the cleared library handle. *)
Theorem ErrorToException_classifies report text err st w s lib :
  instance w = Some s ->
  ChipStack._ChipStackLib s = Some lib ->
  (exists e,
     ErrorToException report text err st w = (Ret e, w) /\
     (is_DeviceError e = true <-> err = 44%Z /\ st <> None) /\
     (is_DeviceError e = false -> e = ChipStackError_object err (text err)) /\
     (forall d, st = Some d -> err = 44%Z ->
        exists sys,
          e = DeviceError_object (ProfileId d) (StatusCode d) sys (exception_message e) /\
          (sys = None <-> SysErrorCode d = 0%Z) /\
          (sys = None -> exception_message e = report (ProfileId d) (StatusCode d)) /\
          (forall c, sys = Some c ->
             c = SysErrorCode d /\
             exception_message e =
               (report (ProfileId d) (StatusCode d) ++ " (system err " ++
                NilZero.string_of_int (Z.to_int c) ++ ")")%string))) /\
  (forall w0 wsd, Shutdown w0 = (Ret tt, wsd) ->
     exists attr,
       ErrorToException report text err st wsd =
         (Raise (Exc (none_has_no_attribute attr)), wsd)).
Proof.
  intros Hi Hlib. split.
  - unfold ErrorToException, bind, self_, ret. rewrite Hi, Hlib. destruct lib.
    destruct st as [d|].
    + destruct (Z.eqb_spec err 44) as [->|Hne].
      * eexists. split; [reflexivity|]. split; [done|]. split; [done|].
        intros d' [= <-] _. eexists. split; [reflexivity|]. cbn [exception_message].
        destruct (Z.eqb_spec (SysErrorCode d) 0) as [H0|H0]; cbn [negb].
        -- split; [done|]. split; [done|]. done.
        -- split; [split; [done|by intros ?]|]. split; [done|]. by intros c [= <-].
      * eexists. split; [reflexivity|]. split; [|split; [done|]].
        -- split; [done|]. by intros (? & _).
        -- by intros d' _ ?.
    + eexists. split; [reflexivity|]. split; [|split; [done|done]].
      split; [done|]. by intros (_ & ?).
  - intros w0 wsd Hsd. destruct (Shutdown_fields _ _ Hsd) as (s' & Hi' & _ & Hlib' & _).
    unfold ErrorToException, bind, self_, raise. rewrite Hi', Hlib'.
    destruct st as [d|]; [destruct (err =? 44)%Z|]; by eexists.
Qed.

Lemma ErrorToException_classifies_witness :
  exists s, instance started = Some s /\ ChipStack._ChipStackLib s = Some LibraryHandle /\
    fst (ErrorToException (fun _ _ => "General error") (fun _ => "CHIP Error") 44
           (Some (mkDeviceStatusStruct 0 1 5)) started) =
      Ret (DeviceError_object 0 1 (Some 5%Z) "General error (system err 5)").
Proof.
  eexists. split; [reflexivity|]. split; [reflexivity|].
  destruct (ErrorToException_classifies (fun _ _ => "General error") (fun _ => "CHIP Error")
              44 (Some (mkDeviceStatusStruct 0 1 5)) started _ LibraryHandle eq_refl eq_refl)
    as ((e & He & _) & _).
  rewrite He. simpl. f_equal.
  assert (fst (ErrorToException (fun _ _ => "General error") (fun _ => "CHIP Error") 44
                 (Some (mkDeviceStatusStruct 0 1 5)) started) =
          Ret (DeviceError_object 0 1 (Some 5%Z) "General error (system err 5)")) as H
    by (vm_compute; reflexivity).
  rewrite He in H. simpl in H. by injection H.
Defined.

(** ** Directories up to the root *)

Lemma rstrip_sep_prefix p : rstrip_sep p `prefix_of` p.
Proof.
  induction p as [|c p IH]; simpl; [done|].
  destruct (rstrip_sep p) as [|x q] eqn:Hr.
  - destruct (is_sep c); [apply prefix_nil|]. apply prefix_cons, prefix_nil.
  - by apply prefix_cons.
Qed.

Lemma dirname_prefix p : dirname p `prefix_of` p.
Proof.
  unfold dirname. cbv zeta.
  assert (take (after_last_sep p) p `prefix_of` p) as Ht by apply prefix_take.
  destruct (negb _ && negb _); [|done].
  etrans; [apply rstrip_sep_prefix|done].
Qed.

Lemma prefix_shorter {A} (l1 l2 : list A) : l1 `prefix_of` l2 -> l1 <> l2 -> length l1 < length l2.
Proof.
  intros (k & ->) Hne. rewrite length_app.
  destruct k as [|x k]; [by rewrite app_nil_r in Hne|]. simpl. lia.
Qed.

(** The directories that the generator yields form a chain of parents. *)
Lemma _AllDirsToRoot_loop_chain fuel dir :
  length dir < fuel ->
  exists l,
    _AllDirsToRoot_loop fuel dir = Some l /\
    l !! 0 = Some dir /\
    length l <= S (length dir) /\
    (forall i d d', l !! i = Some d -> l !! S i = Some d' ->
       d' = dirname d /\ d' <> [] /\ length d' < length d) /\
    (forall d, last l = Some d -> dirname d = [] \/ dirname d = d).
Proof.
  revert dir. induction fuel as [|fuel IH]; intros dir Hlt; [lia|]. simpl.
  destruct (bool_decide_reflect (dirname dir = [])) as [He|He]; simpl.
  { exists [dir]. split; [done|]. split; [done|]. split; [simpl; lia|].
    split; [by intros [|i] d d' ? ?|]. intros d [= <-]. by left. }
  destruct (bool_decide_reflect (dirname dir = dir)) as [Hd|Hd]; simpl.
  { exists [dir]. split; [done|]. split; [done|]. split; [simpl; lia|].
    split; [by intros [|i] d d' ? ?|]. intros d [= <-]. by right. }
  pose proof (prefix_shorter _ _ (dirname_prefix dir) Hd) as Hshort.
  destruct (IH (dirname dir)) as (l & -> & H0 & Hlen & Hchain & Hlast); [lia|].
  exists (dir :: l). split; [done|]. split; [done|]. split; [simpl; lia|].
  split.
  - intros [|i] d d'; simpl.
    + intros [= <-] Hd'.
      assert (Some d' = Some (dirname dir)) as [= ->]
        by (etrans; [symmetry; exact Hd'|exact H0]).
      done.
    + apply Hchain.
  - intros d. destruct l as [|x l]; [done|]. simpl. apply Hlast.
Qed.

(** X22.  [_AllDirsToRoot] ends for every path, whatever [abspath] gives:
    it yields the absolute path first, then each time the [dirname] of the
    directory before, which is not empty and strictly shorter, and it stops
    at the first directory whose [dirname] is empty or the directory itself;
    it never yields more directories than the path has characters, plus
    one. *)
Theorem _AllDirsToRoot_chain abspath dir :
  exists l,
    _AllDirsToRoot abspath dir = Some l /\
    l !! 0 = Some (abspath dir) /\
    length l <= S (length (abspath dir)) /\
    (forall i d d', l !! i = Some d -> l !! S i = Some d' ->
       d' = dirname d /\ d' <> [] /\ length d' < length d) /\
    (forall d, last l = Some d -> dirname d = [] \/ dirname d = d).
Proof. unfold _AllDirsToRoot. cbv zeta. apply _AllDirsToRoot_loop_chain. lia. Qed.

Lemma after_last_sep_app a b :
  after_last_sep (a ++ b) =
    match after_last_sep b with
    | 0 => after_last_sep a
    | S i => length a + S i
    end.
Proof.
  induction a as [|c a IH]; simpl; [by destruct (after_last_sep b)|].
  rewrite IH. destruct (after_last_sep b) as [|i]; [done|].
  by rewrite Nat.add_succ_r.
Qed.

Lemma after_last_sep_none c :
  Forall (fun x => is_sep x = false) c -> after_last_sep c = 0.
Proof.
  induction 1 as [|x c Hx _ IH]; simpl; [done|]. by rewrite IH, Hx.
Qed.

Lemma rstrip_sep_snoc a x : is_sep x = false -> rstrip_sep (a ++ [x]) = a ++ [x].
Proof.
  intros Hx. induction a as [|c a IH]; simpl; [by rewrite Hx|].
  rewrite IH. by destruct a.
Qed.

Lemma rstrip_sep_snoc_sep a : rstrip_sep (a ++ ["/"%char]) = rstrip_sep a.
Proof.
  induction a as [|c a IH]; simpl; [done|]. by rewrite IH.
Qed.

Lemma forallb_is_sep_snoc a x y :
  is_sep x = false -> forallb is_sep ((a ++ [x]) ++ [y]) = false.
Proof.
  intros Hx. rewrite !forallb_app. simpl. rewrite Hx.
  by destruct (forallb is_sep a).
Qed.

(** The characters of a path that has components end with a character of
    the last component. *)
Lemma absolute_snoc cs c :
  absolute (cs ++ [c]) = concat (map (cons "/"%char) cs) ++ "/"%char :: c.
Proof.
  unfold absolute. destruct (cs ++ [c]) eqn:Hcs; [by destruct cs|]. rewrite <- Hcs.
  by rewrite map_app, concat_app; simpl; rewrite app_nil_r.
Qed.

Lemma absolute_ends cs :
  cs <> [] -> Forall component cs ->
  exists a x, absolute cs = a ++ [x] /\ is_sep x = false.
Proof.
  intros Hne Hcs. destruct (exists_last Hne) as (cs' & c & ->).
  apply Forall_app in Hcs as (_ & Hc). rewrite Forall_singleton in Hc.
  destruct Hc as (Hc0 & Hc).
  rewrite absolute_snoc.
  destruct (exists_last Hc0) as (c' & x & ->).
  exists (concat (map (cons "/"%char) cs') ++ "/"%char :: c'), x.
  split; [by rewrite <- app_assoc|].
  rewrite Forall_forall in Hc. apply Hc. apply elem_of_app. right. by left.
Qed.

Lemma dirname_absolute cs c :
  Forall component cs -> component c ->
  dirname (absolute (cs ++ [c])) = absolute cs.
Proof.
  intros Hcs (Hc0 & Hc). rewrite absolute_snoc. unfold dirname. cbv zeta.
  set (pre := concat (map (cons "/"%char) cs)).
  assert (after_last_sep (pre ++ "/"%char :: c) = S (length pre)) as ->.
  { rewrite after_last_sep_app. simpl. rewrite (after_last_sep_none c Hc). simpl. lia. }
  assert (take (S (length pre)) (pre ++ "/"%char :: c) = pre ++ ["/"%char]) as ->.
  { change ("/"%char :: c) with (["/"%char] ++ c). rewrite app_assoc.
    rewrite take_app_length'; [done|]. rewrite length_app. simpl. lia. }
  destruct cs as [|c0 cs'] eqn:Hcs'; [done|]. rewrite <- Hcs' in *.
  assert (cs <> []) as Hne by (by rewrite Hcs').
  destruct (absolute_ends cs Hne Hcs) as (a & x & Ha & Hx).
  assert (pre = a ++ [x]) as ->.
  { rewrite <- Ha. unfold absolute. by rewrite Hcs'. }
  rewrite (forallb_is_sep_snoc a x _ Hx).
  rewrite bool_decide_eq_false_2; [|by destruct a]. simpl.
  rewrite rstrip_sep_snoc_sep, (rstrip_sep_snoc a x Hx).
  rewrite <- Ha. done.
Qed.

Lemma dirname_root : dirname ["/"%char] = ["/"%char].
Proof. reflexivity. Qed.

Lemma ancestors_snoc cs c :
  ancestors (cs ++ [c]) = absolute (cs ++ [c]) :: ancestors cs.
Proof.
  unfold ancestors. rewrite length_app. cbn [length]. rewrite Nat.add_1_r.
  rewrite (seq_S (S (length cs))), rev_app_distr.
  change (rev [0 + S (length cs)]) with [S (length cs)].
  change ([S (length cs)] ++ rev (seq 0 (S (length cs))))
    with (S (length cs) :: rev (seq 0 (S (length cs)))).
  rewrite map_cons. f_equal.
  - f_equal. rewrite firstn_all2; [done|]. rewrite length_app. simpl. lia.
  - apply map_ext_in. intros k Hk. apply in_rev, in_seq in Hk.
    f_equal. rewrite take_app_le; [done|lia].
Qed.

Lemma absolute_not_nil cs : absolute cs <> [].
Proof. destruct cs as [|c cs]; [done|]. simpl. done. Qed.

Lemma _AllDirsToRoot_loop_absolute cs fuel :
  Forall component cs ->
  length (absolute cs) < fuel ->
  _AllDirsToRoot_loop fuel (absolute cs) = Some (ancestors cs).
Proof.
  revert fuel. induction cs as [|c cs IH] using rev_ind; intros fuel Hcs Hlt.
  - destruct fuel as [|fuel]; [simpl in Hlt; lia|]. reflexivity.
  - apply Forall_app in Hcs as (Hcs & Hc). rewrite Forall_singleton in Hc.
    destruct fuel as [|fuel]; [lia|]. cbn [_AllDirsToRoot_loop]. cbv zeta.
    rewrite (dirname_absolute cs c Hcs Hc).
    assert (length (absolute cs) < length (absolute (cs ++ [c]))) as Hshort.
    { apply prefix_shorter.
      - rewrite <- (dirname_absolute cs c Hcs Hc). apply dirname_prefix.
      - intros Heq. pose proof (dirname_absolute cs c Hcs Hc) as Hd.
        rewrite absolute_snoc in Heq. destruct Hc as (Hc0 & Hc).
        destruct cs as [|c0 cs0].
        + simpl in Heq. injection Heq as Heq. by symmetry in Heq.
        + unfold absolute in Heq. apply (f_equal length) in Heq.
          rewrite length_app in Heq. simpl in Heq. lia. }
    rewrite bool_decide_eq_false_2 by apply absolute_not_nil.
    rewrite bool_decide_eq_false_2 by (intros Heq; rewrite Heq in Hshort; lia).
    simpl. rewrite IH; [|done|lia]. by rewrite ancestors_snoc.
Qed.

(** X23.  For a path that [abspath] gives in normal form, with the
    components [cs], [_AllDirsToRoot] yields the path itself and then every
    ancestor, each once, from the nearest to the root, which comes last. *)
Theorem _AllDirsToRoot_ancestors abspath dir cs :
  abspath dir = absolute cs ->
  Forall component cs ->
  _AllDirsToRoot abspath dir = Some (ancestors cs) /\
  length (ancestors cs) = S (length cs) /\
  last (ancestors cs) = Some ["/"%char].
Proof.
  intros Habs Hcs. unfold _AllDirsToRoot. cbv zeta. rewrite Habs.
  split; [apply _AllDirsToRoot_loop_absolute; [done|lia]|].
  unfold ancestors. split; [by rewrite length_map, length_rev, length_seq|].
  change (seq 0 (S (length cs))) with (0 :: seq 1 (length cs)).
  simpl. rewrite map_app. simpl. by rewrite last_snoc.
Qed.

Lemma _AllDirsToRoot_ancestors_witness :
  let usr : path := ["u"; "s"; "r"]%char in
  let lib : path := ["l"; "i"; "b"]%char in
  Forall component [usr; lib] /\
  _AllDirsToRoot (fun p => p) (absolute [usr; lib]) =
    Some [absolute [usr; lib]; absolute [usr]; ["/"%char]].
Proof.
  cbv zeta.
  assert (Forall component [["u"; "s"; "r"]%char; ["l"; "i"; "b"]%char]) as Hc.
  { repeat constructor; done. }
  split; [exact Hc|].
  exact (proj1 (_AllDirsToRoot_ancestors (fun p => p) _ _ eq_refl Hc)).
Defined.
